(** * NW-Aus-Features processing pipeline: geometry reconciliation stages

    A shallow embedding of the overlap-cutting, rocky-reef merging, gap-filling
    and land-clipping scripts (02, 03, 04, 05, 07, 08) and the properties of
    their feature sets.

    Conventions of the embedding.
    - A GeoDataFrame is a list of rows in frame order; a row ([Feature]) is a
      geometry plus a map from column name to cell value.  Row labels of a
      freshly read frame are the positions 0, 1, 2, ...
    - Shapely/GEOS is an external collaborator: its predicates and overlay
      operations are the fields of the class [OverlayEngine]; the facts about
      them that the proofs rely on are the fields of [OverlayLaws].  The
      module [Raster] gives an executable engine (regions made of grid cells)
      that satisfies the laws, and [Twisted] one with invalid geometries.
    - Areas are exact rationals ([Qc]); the Python floats 0.0005 and 0.0001
      are the rationals 5/10000 and 1/10000. *)

From Stdlib Require Import QArith Qcanon.
From stdpp Require Import gmap strings list pretty.

Local Open Scope string_scope.
Local Open Scope list_scope.
Local Open Scope Qc_scope.

Set Warnings "-clear-no-such-hyp".

(** ** List facts used throughout *)

Module ListAux.

Lemma mjoin_filter_nonempty {A} (ls : list (list A)) :
  mjoin (filter (fun part => (0 < length part)%nat) ls) = mjoin ls.
Proof.
  induction ls as [|l ls IH]; [done|].
  rewrite filter_cons.
  destruct (decide (0 < length l)%nat) as [Hl|Hl]; simpl; rewrite IH; [done|].
  destruct l; [done | simpl in Hl; lia].
Qed.

Lemma filter_none {A} (P : A -> Prop) `{!forall x, Decision (P x)} (l : list A) :
  (forall x, x ∈ l -> ~ P x) -> filter P l = [].
Proof.
  induction l as [|x l IH]; intros Hl; [done|].
  rewrite filter_cons_False by (apply Hl; by left).
  apply IH. intros y Hy. apply Hl. by right.
Qed.

Lemma filter_all {A} (P : A -> Prop) `{!forall x, Decision (P x)} (l : list A) :
  (forall x, x ∈ l -> P x) -> filter P l = l.
Proof.
  induction l as [|x l IH]; intros Hl; [done|].
  rewrite filter_cons_True by (apply Hl; by left).
  f_equal. apply IH. intros y Hy. apply Hl. by right.
Qed.

Lemma existsb_perm {A} (f : A -> bool) (l l' : list A) :
  l ≡ₚ l' -> existsb f l = existsb f l'.
Proof.
  induction 1 as [|a l l' _ IH|a b l|l l' l'' _ IH1 _ IH2]; simpl.
  - done.
  - by rewrite IH.
  - by destruct (f a), (f b).
  - by rewrite IH1.
Qed.

(** Loops whose body may raise: the state is [None] from the first failure
    on.  [P pre a] is an invariant of the state [a] reached after the items
    [pre]. *)
Lemma foldl_option_ind {A B} (f : option A -> B -> option A)
    (P : list B -> A -> Prop) (l : list B) (a r : A) :
  (forall b, f None b = None) ->
  P [] a ->
  (forall pre b post a0 a1,
     l = pre ++ b :: post -> P pre a0 -> f (Some a0) b = Some a1 -> P (pre ++ [b]) a1) ->
  foldl f (Some a) l = Some r -> P l r.
Proof.
  intros Hnone H0 Hstep.
  assert (forall todo pre a0, l = pre ++ todo -> P pre a0 ->
            foldl f (Some a0) todo = Some r -> P l r) as Hgen.
  { induction todo as [|b todo IH]; intros pre a0 Hl Hpre Hfold.
    - simpl in Hfold. injection Hfold as <-. by rewrite Hl, app_nil_r.
    - simpl in Hfold. destruct (f (Some a0) b) as [a1|] eqn:Hf.
      + apply (IH (pre ++ [b]) a1); [by rewrite <- app_assoc | | done].
        by apply (Hstep pre b todo a0 a1).
      + exfalso. clear -Hnone Hfold. induction todo as [|b' todo IH]; [done|].
        simpl in Hfold. rewrite Hnone in Hfold. by apply IH. }
  intros Hfold. by apply (Hgen l [] a).
Qed.

Lemma foldl_option_inv {A B} (f : option A -> B -> option A)
    (P : A -> Prop) (l : list B) (a r : A) :
  (forall b, f None b = None) ->
  P a ->
  (forall b a0 a1, b ∈ l -> P a0 -> f (Some a0) b = Some a1 -> P a1) ->
  foldl f (Some a) l = Some r -> P r.
Proof.
  intros Hnone H0 Hstep.
  apply (foldl_option_ind f (fun _ => P)); [done|done|].
  intros pre b post a0 a1 -> Ha0 Hf. apply (Hstep b a0 a1); [|done|done].
  apply elem_of_app. right. by left.
Qed.

Lemma foldl_option_total {A B} (f : option A -> B -> option A)
    (P : A -> Prop) (l : list B) (a : A) :
  P a ->
  (forall b a0, b ∈ l -> P a0 -> exists a1, f (Some a0) b = Some a1 /\ P a1) ->
  exists r, foldl f (Some a) l = Some r /\ P r.
Proof.
  revert a. induction l as [|b l IH]; intros a Ha Hstep; [by exists a|].
  destruct (Hstep b a) as (a1 & Hf & Ha1); [by left|done|].
  simpl. rewrite Hf. apply IH; [done|].
  intros b' a0 Hb'. apply Hstep. by right.
Qed.

Lemma size_without_node (U v : gset nat) (node : nat) :
  node ∈ U -> node ∉ v -> size (U ∖ v) = S (size (U ∖ ({[node]} ∪ v))).
Proof.
  intros HU Hv.
  assert (U ∖ v = {[node]} ∪ (U ∖ ({[node]} ∪ v))) as ->.
  { apply set_eq. intros x. destruct (decide (x = node)) as [->|]; set_solver. }
  rewrite size_union by set_solver. by rewrite size_singleton.
Qed.

Lemma foldl_inv {A B} (f : A -> B -> A) (P : A -> Prop) (l : list B) (a : A) :
  P a -> (forall a0 b, b ∈ l -> P a0 -> P (f a0 b)) -> P (foldl f a l).
Proof.
  revert a. induction l as [|b l IH]; intros a Ha Hstep; [done|].
  simpl. apply IH.
  - apply Hstep; [by left | done].
  - intros a0 b' Hb'. apply Hstep. by right.
Qed.

Lemma length_filter_fmap {A B} (f : A -> B) (P : B -> Prop) `{!forall y, Decision (P y)}
    (l : list A) :
  length (filter P (f <$> l)) = length (filter (fun x => P (f x)) l).
Proof.
  induction l as [|x l IH]; [done|].
  rewrite fmap_cons, !filter_cons. destruct (decide (P (f x))); simpl; by rewrite IH.
Qed.

End ListAux.

Import ListAux.

(** ** Data model *)

Module Geo.

(** A cell of an attribute table: None/NaN, a string, or an integer. *)
Inductive value :=
| VNull
| VStr (s : string)
| VInt (n : Z).

#[global] Instance value_eq_dec : EqDecision value.
Proof. solve_decision. Defined.

#[global] Instance value_countable : Countable value.
Proof.
  refine (inj_countable'
    (fun v => match v with
              | VNull => inl ()
              | VStr s => inr (inl s)
              | VInt n => inr (inr n)
              end)
    (fun c => match c with
              | inl _ => VNull
              | inr (inl s) => VStr s
              | inr (inr n) => VInt n
              end) _).
  by intros [].
Defined.

(** The Shapely geometry classes the scripts test with [isinstance].  [Shape]
    is the coordinate data of a single part. *)
#[warnings="-register-all"]
Inductive geometry (Shape : Type) :=
| Point (s : Shape)
| LineString (s : Shape)
| Polygon (s : Shape)
| MultiPoint (parts : list Shape)
| MultiLineString (parts : list Shape)
| MultiPolygon (parts : list Shape)
| GeometryCollection (members : list (geometry Shape)).

Arguments Point {Shape} s.
Arguments LineString {Shape} s.
Arguments Polygon {Shape} s.
Arguments MultiPoint {Shape} parts.
Arguments MultiLineString {Shape} parts.
Arguments MultiPolygon {Shape} parts.
Arguments GeometryCollection {Shape} members.

(** [isinstance(g, Polygon)], [isinstance(g, MultiPolygon)],
    [isinstance(g, GeometryCollection)]. *)
Definition is_Polygon {Shape} (g : geometry Shape) : bool :=
  match g with Polygon _ => true | _ => false end.

Definition is_MultiPolygon {Shape} (g : geometry Shape) : bool :=
  match g with MultiPolygon _ => true | _ => false end.

Definition is_GeometryCollection {Shape} (g : geometry Shape) : bool :=
  match g with GeometryCollection _ => true | _ => false end.

(** [g.geoms]: only the multi-part classes and collections have the
    attribute ([hasattr(g, 'geoms')] is [None] otherwise). *)
Definition geoms {Shape} (g : geometry Shape) : option (list (geometry Shape)) :=
  match g with
  | MultiPoint ps => Some (Point <$> ps)
  | MultiLineString ps => Some (LineString <$> ps)
  | MultiPolygon ps => Some (Polygon <$> ps)
  | GeometryCollection gs => Some gs
  | _ => None
  end.

(** The constructor call [MultiPolygon(polygons)]: it takes Polygons; any
    other member makes the call raise ([None]). *)
Definition MultiPolygon_of {Shape} (polygons : list (geometry Shape))
  : option (geometry Shape) :=
  MultiPolygon <$> mapM (fun g => match g with Polygon s => Some s | _ => None end) polygons.

(** One row of a GeoDataFrame. [Geo] is [geometry Shape] where the script
    dereferences the geometry unconditionally and [option (geometry Shape)]
    where it tests for a missing one. *)
Record Feature (Geo : Type) := mkFeature {
  attrs : gmap string value;
  geom : Geo;
}.

Arguments mkFeature {Geo} attrs geom.
Arguments attrs {Geo} f.
Arguments geom {Geo} f.

(** [row.copy(); row.geometry = g] *)
Definition set_geometry {Geo Geo'} (f : Feature Geo) (g : Geo') : Feature Geo' :=
  mkFeature (attrs f) g.

(** [row[col]], a missing column reading as null. *)
Definition cell {Geo} (f : Feature Geo) (col : string) : value :=
  default VNull (attrs f !! col).

(** [x > y] on areas. *)
Definition gtb (x y : Qc) : bool :=
  match Qccompare x y with Gt => true | _ => false end.

(** The Shapely operations used by the scripts.  [covers g p] reads: the
    point [p] lies in the interior of the (polygonal part of the) region of
    [g]; it is the denotation through which the laws are stated and is not
    called by any script. *)
Class OverlayEngine (Shape : Type) := {
  point : Type;
  covers : geometry Shape -> point -> bool;
  area : geometry Shape -> Qc;
  is_empty : geometry Shape -> bool;
  is_valid : geometry Shape -> bool;
  intersects : geometry Shape -> geometry Shape -> bool;
  touches : geometry Shape -> geometry Shape -> bool;
  intersection : geometry Shape -> geometry Shape -> geometry Shape;
  difference : geometry Shape -> geometry Shape -> geometry Shape;
  unary_union : list (geometry Shape) -> geometry Shape;
  make_valid : geometry Shape -> geometry Shape;
}.

(** [g] lies within [h] (as regions). *)
Definition within `{OverlayEngine Shape} (g h : geometry Shape) : Prop :=
  forall p, covers g p = true -> covers h p = true.

(** [g] and [h] have no common interior point. *)
Definition disjoint_interiors `{OverlayEngine Shape} (g h : geometry Shape) : Prop :=
  forall p, covers g p && covers h p = false.

(** [g] and [h] cover the same region (Shapely's topological [equals]). *)
Definition same_region `{OverlayEngine Shape} (g h : geometry Shape) : Prop :=
  forall p, covers g p = covers h p.

(** [isinstance(g, (Polygon, MultiPolygon))] *)
Definition polygonal {Shape} (g : geometry Shape) : bool :=
  is_Polygon g || is_MultiPolygon g.

(** What the proofs assume of the engine: the set-theoretic reading of
    [difference] and [intersection], monotonicity of [area], and the
    one-directional links between the predicates and the regions. *)
Class OverlayLaws (Shape : Type) `{OverlayEngine Shape} : Prop := {
  covers_difference : forall g a p,
    covers (difference g a) p = covers g p && negb (covers a p);
  covers_intersection : forall g a p,
    covers (intersection g a) p = covers g p && covers a p;
  area_mono : forall g h, within g h -> area g <= area h;
  area_null : forall g, (forall p, covers g p = false) -> area g = 0;
  not_intersects_disjoint : forall g a,
    intersects g a = false -> disjoint_interiors g a;
  touches_disjoint : forall g a,
    touches g a = true -> disjoint_interiors g a;
  is_empty_covers : forall g p, is_empty g = true -> covers g p = false;
  difference_empty : forall g a,
    polygonal g = true -> is_valid g = true -> within g a ->
    is_empty (difference g a) = true;
  make_valid_valid : forall g, is_valid g = true -> make_valid g = g;
}.

(** *** Consequences of the laws *)

Lemma gtb_true x y : gtb x y = true <-> y < x.
Proof.
  unfold gtb. rewrite (Qcgt_alt x y).
  destruct (Qccompare x y); split; congruence.
Qed.

Lemma gtb_false x y : gtb x y = false <-> x <= y.
Proof.
  unfold gtb. rewrite (Qcle_alt x y).
  destruct (Qccompare x y); split; congruence.
Qed.

Section Laws.
Context {Shape : Type} `{L : OverlayLaws Shape}.

Lemma within_refl g : within g g.
Proof. by intros p. Qed.

Lemma within_trans g h k : within g h -> within h k -> within g k.
Proof. intros Hgh Hhk p Hp. by apply Hhk, Hgh. Qed.

Lemma difference_within g a : within (difference g a) g.
Proof.
  intros p. rewrite covers_difference. by intros [? _]%andb_true_iff.
Qed.

Lemma area_nonneg g : 0 <= area g.
Proof.
  rewrite <- (area_null (difference g g)).
  - apply area_mono, difference_within.
  - intros p. rewrite covers_difference. by destruct (covers g p).
Qed.

Lemma area_same_region g h : same_region g h -> area g = area h.
Proof.
  intros Hgh. apply Qcle_antisym; apply area_mono; intros p Hp.
  - by rewrite <- Hgh.
  - by rewrite Hgh.
Qed.

Lemma intersection_area_mono g h a :
  within g h -> area (intersection g a) <= area (intersection h a).
Proof.
  intros Hgh. apply area_mono. intros p.
  rewrite !covers_intersection. intros [Hg Ha]%andb_true_iff.
  by rewrite (Hgh p Hg), Ha.
Qed.

Lemma disjoint_intersection_area g a :
  disjoint_interiors g a -> area (intersection g a) = 0.
Proof.
  intros Hd. apply area_null. intros p. rewrite covers_intersection. apply Hd.
Qed.

Lemma difference_disjoint g a : disjoint_interiors (difference g a) a.
Proof.
  intros p. rewrite covers_difference.
  by destruct (covers g p), (covers a p).
Qed.

Lemma within_disjoint g h a :
  within g h -> disjoint_interiors h a -> disjoint_interiors g a.
Proof.
  intros Hgh Hd p. specialize (Hd p). specialize (Hgh p).
  destruct (covers g p); [|done]. by rewrite Hgh in Hd.
Qed.

Lemma difference_area_le g a : area (difference g a) <= area g.
Proof. apply area_mono, difference_within. Qed.

End Laws.

End Geo.

(** ** Files on disk, and how a stage run ends *)

Module Disk.
Import Geo.

(** A shapefile: its attribute columns and its rows. *)
Record Layer (Shape : Type) := mkLayer {
  columns : list string;
  rows : list (Feature (geometry Shape));
}.

Arguments mkLayer {Shape} columns rows.
Arguments columns {Shape} l.
Arguments rows {Shape} l.

(** [sys.exit(...)] with its status or message, an uncaught exception, or a
    normal end with the files then on disk. *)
Inductive outcome (FS : Type) :=
| Exit (status : string)
| Crash
| Finished (fs : FS).

Arguments Exit {FS} status.
Arguments Crash {FS}.
Arguments Finished {FS} fs.

(** The files on disk after a run that reached its end. *)
Definition files_after {FS} (o : outcome FS) : option FS :=
  match o with
  | Finished fs => Some fs
  | _ => None
  end.

End Disk.

(** ** An executable engine: regions made of grid cells

    A shape is a list of unit cells of a grid, each of area 0.0001; a region
    is the set of cells listed.  Two regions intersect when they share a
    cell or have cells that meet along an edge or at a corner, and touch
    when they intersect without sharing a cell. *)

Module Raster.
Import Geo.

Definition Cells : Type := list (Z * Z).

Definition cell_area : Qc := Q2Qc (1 # 10000).

Fixpoint cells_of (g : geometry Cells) : Cells :=
  match g with
  | Polygon s => s
  | MultiPolygon parts => concat parts
  | GeometryCollection members =>
      (fix go (l : list (geometry Cells)) : Cells :=
         match l with
         | [] => []
         | m :: l' => cells_of m ++ go l'
         end) members
  | _ => []
  end.

Definition adjacent (c d : Z * Z) : bool :=
  bool_decide (Z.abs (c.1 - d.1) <= 1)%Z && bool_decide (Z.abs (c.2 - d.2) <= 1)%Z.

Definition raster_covers (g : geometry Cells) (p : Z * Z) : bool :=
  bool_decide (p ∈ cells_of g).

Definition raster_area (g : geometry Cells) : Qc :=
  Qc_of_Z (Z.of_nat (length (remove_dups (cells_of g)))) * cell_area.

Definition raster_intersects (g a : geometry Cells) : bool :=
  existsb (fun c => existsb (adjacent c) (cells_of a)) (cells_of g).

Definition raster_touches (g a : geometry Cells) : bool :=
  raster_intersects g a
  && negb (existsb (fun c => raster_covers a c) (cells_of g)).

Definition raster_intersection (g a : geometry Cells) : geometry Cells :=
  Polygon (filter (fun c => c ∈ cells_of a) (cells_of g)).

Definition raster_difference (g a : geometry Cells) : geometry Cells :=
  Polygon (filter (fun c => c ∉ cells_of a) (cells_of g)).

Definition raster_union (l : list (geometry Cells)) : geometry Cells :=
  Polygon (remove_dups (l ≫= cells_of)).

#[export] Instance raster_engine : OverlayEngine Cells := {|
  point := Z * Z;
  covers := raster_covers;
  area := raster_area;
  is_empty := fun g => bool_decide (cells_of g = []);
  is_valid := fun _ => true;
  intersects := raster_intersects;
  touches := raster_touches;
  intersection := raster_intersection;
  difference := raster_difference;
  unary_union := raster_union;
  make_valid := fun g => g;
|}.

Lemma adjacent_refl c : adjacent c c = true.
Proof.
  unfold adjacent. by rewrite !Z.sub_diag.
Qed.

Lemma raster_area_mono (g h : geometry Cells) :
  (forall p, raster_covers g p = true -> raster_covers h p = true) ->
  raster_area g <= raster_area h.
Proof.
  intros Hsub. unfold raster_area.
  assert (length (remove_dups (cells_of g)) <= length (remove_dups (cells_of h)))%nat
    as Hlen.
  { apply submseteq_length, NoDup_submseteq; [apply NoDup_remove_dups|].
    intros c. rewrite !elem_of_remove_dups.
    specialize (Hsub c). unfold raster_covers in Hsub.
    by rewrite !bool_decide_eq_true in Hsub. }
  apply Qcmult_le_compat_r; [|by vm_compute].
  apply (proj1 (Z2Qc_inj_le _ _)). lia.
Qed.

#[export] Instance raster_laws : OverlayLaws Cells.
Proof.
  split; simpl.
  - intros g a p. unfold raster_covers, raster_difference. simpl.
    apply eq_true_iff_eq. rewrite andb_true_iff, negb_true_iff.
    rewrite bool_decide_eq_false, !bool_decide_eq_true, list_elem_of_filter.
    tauto.
  - intros g a p. unfold raster_covers, raster_intersection. simpl.
    apply eq_true_iff_eq. rewrite andb_true_iff.
    rewrite !bool_decide_eq_true, list_elem_of_filter. tauto.
  - apply raster_area_mono.
  - intros g Hnone. unfold raster_area.
    assert (cells_of g = []) as ->; [|by apply Qc_is_canon].
    destruct (cells_of g) as [|c cs] eqn:Hc; [done|].
    specialize (Hnone c). unfold raster_covers in Hnone.
    apply bool_decide_eq_false in Hnone. rewrite Hc in Hnone.
    destruct Hnone. by left.
  - intros g a Hint p. simpl. unfold raster_covers.
    apply andb_false_iff.
    destruct (decide (p ∈ cells_of g)) as [Hg|Hg];
      [|left; by apply bool_decide_eq_false].
    right. apply bool_decide_eq_false. intros Ha.
    unfold raster_intersects in Hint.
    assert (existsb (fun c => existsb (adjacent c) (cells_of a)) (cells_of g) = true)
      as Hex; [|by rewrite Hex in Hint].
    apply existsb_exists. exists p. split; [by apply list_elem_of_In|].
    apply existsb_exists. exists p. split; [by apply list_elem_of_In|].
    apply adjacent_refl.
  - intros g a [_ Hno]%andb_true_iff p. simpl.
    apply negb_true_iff in Hno.
    destruct (raster_covers g p) eqn:Hg; [|done]. simpl.
    destruct (raster_covers a p) eqn:Ha; [|done].
    assert (existsb (fun c => raster_covers a c) (cells_of g) = true)
      as Hex; [|by rewrite Hex in Hno].
    apply existsb_exists. exists p. split; [|done].
    apply list_elem_of_In. by apply bool_decide_eq_true in Hg.
  - intros g p Hempty%bool_decide_eq_true. unfold raster_covers.
    rewrite Hempty. by apply bool_decide_eq_false, not_elem_of_nil.
  - intros g a _ _ Hwithin. apply bool_decide_eq_true. simpl.
    apply filter_none. intros c Hc Hn. apply Hn.
    specialize (Hwithin c). simpl in Hwithin. unfold raster_covers in Hwithin.
    rewrite !bool_decide_eq_true in Hwithin. by apply Hwithin.
  - done.
Qed.


(** [within], checked cell by cell. *)
Lemma raster_within_check (g h : geometry Cells) :
  forallb (fun c => raster_covers h c) (cells_of g) = true -> within g h.
Proof.
  intros Hall p Hp. simpl in *. unfold raster_covers in Hp.
  apply bool_decide_eq_true, list_elem_of_In in Hp.
  rewrite forallb_forall in Hall. by apply Hall.
Qed.

(** A variant of the engine whose [difference] returns every remaining
    cell as a part of its own when more than one cell remains. *)
Definition raster_difference_parts (g a : geometry Cells) : geometry Cells :=
  match filter (fun c => c ∉ cells_of a) (cells_of g) with
  | [] => Polygon []
  | [c] => Polygon [c]
  | cs => MultiPolygon ((fun c => [c]) <$> cs)
  end.

Definition parts_engine : OverlayEngine Cells := {|
  point := Z * Z;
  covers := raster_covers;
  area := raster_area;
  is_empty := fun g => bool_decide (cells_of g = []);
  is_valid := fun _ => true;
  intersects := raster_intersects;
  touches := raster_touches;
  intersection := raster_intersection;
  difference := raster_difference_parts;
  unary_union := raster_union;
  make_valid := fun g => g;
|}.

End Raster.

(** ** An engine with invalid geometries: rings that cross themselves

    The grid engine of [Raster], with rings that may cross themselves.  A
    crossed ring winds around its cells, its lobes, in alternating senses;
    like a bowtie whose two lobes are equal, it is invalid, it is not
    empty, its signed areas cancel to 0, and no point is in its interior.
    [make_valid] returns the lobes of a crossed ring as the parts of a
    MultiPolygon, as Shapely returns the two triangles of a bowtie. *)

Module Twisted.
Import Geo Raster.

(** A ring: whether it crosses itself, and its cells. *)
Definition Ring : Type := bool * Cells.

(** The cells enclosed by a ring that does not cross itself. *)
Definition solid (r : Ring) : Cells := if r.1 then [] else r.2.

(** The interior of a geometry, as the cells it encloses. *)
Fixpoint cells_of (g : geometry Ring) : Cells :=
  match g with
  | Polygon r => solid r
  | MultiPolygon parts => concat (solid <$> parts)
  | GeometryCollection members =>
      (fix go (l : list (geometry Ring)) : Cells :=
         match l with
         | [] => []
         | m :: l' => cells_of m ++ go l'
         end) members
  | _ => []
  end.

(** The region of a geometry as a geometry of the grid engine. *)
Definition region (g : geometry Ring) : geometry Cells := Polygon (cells_of g).

Definition uncrossed (r : Ring) : bool := negb r.1.

(** The lobes of a crossed ring, each a ring of one cell. *)
Definition lobes (r : Ring) : list Ring :=
  if r.1 then (fun c => (false, [c])) <$> r.2 else [r].

Definition twisted_is_empty (g : geometry Ring) : bool :=
  match g with
  | Polygon r => bool_decide (r.2 = [])
  | MultiPolygon parts => bool_decide (concat (snd <$> parts) = [])
  | _ => bool_decide (cells_of g = [])
  end.

Definition twisted_is_valid (g : geometry Ring) : bool :=
  match g with
  | Polygon r => uncrossed r
  | MultiPolygon parts => forallb uncrossed parts
  | _ => true
  end.

Definition twisted_make_valid (g : geometry Ring) : geometry Ring :=
  match g with
  | Polygon r => if r.1 then MultiPolygon (lobes r) else g
  | MultiPolygon parts => MultiPolygon (parts ≫= lobes)
  | _ => g
  end.

Definition twisted_intersection (g a : geometry Ring) : geometry Ring :=
  Polygon (false, filter (fun c => c ∈ cells_of a) (cells_of g)).

Definition twisted_difference (g a : geometry Ring) : geometry Ring :=
  Polygon (false, filter (fun c => c ∉ cells_of a) (cells_of g)).

Definition twisted_union (l : list (geometry Ring)) : geometry Ring :=
  Polygon (false, remove_dups (l ≫= cells_of)).

#[export] Instance twisted_engine : OverlayEngine Ring := {|
  point := Z * Z;
  covers := fun g p => raster_covers (region g) p;
  area := fun g => raster_area (region g);
  is_empty := twisted_is_empty;
  is_valid := twisted_is_valid;
  intersects := fun g a => raster_intersects (region g) (region a);
  touches := fun g a => raster_touches (region g) (region a);
  intersection := twisted_intersection;
  difference := twisted_difference;
  unary_union := twisted_union;
  make_valid := twisted_make_valid;
|}.

Lemma solid_parts_nil (parts : list Ring) :
  concat (snd <$> parts) = [] -> concat (solid <$> parts) = [].
Proof.
  induction parts as [|[crossed cs] parts IH]; [done|].
  cbn [fmap list_fmap concat snd]. intros [-> Hrest]%app_eq_nil.
  rewrite (IH Hrest). unfold solid. cbn [fst snd]. by destruct crossed.
Qed.

Lemma twisted_empty_region (g : geometry Ring) :
  twisted_is_empty g = true -> cells_of g = [].
Proof.
  destruct g as [s|s|[crossed cs]|ps|ps|parts|members]; cbn [twisted_is_empty];
    intros Hempty%bool_decide_eq_true; try done.
  - cbn [snd] in Hempty. subst cs. cbn [cells_of]. unfold solid. cbn [fst snd].
    by destruct crossed.
  - cbn [cells_of]. by apply solid_parts_nil.
Qed.

Lemma uncrossed_lobes (parts : list Ring) :
  forallb uncrossed parts = true -> parts ≫= lobes = parts.
Proof.
  induction parts as [|[crossed cs] parts IH]; [done|].
  cbn [forallb]. intros [Hr Hrest]%andb_true_iff.
  unfold uncrossed in Hr. cbn [fst] in Hr. apply negb_true_iff in Hr. subst crossed.
  change ((false, cs) :: parts ≫= lobes = (false, cs) :: parts).
  by rewrite (IH Hrest).
Qed.

(** The engine satisfies the laws that the proofs assume. *)
#[export] Instance twisted_laws : OverlayLaws Ring.
Proof.
  split.
  - intros g a p.
    exact (@covers_difference Cells raster_engine raster_laws (region g) (region a) p).
  - intros g a p.
    exact (@covers_intersection Cells raster_engine raster_laws (region g) (region a) p).
  - intros g h Hwithin.
    exact (@area_mono Cells raster_engine raster_laws (region g) (region h) Hwithin).
  - intros g Hnone.
    exact (@area_null Cells raster_engine raster_laws (region g) Hnone).
  - intros g a Hint.
    exact (@not_intersects_disjoint Cells raster_engine raster_laws (region g) (region a) Hint).
  - intros g a Htouch.
    exact (@touches_disjoint Cells raster_engine raster_laws (region g) (region a) Htouch).
  - intros g p Hempty%twisted_empty_region.
    cbn [covers twisted_engine]. unfold raster_covers, region. cbn [Raster.cells_of].
    rewrite Hempty. by apply bool_decide_eq_false, not_elem_of_nil.
  - intros g a _ _ Hwithin. cbn [is_empty difference twisted_engine].
    unfold twisted_difference. cbn [twisted_is_empty snd].
    apply bool_decide_eq_true, filter_none. intros c Hc Hn. apply Hn.
    specialize (Hwithin c). cbn [covers twisted_engine] in Hwithin.
    unfold raster_covers, region in Hwithin. cbn [Raster.cells_of] in Hwithin.
    rewrite !bool_decide_eq_true in Hwithin. by apply Hwithin.
  - intros g Hvalid. cbn [is_valid make_valid twisted_engine] in *.
    destruct g as [s|s|[crossed cs]|ps|ps|parts|members]; try done.
    + unfold twisted_is_valid, uncrossed in Hvalid. cbn [fst] in Hvalid.
      apply negb_true_iff in Hvalid. subst crossed. done.
    + cbn [twisted_is_valid] in Hvalid. cbn [twisted_make_valid].
      by rewrite uncrossed_lobes.
Qed.

End Twisted.

(** ** 02-clean-overlaps.py *)

Module CleanOverlaps.
Import Geo Disk.

Definition input_shapefile : string := "data/v0-3_qc-1/in/Reef Boundaries Review.shp".
Definition output_shapefile : string := "working/02/Reef_Boundaries_Clean.shp".
Definition overlap_points_shapefile : string := "working/02/Overlap_Points.shp".

(** The literal 0.0005 of [cut_out_overlaps] and 0.0001 of [identify_overlaps]. *)
Definition cut_threshold : Qc := Q2Qc (5 # 10000).
Definition verify_threshold : Qc := Q2Qc (1 # 10000).

Section Stage.
Context {Shape : Type} `{E : OverlayEngine Shape}.

Local Abbreviation G := (geometry Shape).
Local Abbreviation Row := (Feature (geometry Shape)).

(** Body of the loop over [overlay_gdf.iterrows()]; the state is
    [(modified_geom, has_overlap, overlap_count)]. *)
Definition cut_step (st : G * bool * nat) (overlay_feature : Row) : G * bool * nat :=
  let '(modified_geom, has_overlap, overlap_count) := st in
  if intersects modified_geom (geom overlay_feature) then
    let isect := intersection modified_geom (geom overlay_feature) in
    if gtb (area isect) cut_threshold then
      (difference modified_geom (geom overlay_feature), true, S overlap_count)
    else st
  else st.

(** Body of the loop over [target_gdf.iterrows()]; the state is
    [(modified_features, overlap_count)]. *)
Definition cut_row (overlay_gdf : list Row) (acc : list Row * nat) (target_feature : Row)
  : list Row * nat :=
  let '(modified_geom, _, overlap_count) :=
    foldl cut_step (geom target_feature, false, acc.2) overlay_gdf in
  if is_empty modified_geom then (acc.1, overlap_count)
  else (acc.1 ++ [set_geometry target_feature modified_geom], overlap_count).

Definition cut_out_overlaps (target_gdf overlay_gdf : list Row) : list Row * nat :=
  if bool_decide (length target_gdf = 0%nat) || bool_decide (length overlay_gdf = 0%nat)
  then (target_gdf, 0%nat)
  else foldl (cut_row overlay_gdf) ([], 0%nat) target_gdf.

(** The geometry a target ends with after the loop over the overlays. *)
Definition resolved_geometry (overlay_gdf : list Row) (g : G) : G :=
  (foldl cut_step (g, false, 0%nat) overlay_gdf).1.1.

(** *** The verification scan *)

(** [gdf.sindex] may fail to build; [sindex.intersection(bounds)] returns
    candidate positions in an order of its own; the guarded
    [intersection] may raise. *)
Variable use_sindex : list Row -> bool.
Variable sindex_intersection : list Row -> G -> list nat.
Variable intersection_raises : G -> G -> bool.

Record Overlap := mkOverlap {
  feature_i_id : nat;
  feature_j_id : nat;
  type_i : value;
  type_j : value;
  overlap_geom : G;
}.

(** [gdf.iloc[positions]]; a position outside the frame raises. *)
Definition iloc (gdf : list Row) (positions : list nat) : option (list (nat * Row)) :=
  mapM (fun j => (fun f => (j, f)) <$> gdf !! j) positions.

(** [gdf.iterrows()] of a frame with the default labels. *)
Definition iterrows (gdf : list Row) : list (nat * Row) :=
  imap (fun j f => (j, f)) gdf.

(** Body of the loop over [possible_matches.iterrows()]. *)
Definition check_pair (i : nat) (feature_i : Row) (overlaps : list Overlap)
    (jf : nat * Row) : list Overlap :=
  let '(j, feature_j) := jf in
  if bool_decide (j <= i)%nat then overlaps
  else if is_empty (geom feature_j) then overlaps
  else if intersects (geom feature_i) (geom feature_j)
          && negb (touches (geom feature_i) (geom feature_j)) then
    if intersection_raises (geom feature_i) (geom feature_j) then overlaps
    else
      let isect := intersection (geom feature_i) (geom feature_j) in
      if gtb (area isect) verify_threshold then
        overlaps ++ [mkOverlap i j (cell feature_i "RB_Type_L3")
                               (cell feature_j "RB_Type_L3") isect]
      else overlaps
  else overlaps.

(** Body of the loop [for i in range(n_features)]. *)
Definition scan_row (gdf : list Row) (acc : option (list Overlap)) (ifeat : nat * Row)
  : option (list Overlap) :=
  overlaps ← acc;
  if is_empty (geom ifeat.2) then Some overlaps
  else
    possible_matches ←
      (if use_sindex gdf then iloc gdf (sindex_intersection gdf (geom ifeat.2))
       else Some (iterrows gdf));
    Some (foldl (check_pair ifeat.1 ifeat.2) overlaps possible_matches).

Definition identify_overlaps (gdf : list Row) : option (list Overlap) :=
  foldl (scan_row gdf) (Some []) (iterrows gdf).

(** *** The stage *)

Definition rb_type (f : Row) : value := cell f "RB_Type_L3".

Definition high_intertidal_of (gdf : list Row) : list Row :=
  filter (fun f => rb_type f = VStr "High Intertidal Coral Reef") gdf.

Definition platform_coral_of (gdf : list Row) : list Row :=
  filter (fun f => rb_type f = VStr "Platform Coral Reef") gdf.

Definition fringing_coral_of (gdf : list Row) : list Row :=
  filter (fun f => rb_type f = VStr "Fringing Coral Reef") gdf.

Definition other_features_of (gdf : list Row) : list Row :=
  filter (fun f => rb_type f ∉ [VStr "High Intertidal Coral Reef";
                                VStr "Platform Coral Reef";
                                VStr "Fringing Coral Reef"]) gdf.

(** The frame [result_gdf] that [main] builds from the input frame, or
    [None] where it stops with "No features left after processing". *)
Definition combine (gdf : list Row) : option (list Row) :=
  let high_intertidal := high_intertidal_of gdf in
  let modified_platform := (cut_out_overlaps (platform_coral_of gdf) high_intertidal).1 in
  let modified_fringing := (cut_out_overlaps (fringing_coral_of gdf) high_intertidal).1 in
  let parts := [modified_platform; modified_fringing; high_intertidal; other_features_of gdf] in
  let parts := filter (fun part => (0 < length part)%nat) parts in
  if bool_decide (parts = []) then None else Some (mjoin parts).

(** [centroid] of an overlap is only written out, never computed with. *)
Variable centroid : G -> G.

Definition point_record (i : nat) (o : Overlap) : Row :=
  mkFeature
    (<["ID" := VInt (Z.of_nat i)]>
     (<["Feature_1" := VInt (Z.of_nat (feature_i_id o))]>
     (<["Type_1" := type_i o]>
     (<["Feature_2" := VInt (Z.of_nat (feature_j_id o))]>
     (<["Type_2" := type_j o]> ∅)))))
    (centroid (overlap_geom o)).

Definition point_columns : list string :=
  ["ID"; "Feature_1"; "Type_1"; "Feature_2"; "Type_2"].

(** [main], on the files on disk.  Directory creation and console output
    are left out; [to_file] replaces whatever is at the path.  The report
    on the remaining overlaps is taken not to raise here;
    [CleanOverlapsRun.main] has the sort of the two types and the failing
    centroid. *)
Definition main (fs : gmap string (Layer Shape)) : outcome (gmap string (Layer Shape)) :=
  match fs !! input_shapefile with
  | None => Exit "1"
  | Some layer =>
    if bool_decide ("RB_Type_L3" ∈ columns layer) then
      match combine (rows layer) with
      | None => Exit "1"
      | Some result_gdf =>
        match identify_overlaps result_gdf with
        | None => Crash
        | Some remaining_overlaps =>
          let fs1 :=
            if bool_decide (remaining_overlaps = []) then fs
            else <[overlap_points_shapefile :=
                     mkLayer point_columns (imap point_record remaining_overlaps)]> fs in
          Finished (<[output_shapefile := mkLayer (columns layer) result_gdf]> fs1)
        end
      end
    else Exit "1"
  end.

End Stage.

(** *** Facts about the cut loop *)

Section CutFacts.
Context {Shape : Type} `{L : OverlayLaws Shape}.

Local Abbreviation G := (geometry Shape).
Local Abbreviation Row := (Feature (geometry Shape)).

(** The geometry component of [cut_step]. *)
Definition cut_geom (m : G) (a : Row) : G :=
  if intersects m (geom a) && gtb (area (intersection m (geom a))) cut_threshold
  then difference m (geom a) else m.

Lemma cut_threshold_nonneg : 0 <= cut_threshold.
Proof. by vm_compute. Qed.

Lemma verify_below_cut : verify_threshold < cut_threshold.
Proof. by vm_compute. Qed.

Lemma cut_step_geom m h c a : (cut_step (m, h, c) a).1.1 = cut_geom m a.
Proof.
  unfold cut_step, cut_geom.
  destruct (intersects m (geom a)); [|done].
  by destruct (gtb _ _).
Qed.

Lemma foldl_cut_step_geom l m h c :
  (foldl cut_step (m, h, c) l).1.1 = foldl cut_geom m l.
Proof.
  revert m h c. induction l as [|a l IH]; intros m h c; [done|].
  cbn [foldl]. rewrite <- (cut_step_geom m h c a).
  destruct (cut_step (m, h, c) a) as [[m' h'] c']. apply IH.
Qed.

Lemma resolved_geometry_fold l g : resolved_geometry l g = foldl cut_geom g l.
Proof. apply foldl_cut_step_geom. Qed.

(** A cut is triggered exactly when the overlap area exceeds the threshold:
    the [intersects] test never decides on its own. *)
Lemma cut_cond_area (m a : G) :
  intersects m a && gtb (area (intersection m a)) cut_threshold
  = gtb (area (intersection m a)) cut_threshold.
Proof.
  destruct (intersects m a) eqn:Hi; [done|]. simpl. symmetry.
  apply gtb_false.
  rewrite (disjoint_intersection_area m a) by by apply not_intersects_disjoint.
  apply cut_threshold_nonneg.
Qed.

Lemma cut_geom_within m a : within (cut_geom m a) m.
Proof.
  unfold cut_geom. destruct (_ && _).
  - apply difference_within.
  - apply within_refl.
Qed.

Lemma foldl_cut_geom_within l m : within (foldl cut_geom m l) m.
Proof.
  revert m. induction l as [|a l IH]; intros m; simpl.
  - apply within_refl.
  - eapply within_trans; [apply IH | apply cut_geom_within].
Qed.

(** Right after its own step an overlay overlaps the target by at most the
    threshold. *)
Lemma cut_geom_residual m a :
  area (intersection (cut_geom m a) (geom a)) <= cut_threshold.
Proof.
  unfold cut_geom. rewrite cut_cond_area.
  destruct (gtb _ _) eqn:Hg.
  - rewrite disjoint_intersection_area by apply difference_disjoint.
    apply cut_threshold_nonneg.
  - by apply gtb_false.
Qed.

Lemma foldl_cut_geom_residual l m a :
  a ∈ l -> area (intersection (foldl cut_geom m l) (geom a)) <= cut_threshold.
Proof.
  revert m. induction l as [|b l IH]; intros m Ha; [by apply elem_of_nil in Ha|].
  apply elem_of_cons in Ha as [->|Ha]; simpl.
  - eapply Qcle_trans; [|apply (cut_geom_residual m b)].
    apply intersection_area_mono, foldl_cut_geom_within.
  - by apply IH.
Qed.

(** Where the cut against [a] is triggered, nothing of [a] is left. *)
Lemma foldl_cut_geom_cleared pre a post m :
  cut_threshold < area (intersection (foldl cut_geom m pre) (geom a)) ->
  area (intersection (foldl cut_geom m (pre ++ a :: post)) (geom a)) = 0.
Proof.
  intros Hgt. rewrite foldl_app. cbn [foldl].
  set (mp := foldl cut_geom m pre) in *.
  apply disjoint_intersection_area.
  apply (within_disjoint _ (cut_geom mp a));
    [apply foldl_cut_geom_within|].
  unfold cut_geom. rewrite cut_cond_area.
  apply gtb_true in Hgt. rewrite Hgt. apply difference_disjoint.
Qed.

(** Overlays that all overlap [m] by at most the threshold leave the loop
    state as it was. *)
Lemma foldl_cut_step_fixed l m h c :
  (forall a, a ∈ l -> area (intersection m (geom a)) <= cut_threshold) ->
  foldl cut_step (m, h, c) l = (m, h, c).
Proof.
  induction l as [|a l IH]; intros Hle; [done|].
  cbn [foldl]. assert (cut_step (m, h, c) a = (m, h, c)) as ->.
  { unfold cut_step. destruct (intersects _ _); [|done].
    assert (gtb (area (intersection m (geom a))) cut_threshold = false) as ->; [|done].
    apply gtb_false, Hle. by left. }
  apply IH. intros b Hb. apply Hle. by right.
Qed.

End CutFacts.

(** *** The rows that [cut_out_overlaps] returns *)

Section CutRows.
Context {Shape : Type} `{L : OverlayLaws Shape}.

Local Abbreviation G := (geometry Shape).
Local Abbreviation Row := (Feature (geometry Shape)).

(** What one pass of the outer loop appends for a target row. *)
Definition resolve_row (overlay_gdf : list Row) (target_feature : Row) : option Row :=
  let g := resolved_geometry overlay_gdf (geom target_feature) in
  if is_empty g then None else Some (set_geometry target_feature g).

Lemma cut_row_rows overlay_gdf acc t :
  (cut_row overlay_gdf acc t).1
  = acc.1 ++ option_list (resolve_row overlay_gdf t).
Proof.
  unfold cut_row, resolve_row.
  rewrite resolved_geometry_fold.
  rewrite <- (foldl_cut_step_geom overlay_gdf (geom t) false acc.2).
  destruct (foldl cut_step _ _) as [[mg h] c]; simpl.
  destruct (is_empty mg); simpl; [by rewrite app_nil_r | done].
Qed.

Lemma foldl_cut_row_rows overlay_gdf target_gdf acc :
  (foldl (cut_row overlay_gdf) acc target_gdf).1
  = acc.1 ++ omap (resolve_row overlay_gdf) target_gdf.
Proof.
  revert acc. induction target_gdf as [|t T IH]; intros acc; simpl.
  - by rewrite app_nil_r.
  - rewrite IH, cut_row_rows, <- app_assoc. f_equal.
    by destruct (resolve_row overlay_gdf t).
Qed.

Lemma cut_out_overlaps_rows target_gdf overlay_gdf :
  (cut_out_overlaps target_gdf overlay_gdf).1
  = if bool_decide (length target_gdf = 0%nat) || bool_decide (length overlay_gdf = 0%nat)
    then target_gdf
    else omap (resolve_row overlay_gdf) target_gdf.
Proof.
  unfold cut_out_overlaps. destruct (_ || _); [done|].
  by rewrite foldl_cut_row_rows.
Qed.

(** Every returned row is a target row with its geometry replaced by the
    resolved one. *)
Lemma cut_out_overlaps_elem target_gdf overlay_gdf b' :
  b' ∈ (cut_out_overlaps target_gdf overlay_gdf).1 ->
  exists b, b ∈ target_gdf /\ attrs b' = attrs b
            /\ geom b' = resolved_geometry overlay_gdf (geom b).
Proof.
  rewrite cut_out_overlaps_rows.
  destruct (bool_decide (length target_gdf = 0%nat)) eqn:HT; simpl.
  { apply bool_decide_eq_true, length_zero_iff_nil in HT as ->.
    by intros ?%elem_of_nil. }
  destruct (bool_decide (length overlay_gdf = 0%nat)) eqn:HO.
  { apply bool_decide_eq_true, length_zero_iff_nil in HO as ->.
    intros Hb. by exists b'. }
  intros (b & Hb & Hr)%list_elem_of_omap. exists b. split; [done|].
  unfold resolve_row in Hr. destruct (is_empty _); [done|].
  by injection Hr as <-.
Qed.

(** A pass over rows that no overlay overlaps by more than the threshold,
    and that are not empty, returns them as they are and counts nothing. *)
Lemma foldl_cut_row_fixed overlay_gdf rows_ acc c :
  (forall r a, r ∈ rows_ -> a ∈ overlay_gdf ->
     area (intersection (geom r) (geom a)) <= cut_threshold) ->
  (forall r, r ∈ rows_ -> is_empty (geom r) = false) ->
  foldl (cut_row overlay_gdf) (acc, c) rows_ = (acc ++ rows_, c).
Proof.
  revert acc. induction rows_ as [|r R IH]; intros acc Hle Hne; simpl.
  - by rewrite app_nil_r.
  - assert (cut_row overlay_gdf (acc, c) r = (acc ++ [r], c)) as ->.
    { unfold cut_row. simpl. rewrite foldl_cut_step_fixed.
      - rewrite Hne by by left. by destruct r.
      - intros a Ha. apply Hle; [by left | done]. }
    rewrite IH, <- app_assoc; [done| |].
    + intros r' a Hr' Ha. apply Hle; [by right | done].
    + intros r' Hr'. apply Hne. by right.
Qed.

End CutRows.

(** *** Residual overlap, idempotence and order of the cuts *)

Section Resolver.
Context {Shape : Type} `{L : OverlayLaws Shape}.

Local Abbreviation G := (geometry Shape).
Local Abbreviation Row := (Feature (geometry Shape)).

(** C1 (as amended). Every row returned by [cut_out_overlaps] is a target
    row B carrying its resolved geometry; with every overlay A that geometry
    overlaps by at most the cut threshold, and by nothing at all when the
    part of B that is left on reaching A still overlaps A by more than the
    threshold (so always for the first overlay that B overlaps that much). *)
Theorem cut_out_overlaps_residual (target_gdf overlay_gdf : list Row) (b' : Row) :
  b' ∈ (cut_out_overlaps target_gdf overlay_gdf).1 ->
  exists b, b ∈ target_gdf /\ attrs b' = attrs b
    /\ geom b' = resolved_geometry overlay_gdf (geom b)
    /\ (forall a, a ∈ overlay_gdf ->
          area (intersection (geom b') (geom a)) <= cut_threshold)
    /\ (forall pre a post, overlay_gdf = pre ++ a :: post ->
          cut_threshold < area (intersection (resolved_geometry pre (geom b)) (geom a)) ->
          area (intersection (geom b') (geom a)) = 0).
Proof.
  intros (b & Hb & Hattrs & Hgeom)%cut_out_overlaps_elem.
  exists b. repeat split; try done.
  - intros a Ha. rewrite Hgeom, resolved_geometry_fold.
    by apply foldl_cut_geom_residual.
  - intros pre a post -> Hgt. rewrite Hgeom, resolved_geometry_fold.
    apply foldl_cut_geom_cleared. by rewrite <- resolved_geometry_fold.
Qed.

(** C5. A second run of [cut_out_overlaps] over the rows the first run
    returned, against the same overlays, returns those rows as they are
    (no geometry changed, no row removed) and counts no overlap. *)
Theorem cut_out_overlaps_idempotent (target_gdf overlay_gdf : list Row) :
  cut_out_overlaps (cut_out_overlaps target_gdf overlay_gdf).1 overlay_gdf
  = ((cut_out_overlaps target_gdf overlay_gdf).1, 0%nat).
Proof.
  set (R := (cut_out_overlaps target_gdf overlay_gdf).1).
  unfold cut_out_overlaps at 1.
  destruct (bool_decide (length R = 0%nat) || bool_decide (length overlay_gdf = 0%nat))
    eqn:Hearly; [done|].
  apply orb_false_iff in Hearly as [HR HO].
  apply (foldl_cut_row_fixed overlay_gdf R [] 0%nat).
  - intros r a Hr Ha.
    apply cut_out_overlaps_elem in Hr as (b & _ & _ & ->).
    rewrite resolved_geometry_fold. by apply foldl_cut_geom_residual.
  - intros r Hr. subst R. rewrite cut_out_overlaps_rows in Hr.
    rewrite HO, orb_false_r in Hr.
    destruct (bool_decide (length target_gdf = 0%nat)) eqn:HT.
    { apply bool_decide_eq_true, length_zero_iff_nil in HT. subst target_gdf.
      by apply elem_of_nil in Hr. }
    apply list_elem_of_omap in Hr as (b & _ & Hres).
    unfold resolve_row in Hres.
    destruct (is_empty (resolved_geometry overlay_gdf (geom b))) eqn:Hem; [done|].
    by injection Hres as <-.
Qed.

(** No two overlays of the list share interior. *)
Fixpoint non_overlapping (l : list Row) : Prop :=
  match l with
  | [] => True
  | a :: l' =>
      Forall (fun b => disjoint_interiors (geom a) (geom b)) l' /\ non_overlapping l'
  end.

Lemma disjoint_interiors_sym (g h : G) :
  disjoint_interiors g h -> disjoint_interiors h g.
Proof. intros Hd p. by rewrite andb_comm. Qed.

Lemma non_overlapping_perm (l l' : list Row) :
  l ≡ₚ l' -> non_overlapping l -> non_overlapping l'.
Proof.
  induction 1 as [|a l l' Hp IH|a b l|l l' l'' _ IH1 _ IH2]; simpl.
  - done.
  - intros [Ha Hl]. split; [by rewrite <- Hp | by apply IH].
  - intros [Hb [Ha Hl]]. apply Forall_cons in Hb as [Hba Hb].
    repeat split; try done.
    + apply Forall_cons. split; [by apply disjoint_interiors_sym | done].
  - intros Hl. by apply IH2, IH1.
Qed.

(** Whether the cut against [a] is triggered on the geometry [m]. *)
Definition triggers (m : G) (a : Row) : bool :=
  gtb (area (intersection m (geom a))) cut_threshold.

Lemma cut_geom_triggers m a :
  cut_geom m a = if triggers m a then difference m (geom a) else m.
Proof. unfold cut_geom, triggers. by rewrite cut_cond_area. Qed.

(** An overlay disjoint from [a] sees the same overlap before and after the
    step for [a]. *)
Lemma triggers_after_disjoint_cut m a b :
  disjoint_interiors (geom a) (geom b) ->
  triggers (cut_geom m a) b = triggers m b.
Proof.
  intros Hd. unfold triggers. f_equal. apply area_same_region. intros p.
  rewrite !covers_intersection, cut_geom_triggers.
  destruct (triggers m a); [|done].
  rewrite covers_difference. specialize (Hd p).
  destruct (covers m p), (covers (geom a) p), (covers (geom b) p); done.
Qed.

(** With non-overlapping overlays, the resolved geometry is the target
    minus the overlays that the target itself overlaps beyond the
    threshold. *)
Lemma foldl_cut_geom_covers l m p :
  non_overlapping l ->
  covers (foldl cut_geom m l) p
  = covers m p && negb (existsb (fun a => triggers m a && covers (geom a) p) l).
Proof.
  revert m. induction l as [|a l IH]; intros m Hl; simpl.
  - by rewrite andb_true_r.
  - destruct Hl as [Ha Hl]. rewrite IH by done.
    assert (existsb (fun b => triggers (cut_geom m a) b && covers (geom b) p) l
            = existsb (fun b => triggers m b && covers (geom b) p) l) as ->.
    { clear IH Hl. induction l as [|b l IH]; [done|].
      apply Forall_cons in Ha as [Hab Ha]. simpl.
      by rewrite IH, triggers_after_disjoint_cut. }
    rewrite cut_geom_triggers.
    destruct (triggers m a); simpl.
    + rewrite covers_difference.
      destruct (covers m p), (covers (geom a) p), (existsb _ l); done.
    + done.
Qed.

(** C3 (as amended). When no two overlays overlap one another, the resolved
    geometry of a target covers the same region for every order in which
    the overlays are taken. *)
Theorem resolved_geometry_order_independent (overlay_gdf overlay_gdf' : list Row) (g : G) :
  overlay_gdf ≡ₚ overlay_gdf' ->
  non_overlapping overlay_gdf ->
  same_region (resolved_geometry overlay_gdf g) (resolved_geometry overlay_gdf' g).
Proof.
  intros Hp Hl p. rewrite !resolved_geometry_fold.
  rewrite !foldl_cut_geom_covers; [|by apply (non_overlapping_perm overlay_gdf)|done].
  by rewrite (existsb_perm _ _ _ Hp).
Qed.

End Resolver.

(** *** The verification scan and the combined frame *)

Section Verification.
Context {Shape : Type} `{E : OverlayEngine Shape}.

Local Abbreviation G := (geometry Shape).
Local Abbreviation Row := (Feature (geometry Shape)).

Variable use_sindex : list Row -> bool.
Variable sindex_intersection : list Row -> G -> list nat.
Variable intersection_raises : G -> G -> bool.

(** What a reported pair must be: two rows of the frame, in position order,
    that intersect and do not merely touch, reported with their
    intersection, whose area exceeds the verification threshold. *)
Definition genuine_overlap (gdf : list Row) (o : Overlap) : Prop :=
  exists fi fj,
    gdf !! feature_i_id o = Some fi /\ gdf !! feature_j_id o = Some fj
    /\ (feature_i_id o < feature_j_id o)%nat
    /\ intersects (geom fi) (geom fj) = true
    /\ touches (geom fi) (geom fj) = false
    /\ overlap_geom o = intersection (geom fi) (geom fj)
    /\ verify_threshold < area (overlap_geom o).

Lemma iloc_lookup (gdf : list Row) positions pm j f :
  iloc gdf positions = Some pm -> (j, f) ∈ pm -> gdf !! j = Some f.
Proof.
  unfold iloc. intros HF%mapM_Some_1.
  induction HF as [|k [j' f'] ks pm Hk _ IH]; [by intros ?%elem_of_nil|].
  intros [Heq|Hin]%elem_of_cons; [|by apply IH].
  injection Heq as -> ->.
  destruct (gdf !! k) as [f0|] eqn:Hl; [|done]. simpl in Hk. by injection Hk as -> ->.
Qed.

Lemma iterrows_lookup (gdf : list Row) j f :
  (j, f) ∈ iterrows gdf -> gdf !! j = Some f.
Proof.
  unfold iterrows. intros (i & x & Heq & Hl)%elem_of_lookup_imap.
  by injection Heq as -> ->.
Qed.

Lemma check_pair_genuine gdf i fi overlaps jf :
  gdf !! i = Some fi -> gdf !! jf.1 = Some jf.2 ->
  Forall (genuine_overlap gdf) overlaps ->
  Forall (genuine_overlap gdf) (check_pair intersection_raises i fi overlaps jf).
Proof.
  intros Hi Hj Hall. destruct jf as [j fj]. unfold check_pair. simpl in Hj.
  case_bool_decide as Hji; [done|].
  destruct (is_empty (geom fj)); [done|].
  destruct (intersects (geom fi) (geom fj) && negb (touches (geom fi) (geom fj)))
    eqn:Hcond; [|done].
  destruct (intersection_raises _ _); [done|].
  destruct (gtb _ _) eqn:Hgt; [|done].
  apply Forall_app. split; [done|]. apply Forall_singleton.
  apply andb_true_iff in Hcond as [Hint Htouch]. apply negb_true_iff in Htouch.
  exists fi, fj. simpl. repeat split; try done; [lia|by apply gtb_true].
Qed.

Lemma scan_row_genuine gdf acc ifeat overlaps :
  gdf !! ifeat.1 = Some ifeat.2 ->
  (forall ovs, acc = Some ovs -> Forall (genuine_overlap gdf) ovs) ->
  scan_row use_sindex sindex_intersection intersection_raises gdf acc ifeat = Some overlaps ->
  Forall (genuine_overlap gdf) overlaps.
Proof.
  intros Hi Hacc. unfold scan_row.
  destruct acc as [ovs|]; [|done]. simpl.
  specialize (Hacc ovs eq_refl).
  destruct (is_empty (geom ifeat.2)); [by intros [= <-]|].
  destruct (if use_sindex gdf then _ else _) as [pm|] eqn:Hpm; [|done]. simpl.
  intros [= <-].
  assert (forall jf, jf ∈ pm -> gdf !! jf.1 = Some jf.2) as Hpm_ok.
  { intros [j f] Hin. simpl. destruct (use_sindex gdf).
    - by eapply iloc_lookup.
    - injection Hpm as <-. by apply iterrows_lookup. }
  clear Hpm. revert ovs Hacc. induction pm as [|jf pm IH]; intros ovs Hacc; [done|].
  simpl. apply IH.
  - intros jf' Hin. apply Hpm_ok. by right.
  - apply check_pair_genuine; [done| |done]. apply Hpm_ok. by left.
Qed.

(** C8. Every pair that the verification scan reports is a pair of rows
    that intersect without merely touching and whose intersection area
    exceeds 0.0001; and that threshold is below the 0.0005 of the cut. *)
Theorem identify_overlaps_genuine (gdf : list Row) (overlaps : list (@Overlap Shape)) :
  identify_overlaps use_sindex sindex_intersection intersection_raises gdf = Some overlaps ->
  Forall (genuine_overlap gdf) overlaps /\ verify_threshold < cut_threshold.
Proof.
  intros Hid. split; [|apply verify_below_cut].
  unfold identify_overlaps in Hid.
  assert (forall ifeat, ifeat ∈ iterrows gdf -> gdf !! ifeat.1 = Some ifeat.2) as Hrows.
  { intros [i f]. apply iterrows_lookup. }
  revert Hid Hrows. generalize (iterrows gdf) as todo.
  assert (forall ovs, Some (@nil (@Overlap Shape)) = Some ovs -> Forall (genuine_overlap gdf) ovs) as Hacc.
  { by intros ovs [= <-]. }
  revert Hacc. generalize (Some (@nil (@Overlap Shape))) as acc.
  intros acc Hacc todo. revert acc Hacc overlaps.
  induction todo as [|ifeat todo IH]; intros acc Hacc overlaps Hid Hrows.
  - simpl in Hid. by apply Hacc.
  - simpl in Hid. eapply IH; [|exact Hid|].
    + intros ovs Hovs. eapply scan_row_genuine; [|exact Hacc|exact Hovs].
      apply Hrows. by left.
    + intros jf Hin. apply Hrows. by right.
Qed.

(** The scan runs to its end when the index returns positions of the frame. *)
Lemma identify_overlaps_total (gdf : list Row) :
  (forall g j, j ∈ sindex_intersection gdf g -> (j < length gdf)%nat) ->
  is_Some (identify_overlaps use_sindex sindex_intersection intersection_raises gdf).
Proof.
  intros Hidx. unfold identify_overlaps.
  assert (is_Some (Some (@nil (@Overlap Shape)))) as Hacc by done.
  revert Hacc. generalize (Some (@nil (@Overlap Shape))) as acc. generalize (iterrows gdf) as todo.
  induction todo as [|ifeat todo IH]; intros acc Hacc; [done|].
  simpl. apply IH. destruct Hacc as [ovs ->]. unfold scan_row. simpl.
  destruct (is_empty _); [done|].
  destruct (use_sindex gdf); [|done].
  destruct (iloc gdf (sindex_intersection gdf (geom ifeat.2))) as [pm|] eqn:Hpm; [done|].
  exfalso. unfold iloc in Hpm. apply mapM_None_1, Exists_exists in Hpm as (j & Hj & Hnone).
  apply Hidx, lookup_lt_is_Some in Hj as [f Hf]. by rewrite Hf in Hnone.
Qed.

End Verification.

Section Combined.
Context {Shape : Type} `{E : OverlayEngine Shape}.

Local Abbreviation Row := (Feature (geometry Shape)).

(** The rows that the stage may cut. *)
Definition is_cut_target (f : Row) : Prop :=
  rb_type f ∈ [VStr "Platform Coral Reef"; VStr "Fringing Coral Reef"].

#[global] Instance is_cut_target_dec (f : Row) : Decision (is_cut_target f).
Proof. unfold is_cut_target. apply _. Defined.



End Combined.
End CleanOverlaps.

(** ** 04-merge-rocky-reefs.py *)

Module MergeRockyReefs.
Import Geo Disk.

Section Stage.
Context {Shape : Type} `{E : OverlayEngine Shape}.

Local Abbreviation G := (geometry Shape).
Local Abbreviation Row := (Feature (geometry Shape)).

(** [sindex.intersection(row.geometry.bounds)] over the index built on
    [gdf_nw_rock]: candidate positions, in an order of the index's own. *)
Variable sindex_intersection : list Row -> G -> list nat.

(** The order in which Python iterates over a set of integers. *)
Variable set_order : gset nat -> list nat.

Definition set_attr (col : string) (v : value) (f : Row) : Row :=
  mkFeature (<[col := v]> (attrs f)) (geom f).

Definition debug_id (f : Row) : value := cell f "DebugID".

(** [gdf.iterrows()] / a frame with its labels. *)
Definition labelled (gdf : list Row) : list (nat * Row) :=
  imap (fun i f => (i, f)) gdf.

(** *** 1.5 Tracking columns *)

Definition with_debug_id (gdf_nw : Layer Shape) : Layer Shape :=
  if bool_decide ("DebugID" ∈ columns gdf_nw) then gdf_nw
  else mkLayer (columns gdf_nw ++ ["DebugID"])
               (imap (fun i f => set_attr "DebugID" (VStr ("NW_" +:+ pretty i)) f)
                     (rows gdf_nw)).

(** [gdf[col] = v] for a whole column. *)
Definition set_column (col : string) (v : value) (gdf : Layer Shape) : Layer Shape :=
  mkLayer (if bool_decide (col ∈ columns gdf) then columns gdf else columns gdf ++ [col])
          (set_attr col v <$> rows gdf).

Definition tracked (gdf_nw : Layer Shape) : Layer Shape :=
  set_column "debug_status" (VStr "original") (with_debug_id gdf_nw).

(** *** 2. AIMS attributes *)

Definition default_vals : list (string * value) :=
  [("EdgeSrc", VStr "Semi-auto rocky reef");
   ("Notes", VNull);
   ("EdgeAcc_m", VInt 40);
   ("RB_Type_L3", VStr "Fringing Rocky Reef");
   ("Feat_L3", VStr "Rocky Reef");
   ("GeoAttach", VStr "Fringing");
   ("Relief", VStr "Low");
   ("FlowInflu", VStr "None");
   ("SO_L2", VStr "Terrigenous");
   ("Paleo", VStr "No");
   ("FeatConf", VStr "Medium");
   ("TypeConf", VStr "Medium");
   ("DepthCat", VStr "Very Shallow");
   ("DepthCatSr", VStr "S2 Infrared")].

(** [if col not in gdf.columns: gdf[col] = None] *)
Definition ensure_column (gdf : Layer Shape) (col : string) : Layer Shape :=
  if bool_decide (col ∈ columns gdf) then gdf else set_column col VNull gdf.

(** [gdf[k] = gdf[k].fillna(v)]; with [v] null nothing changes. *)
Definition fillna (gdf : Layer Shape) (kv : string * value) : Layer Shape :=
  mkLayer (columns gdf)
          ((fun f => if bool_decide (cell f kv.1 = VNull) then set_attr kv.1 kv.2 f else f)
             <$> rows gdf).

Definition prepare_aims (nw_columns : list string) (gdf_aims : Layer Shape) : Layer Shape :=
  let a1 := foldl ensure_column gdf_aims nw_columns in
  let a2 := foldl ensure_column a1 (default_vals.*1) in
  foldl fillna a2 default_vals.

(** *** 3. The NW rocky reefs *)

(** [nw_rock_mask] at a row.  A frame without the column [Feat_L3] reads
    as null here; the script raises a KeyError on it. *)
Definition is_rock (f : Row) : Prop := cell f "Feat_L3" = VStr "Rocky Reef".

#[global] Instance is_rock_dec (f : Row) : Decision (is_rock f).
Proof. unfold is_rock. apply _. Defined.

(** [gdf_nw[nw_rock_mask]]: the rocky-reef rows with their labels in
    [gdf_nw].  The labels are [original_indices] (and [idx_mapping], read
    by position); the rows are [gdf_nw_rock] after [reset_index]. *)
Definition rock_rows (gdf_nw : list Row) : list (nat * Row) :=
  filter (fun jf => is_rock jf.2) (labelled gdf_nw).

Definition original_indices (gdf_nw : list Row) : list nat := (rock_rows gdf_nw).*1.
Definition gdf_nw_rock (gdf_nw : list Row) : list Row := (rock_rows gdf_nw).*2.

(** *** 4. Tagging the AIMS polygons *)

(** An insertion-ordered dict from node to set of nodes. *)
Definition graph := list (nat * gset nat).

Fixpoint dict_get (d : graph) (k : nat) : option (gset nat) :=
  match d with
  | [] => None
  | (k', s) :: d' => if decide (k' = k) then Some s else dict_get d' k
  end.

(** [d.setdefault(k, set()).add(x)] *)
Fixpoint setdefault_add (d : graph) (k x : nat) : graph :=
  match d with
  | [] => [(k, {[x]})]
  | (k', s) :: d' =>
      if decide (k' = k) then (k', {[x]} ∪ s) :: d'
      else (k', s) :: setdefault_add d' k x
  end.

(** The double loop over [touched_nws]. *)
Definition connect_touched (touched_nws : list nat) (nw_connections : graph) : graph :=
  foldl (fun g1 idx1 =>
           foldl (fun g2 idx2 =>
                    if decide (idx1 ≠ idx2)
                    then setdefault_add (setdefault_add g2 idx1 idx2) idx2 idx1
                    else g2)
                 g1 touched_nws)
        nw_connections touched_nws.

Record tagging := mkTagging {
  touch_idxs : gset nat;
  nw_groups : gmap nat (list G);
  nw_connections : graph;
}.

(** Body of [for nw_idx in possibles], for the AIMS row [i] with geometry
    [g]; the state is the tagging so far and [touched_nws].  Reading a
    position that [gdf_nw_rock] does not have raises ([None]). *)
Definition tag_candidate (rock : list Row) (i : nat) (g : G)
    (acc : option (tagging * list nat)) (nw_idx : nat) : option (tagging * list nat) :=
  st ← acc;
  nw_row ← rock !! nw_idx;
  if touches g (geom nw_row) || intersects g (geom nw_row) then
    let touched_nws := st.2 ++ [nw_idx] in
    Some (mkTagging
            ({[i]} ∪ touch_idxs st.1)
            (<[nw_idx := default [] (nw_groups st.1 !! nw_idx) ++ [g]]> (nw_groups st.1))
            (if bool_decide (1 < length touched_nws)%nat
             then connect_touched touched_nws (nw_connections st.1)
             else nw_connections st.1),
          touched_nws)
  else Some st.

(** Body of [for i, row in gdf_aims.iterrows()].  The bookkeeping at the
    end of the body ([debug_status] of the AIMS row and [merge_tracking])
    is left out, and with it the join of the identifiers of the touched
    reefs, which raises a TypeError on an identifier that is not text. *)
Definition tag_row (rock : list Row) (acc : option tagging) (ir : nat * Row)
  : option tagging :=
  tg ← acc;
  fst <$> foldl (tag_candidate rock ir.1 (geom ir.2)) (Some (tg, []))
                (sindex_intersection rock (geom ir.2)).

Definition tag_all (rock : list Row) (gdf_aims : list Row) : option tagging :=
  foldl (tag_row rock) (Some (mkTagging ∅ ∅ [])) (labelled gdf_aims).

(** [gdf_aims.drop(list(touch_idxs))], after the untouched rows got the
    status "new_feature". *)
Definition aims_new_of (touch : gset nat) (gdf_aims : list Row) : list Row :=
  (fun jf => set_attr "debug_status" (VStr "new_feature") jf.2)
    <$> filter (fun jf => jf.1 ∉ touch) (labelled gdf_aims).

(** *** 5. Connected components *)

(** [graph.get(node, [])] in iteration order. *)
Definition neighbours (g : graph) (node : nat) : list nat :=
  match dict_get g node with
  | Some s => set_order s
  | None => []
  end.

(** [dfs(node, component)]; the state is [(visited, component)].  [fuel]
    bounds the depth of the recursion. *)
Fixpoint dfs (fuel : nat) (g : graph) (node : nat) (st : gset nat * list nat)
  : option (gset nat * list nat) :=
  match fuel with
  | O => None
  | S fuel' =>
      foldl (fun acc neighbor =>
               st' ← acc;
               if decide (neighbor ∈ st'.1) then Some st'
               else dfs fuel' g neighbor st')
            (Some ({[node]} ∪ st.1, st.2 ++ [node]))
            (neighbours g node)
  end.

(** Body of [for node in graph]; the state is [(visited, components)]. *)
Definition visit (fuel : nat) (g : graph) (acc : option (gset nat * list (list nat)))
    (node : nat) : option (gset nat * list (list nat)) :=
  st ← acc;
  if decide (node ∈ st.1) then Some st
  else
    vc ← dfs fuel g node (st.1, []);
    Some (vc.1, st.2 ++ [vc.2]).

(** Every node the traversal can meet. *)
Definition node_universe (g : graph) : gset nat :=
  list_to_set (g.*1) ∪ list_to_set (g ≫= (fun kv => set_order kv.2)).

(** The recursion is as deep as the longest simple path at most: one more
    than the number of nodes is fuel enough
    ([find_connected_components_total]).  Python's own recursion limit is
    not modelled. *)
Definition find_connected_components (g : graph) : option (list (list nat)) :=
  snd <$> foldl (visit (S (size (node_universe g))) g) (Some (∅, [])) (g.*1).

(** *** 6. Dissolving *)

(** [gdf_nw.at[idx, "Feat_L3"]] is read, then the geometry and
    [debug_status] of that row are set; a label that [gdf_nw] does not have
    raises at the read. *)
Definition at_update (gdf_nw : list Row) (idx : nat) (g : G) (status : string)
  : option (list Row) :=
  row ← gdf_nw !! idx;
  Some (<[idx := set_attr "debug_status" (VStr status) (set_geometry row g)]> gdf_nw).

(** The geometry of an NW rocky reef followed by the AIMS geometries
    grouped under it. *)
Definition member_geoms (rock : list Row) (groups : gmap nat (list G)) (nw_idx : nat)
  : option (list G) :=
  nw_row ← rock !! nw_idx;
  Some (geom nw_row :: default [] (groups !! nw_idx)).

(** Body of [for nw_idx in isolated_nw_indices]. *)
Definition dissolve_isolated (rock : list Row) (idx_mapping : list nat)
    (groups : gmap nat (list G)) (acc : option (list Row)) (nw_idx : nat)
  : option (list Row) :=
  gdf_nw ← acc;
  original_idx ← idx_mapping !! nw_idx;
  nw_row ← rock !! nw_idx;
  aims_geoms ← groups !! nw_idx;
  at_update gdf_nw original_idx (unary_union (geom nw_row :: aims_geoms)) "modified_isolated".

(** Body of [for other_nw_idx in component[1:]]; the state is
    [(all_geoms, nw_features_to_remove)]. *)
Definition absorb (rock : list Row) (idx_mapping : list nat) (groups : gmap nat (list G))
    (acc : option (list G * gset nat)) (other_nw_idx : nat) : option (list G * gset nat) :=
  st ← acc;
  gs ← member_geoms rock groups other_nw_idx;
  other_original_idx ← idx_mapping !! other_nw_idx;
  Some (st.1 ++ gs, {[other_original_idx]} ∪ st.2).

(** Body of [for component in connected_components]; the state is
    [(gdf_nw, nw_features_to_remove)]. *)
Definition dissolve_component (rock : list Row) (idx_mapping : list nat)
    (groups : gmap nat (list G)) (acc : option (list Row * gset nat))
    (component : list nat) : option (list Row * gset nat) :=
  st ← acc;
  match component with
  | [] => Some st
  | primary_nw_idx :: others =>
      primary_original_idx ← idx_mapping !! primary_nw_idx;
      primary_geoms ← member_geoms rock groups primary_nw_idx;
      gr ← foldl (absorb rock idx_mapping groups) (Some (primary_geoms, st.2)) others;
      gdf_nw ← at_update st.1 primary_original_idx (unary_union gr.1)
                 ("primary_with_" +:+ pretty (length component - 1)%nat +:+ "_others");
      Some (gdf_nw, gr.2)
  end.

(** The keys of [nw_groups] that are in no component. *)
Definition isolated_nw_indices (groups : gmap nat (list G)) (components : list (list nat))
  : gset nat :=
  dom groups ∖ list_to_set (mjoin components).

(** *** 7. The result and its validation *)

Record Merged := mkMerged {
  tagged : tagging;
  connected_components : list (list nat);
  nw_features_to_remove : gset nat;
  (** what is left of [gdf_nw], with the labels of its rows *)
  nw_kept : list (nat * Row);
  aims_new : list Row;
  nw_ids_original : gset value;
  output_ids : gset value;
  missing_nw_ids : gset value;
  missing_features : list Row;
}.

(** [pd.concat([gdf_nw, aims_new], ignore_index=True)] *)
Definition gdf_result (m : Merged) : list Row := (nw_kept m).*2 ++ aims_new m.

(** The row reported for a missing identifier: the first row of the
    original frame that carries it (a null identifier matches no row). *)
Definition report_row (gdf_nw_original : list Row) (nw_id : value) : option Row :=
  head (filter (fun f => debug_id f = nw_id /\ nw_id ≠ VNull) gdf_nw_original).

Definition merge_rocky_reefs (gdf_nw_in gdf_aims_in : Layer Shape) : option Merged :=
  let gdf_nw := rows (tracked gdf_nw_in) in
  let ids_original : gset value := list_to_set (debug_id <$> gdf_nw) in
  let gdf_aims := rows (prepare_aims (columns (tracked gdf_nw_in)) gdf_aims_in) in
  let rock := gdf_nw_rock gdf_nw in
  let idx_mapping := original_indices gdf_nw in
  tg ← tag_all rock gdf_aims;
  let new := aims_new_of (touch_idxs tg) gdf_aims in
  components ← find_connected_components (nw_connections tg);
  gdf_nw1 ← foldl (dissolve_isolated rock idx_mapping (nw_groups tg)) (Some gdf_nw)
             (set_order (isolated_nw_indices (nw_groups tg) components));
  dr ← foldl (dissolve_component rock idx_mapping (nw_groups tg)) (Some (gdf_nw1, ∅))
         components;
  let kept :=
    if bool_decide (nw_groups tg ≠ ∅) && bool_decide (dr.2 ≠ ∅)
    then filter (fun jf => jf.1 ∉ dr.2) (labelled dr.1)
    else labelled dr.1 in
  let out_ids : gset value := list_to_set (debug_id <$> (kept.*2 ++ new)) in
  let missing := ids_original ∖ out_ids in
  Some (mkMerged tg components dr.2 kept new ids_original out_ids missing
                 (omap (report_row gdf_nw) (elements missing))).

End Stage.

(** *** The traversal *)

Section Traversal.
Variable set_order : gset nat -> list nat.

(** The state [st] is [(v, c)] with the nodes [new] added: all of them
    unseen before, none twice. *)
Definition extends (v : gset nat) (c : list nat) (st : gset nat * list nat)
    (new : list nat) : Prop :=
  st.2 = c ++ new /\ st.1 = list_to_set new ∪ v /\ NoDup new
  /\ forall x, x ∈ new -> x ∉ v.

Lemma extends_step v c st new st' new' :
  extends v c st new -> extends st.1 st.2 st' new' -> extends v c st' (new ++ new').
Proof.
  intros (Hc & Hv & Hnd & Hfresh) (Hc' & Hv' & Hnd' & Hfresh').
  repeat split.
  - by rewrite Hc', Hc, app_assoc.
  - rewrite Hv', Hv, list_to_set_app_L. set_solver.
  - apply NoDup_app. repeat split; [done| |done].
    intros x Hx Hx'. apply (Hfresh' x Hx'). rewrite Hv. set_solver.
  - intros x [Hx|Hx]%elem_of_app; [by apply Hfresh|].
    intros Hxv. apply (Hfresh' x Hx). rewrite Hv. set_solver.
Qed.

Lemma dfs_spec fuel g node v c st :
  dfs set_order fuel g node (v, c) = Some st -> node ∉ v ->
  exists new, extends v c st (node :: new).
Proof.
  revert node v c st. induction fuel as [|fuel IH]; intros node v c st Hdfs Hnode; [done|].
  simpl in Hdfs. revert Hdfs.
  apply (foldl_option_inv _ (fun st' => exists new, extends v c st' (node :: new))).
  - done.
  - exists []. repeat split; simpl.
    + set_solver.
    + apply NoDup_singleton.
    + by intros x ->%list_elem_of_singleton.
  - intros b [v0 c0] a1 _ [new Hext] Hf. simpl in Hf.
    destruct (decide (b ∈ v0)); [injection Hf as <-; by exists new|].
    apply IH in Hf as [new' Hext']; [|done].
    exists (new ++ b :: new'). by apply (extends_step v c (v0, c0) (node :: new) a1).
Qed.

(** A component of the keys [keys]: it starts with a key, and none of its
    members comes before that key in [keys]. *)
Definition starts_component (keys : list nat) (component : list nat) : Prop :=
  exists pre p post rest,
    keys = pre ++ p :: post /\ component = p :: rest /\ forall q, q ∈ component -> q ∉ pre.

Lemma find_connected_components_spec g components :
  find_connected_components set_order g = Some components ->
  NoDup (mjoin components) /\ Forall (starts_component (g.*1)) components.
Proof.
  unfold find_connected_components.
  destruct (foldl _ _ _) as [[visited comps]|] eqn:Hfold; [|done].
  simpl. intros [= <-].
  revert Hfold.
  apply (foldl_option_ind _
    (fun pre st => list_to_set pre ⊆ st.1 /\ st.1 = list_to_set (mjoin st.2)
                   /\ NoDup (mjoin st.2)
                   /\ Forall (starts_component (g.*1)) st.2)
    (g.*1) (∅, []) (visited, comps)
    (fun _ : nat => eq_refl)).
  - simpl. repeat split; [set_solver | apply NoDup_nil_2 | done].
  - intros pre b post [v0 cs0] a1 Hkeys (Hpre & Hv & Hnd & Hall) Hf.
    cbn -[dfs] in *.
    destruct (decide (b ∈ v0)) as [Hb|Hb].
    { injection Hf as <-. simpl. repeat split; try done.
      rewrite list_to_set_app_L. set_solver. }
    destruct (dfs set_order _ g b (v0, [])) as [[v1 c1]|] eqn:Hdfs; [|done].
    cbn in Hf. injection Hf as <-. cbn.
    apply dfs_spec in Hdfs as (new & Hc & Hv1 & Hnd1 & Hfresh); [|done].
    simpl in Hc, Hv1. subst c1.
    rewrite join_app. simpl. rewrite app_nil_r. repeat split.
    + rewrite list_to_set_app_L, Hv1. set_solver.
    + rewrite Hv1, Hv, list_to_set_app_L. set_solver.
    + apply NoDup_app. repeat split; [done| |done].
      intros x Hx Hx'. apply (Hfresh x Hx'). rewrite Hv. set_solver.
    + apply Forall_app. split; [done|]. apply Forall_singleton.
      exists pre, b, post, new. repeat split; [done|].
      intros q Hq Hqpre. apply (Hfresh q Hq). set_solver.
Qed.

End Traversal.

(** *** The fuel is enough *)

Section Fuel.
Variable set_order : gset nat -> list nat.

Lemma dict_get_elem (g : graph) k s : dict_get g k = Some s -> (k, s) ∈ g.
Proof.
  induction g as [|[k' s'] g IH]; [done|]. simpl.
  destruct (decide (k' = k)) as [->|].
  - intros [= ->]. by left.
  - intros Hg. right. by apply IH.
Qed.

Lemma neighbours_universe (g : graph) node x :
  x ∈ neighbours set_order g node -> x ∈ node_universe set_order g.
Proof.
  unfold neighbours, node_universe.
  destruct (dict_get g node) as [s|] eqn:Hs; [|by intros ?%elem_of_nil].
  intros Hx. apply elem_of_union. right.
  apply elem_of_list_to_set, list_elem_of_bind.
  exists (node, s). split; [done | by apply dict_get_elem].
Qed.

Lemma dfs_total fuel (g : graph) node v c :
  node ∈ node_universe set_order g -> node ∉ v ->
  (size (node_universe set_order g ∖ v) <= fuel)%nat ->
  is_Some (dfs set_order fuel g node (v, c)).
Proof.
  set (U := node_universe set_order g).
  revert node v c. induction fuel as [|fuel IH]; intros node v c HU Hv Hsize.
  { exfalso. assert (U ∖ v ≡ ∅) as Hempty by (apply size_empty_inv; lia).
    set_solver. }
  destruct (foldl_option_total
    (fun acc neighbor =>
       st' ← acc;
       if decide (neighbor ∈ st'.1) then Some st'
       else dfs set_order fuel g neighbor st')
    (fun st' => {[node]} ∪ v ⊆ st'.1)
    (neighbours set_order g node)
    ({[node]} ∪ v, c ++ [node])) as (r & Hr & _); [done| |by exists r].
  intros b [v0 c0] Hb Hsub. simpl in *.
  destruct (decide (b ∈ v0)) as [Hin|Hin]; [by exists (v0, c0)|].
  destruct (IH b v0 c0) as [a1 Ha1]; [by eapply neighbours_universe|done| |].
  - pose proof (size_without_node U v node HU Hv) as Heq.
    assert (size (U ∖ v0) <= size (U ∖ ({[node]} ∪ v)))%nat
      by (apply subseteq_size; set_solver).
    lia.
  - exists a1. split; [done|].
    apply dfs_spec in Ha1 as (new & _ & -> & _); [|done]. set_solver.
Qed.

(** The traversal never runs out of fuel. *)
Lemma find_connected_components_total (g : graph) :
  is_Some (find_connected_components set_order g).
Proof.
  unfold find_connected_components.
  destruct (foldl_option_total
    (visit set_order (S (size (node_universe set_order g))) g)
    (fun _ => True) (g.*1) (∅, [])) as (r & Hr & _); [done| |by rewrite Hr].
  intros b [v0 cs0] Hb _. cbn -[dfs].
  destruct (decide (b ∈ v0)); [by eexists|].
  destruct (dfs_total (S (size (node_universe set_order g))) g b v0 [])
    as [vc Hvc]; [| done | |].
  - unfold node_universe. set_solver.
  - assert (size (node_universe set_order g ∖ v0) <= size (node_universe set_order g))%nat
      by (apply subseteq_size; set_solver).
    lia.
  - rewrite Hvc. by eexists.
Qed.

End Fuel.

(** *** Labels, the rocky-reef rows, and the updates of [gdf_nw] *)

Section Frames.
Context {Shape : Type} `{E : OverlayEngine Shape}.

Local Abbreviation G := (geometry Shape).
Local Abbreviation Row := (Feature (geometry Shape)).

Lemma labelled_lookup (gdf : list Row) i :
  labelled gdf !! i = (fun f => (i, f)) <$> gdf !! i.
Proof. unfold labelled. by rewrite list_lookup_imap. Qed.

Lemma elem_of_labelled (gdf : list Row) j f :
  (j, f) ∈ labelled gdf <-> gdf !! j = Some f.
Proof.
  unfold labelled. rewrite elem_of_lookup_imap. split.
  - by intros (i & x & [= -> ->] & Hl).
  - intros Hl. by exists j, f.
Qed.

Lemma labelled_labels (gdf : list Row) : (labelled gdf).*1 = seq 0 (length gdf).
Proof.
  unfold labelled. rewrite fmap_imap.
  rewrite (imap_ext _ (fun i _ => i)) by done.
  apply list_eq. intros i. rewrite list_lookup_imap.
  destruct (gdf !! i) as [f|] eqn:Hf; simpl.
  - symmetry. apply lookup_seq. split; [done|]. by eapply lookup_lt_Some.
  - symmetry. apply lookup_seq_ge. by apply lookup_ge_None.
Qed.

Lemma original_indices_NoDup (gdf : list Row) : NoDup (original_indices gdf).
Proof.
  unfold original_indices, rock_rows.
  apply (sublist_NoDup _ ((labelled gdf).*1)).
  - rewrite labelled_labels. apply NoDup_seq.
  - apply fmap_sublist, sublist_filter.
Qed.

(** Position [k] of [gdf_nw_rock] holds the row of [gdf_nw] labelled
    [idx_mapping[k]]. *)
Lemma idx_mapping_row (gdf : list Row) k i :
  original_indices gdf !! k = Some i ->
  exists f, gdf !! i = Some f /\ gdf_nw_rock gdf !! k = Some f /\ is_rock f.
Proof.
  unfold original_indices, gdf_nw_rock. rewrite !list_lookup_fmap.
  destruct (rock_rows gdf !! k) as [[j f]|] eqn:Hk; [|done].
  simpl. intros [= ->]. exists f.
  apply list_elem_of_lookup_2, list_elem_of_filter in Hk as [Hrock Hin].
  by apply elem_of_labelled in Hin.
Qed.

Lemma idx_mapping_length (gdf : list Row) :
  length (original_indices gdf) = length (gdf_nw_rock gdf).
Proof. unfold original_indices, gdf_nw_rock. by rewrite !length_fmap. Qed.

(** [r'] carries every column of [r] but [debug_status]. *)
Definition carried (r r' : Row) : Prop :=
  forall col, col ≠ "debug_status" -> attrs r' !! col = attrs r !! col.

(** [gdf'] has the rows of [gdf], position by position, up to geometry
    and [debug_status]. *)
Definition frame (gdf gdf' : list Row) : Prop :=
  forall k, match gdf' !! k with
            | Some r' => exists r, gdf !! k = Some r /\ carried r r'
            | None => gdf !! k = None
            end.

Lemma frame_refl gdf : frame gdf gdf.
Proof. intros k. destruct (gdf !! k) as [r|]; [|done]. by exists r. Qed.

Lemma frame_trans gdf gdf' gdf'' : frame gdf gdf' -> frame gdf' gdf'' -> frame gdf gdf''.
Proof.
  intros H1 H2 k. specialize (H1 k). specialize (H2 k).
  destruct (gdf'' !! k) as [r''|].
  - destruct H2 as (r' & Hr' & Hc'). rewrite Hr' in H1.
    destruct H1 as (r & Hr & Hc). exists r. split; [done|].
    intros col Hcol. by rewrite Hc', Hc.
  - by rewrite H2 in H1.
Qed.

Lemma at_update_spec (gdf gdf' : list Row) idx g status :
  at_update gdf idx g status = Some gdf' ->
  (forall k, k ≠ idx -> gdf' !! k = gdf !! k)
  /\ exists row, gdf !! idx = Some row
       /\ gdf' !! idx = Some (set_attr "debug_status" (VStr status) (set_geometry row g)).
Proof.
  unfold at_update. destruct (gdf !! idx) as [row|] eqn:Hrow; [|done].
  simpl. intros [= <-]. split.
  - intros k Hk. by rewrite list_lookup_insert_ne.
  - exists row. split; [done|]. apply list_lookup_insert_eq. by eapply lookup_lt_Some.
Qed.

Lemma at_update_frame (gdf gdf' : list Row) idx g status :
  at_update gdf idx g status = Some gdf' -> frame gdf gdf'.
Proof.
  intros (Hne & row & Hrow & Hrow')%at_update_spec k.
  destruct (decide (k = idx)) as [->|Hk].
  - rewrite Hrow'. exists row. split; [done|].
    intros col Hcol. simpl. by rewrite lookup_insert_ne.
  - rewrite (Hne k Hk). destruct (gdf !! k) as [r|]; [|done]. by exists r.
Qed.

Lemma dissolve_isolated_frame rock idx_mapping groups (gdf gdf' : list Row) l :
  foldl (dissolve_isolated rock idx_mapping groups) (Some gdf) l = Some gdf' ->
  frame gdf gdf'.
Proof.
  apply (foldl_option_inv _ (frame gdf)); [done|apply frame_refl|].
  intros nw_idx g0 g1 _ Hfr. unfold dissolve_isolated. simpl.
  destruct (idx_mapping !! nw_idx); [|done]. simpl.
  destruct (rock !! nw_idx); [|done]. simpl.
  destruct (groups !! nw_idx); [|done]. simpl.
  intros Hup%at_update_frame. by eapply frame_trans.
Qed.

End Frames.

(** *** The dissolve loop *)

Section Dissolve.
Context {Shape : Type} `{E : OverlayEngine Shape}.

Local Abbreviation G := (geometry Shape).
Local Abbreviation Row := (Feature (geometry Shape)).

Variable rock : list Row.
Variable idx_mapping : list nat.
Variable groups : gmap nat (list G).

(** [all_geoms] of a component: member by member, the NW geometry and the
    AIMS geometries grouped under it. *)
Definition component_geoms (component : list nat) : option (list G) :=
  mjoin <$> mapM (member_geoms rock groups) component.

Definition component_status (component : list nat) : string :=
  "primary_with_" +:+ pretty (length component - 1)%nat +:+ "_others".

(** The row of the primary member holds the dissolved geometry. *)
Definition dissolved_at (gdf : list Row) (component : list nat) : Prop :=
  match component with
  | [] => True
  | p :: others =>
      exists po row' gs,
        idx_mapping !! p = Some po /\ gdf !! po = Some row'
        /\ component_geoms component = Some gs
        /\ geom row' = unary_union gs
        /\ attrs row' !! "debug_status" = Some (VStr (component_status component))
        /\ Forall (fun o => is_Some (idx_mapping !! o)) others
  end.

(** [oo] labels a member, other than the primary one, of a component. *)
Definition absorbed (components : list (list nat)) (oo : nat) : Prop :=
  exists component o,
    component ∈ components /\ o ∈ tail component /\ idx_mapping !! o = Some oo.

Lemma foldl_absorb_None others :
  foldl (absorb rock idx_mapping groups) None others = None.
Proof. by induction others. Qed.

Lemma foldl_absorb_spec others gs0 rm0 gs rm :
  foldl (absorb rock idx_mapping groups) (Some (gs0, rm0)) others = Some (gs, rm) ->
  (exists ogs, mapM (member_geoms rock groups) others = Some ogs /\ gs = gs0 ++ mjoin ogs)
  /\ Forall (fun o => is_Some (idx_mapping !! o)) others
  /\ forall oo, oo ∈ rm <-> oo ∈ rm0 \/ exists o, o ∈ others /\ idx_mapping !! o = Some oo.
Proof.
  revert gs0 rm0. induction others as [|o others IH]; intros gs0 rm0 Hfold.
  - simpl in Hfold. injection Hfold as <- <-. split_and!.
    + exists []. by rewrite app_nil_r.
    + done.
    + intros oo. split; [by left|].
      intros [Hoo|(o & Ho & _)]; [done|]. by apply elem_of_nil in Ho.
  - simpl in Hfold.
    destruct (member_geoms rock groups o) as [og|] eqn:Hog;
      [|by rewrite foldl_absorb_None in Hfold].
    destruct (idx_mapping !! o) as [oo'|] eqn:Hoo';
      [|by rewrite foldl_absorb_None in Hfold].
    simpl in Hfold. apply IH in Hfold as ((ogs & Hogs & ->) & Hall & Hrm).
    split_and!.
    + exists (og :: ogs). simpl. rewrite Hog. simpl. rewrite Hogs. simpl.
      by rewrite <- app_assoc.
    + apply Forall_cons. split; [by rewrite Hoo'|done].
    + intros oo. split.
      * intros [[->%elem_of_singleton|Hin]%elem_of_union|(o' & Ho' & Hl)]%Hrm.
        -- right. exists o. split; [by left|done].
        -- by left.
        -- right. exists o'. split; [by right|done].
      * intros [Hin|(o' & [->|Ho']%elem_of_cons & Hl)]; apply Hrm.
        -- left. set_solver.
        -- left. rewrite Hoo' in Hl. injection Hl as ->. set_solver.
        -- right. by exists o'.
Qed.

Lemma head_not_later (components : list (list nat)) pre b post p rest q qrest :
  components = pre ++ b :: post -> NoDup (mjoin components) ->
  b = p :: rest -> (q :: qrest) ∈ pre -> p ≠ q.
Proof.
  intros -> Hnd -> Hq ->. rewrite join_app in Hnd. simpl in Hnd.
  apply NoDup_app in Hnd as (_ & Hdisj & _).
  apply (Hdisj q); [|by left].
  apply list_elem_of_join. exists (q :: qrest). split; [by left|done].
Qed.

Lemma dissolve_components_spec (components : list (list nat)) (gdf1 gdf2 : list Row) rm :
  NoDup (mjoin components) -> NoDup idx_mapping ->
  foldl (dissolve_component rock idx_mapping groups) (Some (gdf1, ∅)) components
  = Some (gdf2, rm) ->
  frame gdf1 gdf2
  /\ (forall oo, oo ∈ rm <-> absorbed components oo)
  /\ Forall (dissolved_at gdf2) components.
Proof.
  intros Hnd Hinj.
  apply (foldl_option_ind _
    (fun pre st => frame gdf1 st.1
                   /\ (forall oo, oo ∈ st.2 <-> absorbed pre oo)
                   /\ Forall (dissolved_at st.1) pre)
    components (gdf1, ∅) (gdf2, rm)
    (fun _ : list nat => eq_refl)).
  - simpl. split_and!; [apply frame_refl| |done].
    intros oo. split.
    + by intros ?%elem_of_empty.
    + intros (c & o & Hc & _). by apply elem_of_nil in Hc.
  - intros pre b post [g0 rm0] [g1 rm1] Hcomps (Hfr & Hrm & Hall). simpl in *.
    destruct b as [|p others].
    { intros [= <- <-]. split_and!; [done| |].
      - intros oo. split.
        + intros (c & o & Hc & Ho & Hl)%Hrm. exists c, o.
          split; [|done]. apply elem_of_app. by left.
        + intros (c & o & [Hc|Hc]%elem_of_app & Ho & Hl).
          * apply Hrm. by exists c, o.
          * apply list_elem_of_singleton in Hc as ->. by apply elem_of_nil in Ho.
      - apply Forall_app. split; [done|]. by apply Forall_singleton. }
    unfold dissolve_component. cbn [mbind option_bind fst snd].
    destruct (idx_mapping !! p) as [po|] eqn:Hpo; [|done]. cbn [mbind option_bind].
    destruct (member_geoms rock groups p) as [pg|] eqn:Hpg; [|done].
    cbn [mbind option_bind].
    destruct (foldl _ (Some (pg, rm0)) others) as [[gs rm']|] eqn:Habsorb; [|done].
    cbn [mbind option_bind fst snd].
    destruct (at_update g0 po _ _) as [g'|] eqn:Hup; [|done].
    cbn [mbind option_bind]. intros [= <- <-].
    apply foldl_absorb_spec in Habsorb as ((ogs & Hogs & ->) & Hsome & Hrm').
    pose proof (at_update_frame _ _ _ _ _ Hup) as Hfr'.
    apply at_update_spec in Hup as (Hne & row & Hrow & Hrow').
    split_and!.
    + by eapply frame_trans.
    + intros oo. split.
      * intros [Hin|(o & Ho & Hl)]%Hrm'.
        -- apply Hrm in Hin as (c & o & Hc & Ho & Hl). exists c, o.
           split; [|done]. apply elem_of_app. by left.
        -- exists (p :: others), o. split; [|done]. apply elem_of_app. right. by left.
      * intros (c & o & [Hc|Hc]%elem_of_app & Ho & Hl); apply Hrm'.
        -- left. apply Hrm. by exists c, o.
        -- apply list_elem_of_singleton in Hc as ->. right. by exists o.
    + apply Forall_app. split.
      * apply Forall_forall. intros c Hc.
        rewrite Forall_forall in Hall. specialize (Hall c Hc).
        destruct c as [|q qrest]; [done|].
        destruct Hall as (qo & qrow & qgs & Hqo & Hqrow & Hrest).
        exists qo, qrow, qgs. split; [done|]. split; [|done].
        rewrite Hne; [done|]. intros ->.
        apply (head_not_later _ _ _ _ p others q qrest Hcomps Hnd eq_refl Hc).
        by apply (NoDup_lookup idx_mapping p q po).
      * apply Forall_singleton. eexists po, _, (pg ++ mjoin ogs).
        split; [done|]. split; [exact Hrow'|].
        split_and!; try done.
        -- unfold component_geoms. simpl. rewrite Hpg. simpl. by rewrite Hogs.
        -- simpl. by rewrite lookup_insert_eq.
Qed.

End Dissolve.

(** *** Which member of a component survives *)

Section Survivor.
Context {Shape : Type} `{E : OverlayEngine Shape}.

Local Abbreviation G := (geometry Shape).
Local Abbreviation Row := (Feature (geometry Shape)).

Variable sindex_intersection : list Row -> G -> list nat.
Variable set_order : gset nat -> list nat.

Lemma tag_all_groups (rock gdf_aims : list Row) tg :
  tag_all sindex_intersection rock gdf_aims = Some tg ->
  nw_connections tg ≠ [] -> nw_groups tg ≠ ∅.
Proof.
  unfold tag_all.
  apply (foldl_option_inv _ (fun tg => nw_connections tg ≠ [] -> nw_groups tg ≠ ∅));
    [done|done|].
  intros [i r] tg0 tg1 _ Htg0. unfold tag_row. simpl.
  destruct (foldl _ _ _) as [[tg' touched]|] eqn:Hfold; [|done].
  simpl. intros [= <-]. revert Hfold.
  apply (foldl_option_inv _
    (fun st : tagging * list nat => nw_connections st.1 ≠ [] -> nw_groups st.1 ≠ ∅));
    [done|done|].
  intros nw_idx [tga ta] [tgb tb] _ Ha. unfold tag_candidate. simpl.
  destruct (rock !! nw_idx) as [nw_row|]; [|done]. simpl.
  destruct (_ || _).
  - intros [= <- <-]. simpl. intros _. apply insert_non_empty.
  - by intros [= <- <-].
Qed.

Lemma find_connected_components_nil components :
  find_connected_components set_order [] = Some components -> components = [].
Proof. by intros [= <-]. Qed.

Lemma absorbed_not_primary (idx_mapping : list nat) (components : list (list nat))
    component p others po :
  NoDup (mjoin components) -> NoDup idx_mapping ->
  component ∈ components -> component = p :: others ->
  idx_mapping !! p = Some po ->
  ~ absorbed idx_mapping components po.
Proof.
  intros Hnd Hinj Hc -> Hpo (c' & o & Hc' & Ho & Hoo).
  assert (o = p) as -> by by apply (NoDup_lookup idx_mapping o p po).
  apply list_elem_of_split in Hc as (c1 & c2 & ->).
  rewrite join_app in Hnd. simpl in Hnd.
  apply NoDup_app in Hnd as (_ & Hdisj1 & Hnd).
  apply NoDup_cons in Hnd as [Hnotin _].
  apply elem_of_app in Hc' as [Hc'|[->|Hc']%elem_of_cons].
  - apply (Hdisj1 p); [|by left].
    apply list_elem_of_join. exists c'. split; [|done].
    destruct c'; [by apply elem_of_nil in Ho | by right].
  - apply Hnotin. apply elem_of_app. by left.
  - apply Hnotin. apply elem_of_app. right.
    apply list_elem_of_join. exists c'. split; [|done].
    destruct c'; [by apply elem_of_nil in Ho | by right].
Qed.

(** What a successful run leaves behind: the components, the frame
    [gdf2] that [gdf_nw] has become before the drop, and how the fields of
    the result are made from them. *)
Lemma merge_rocky_reefs_inv (gdf_nw_in gdf_aims_in : Layer Shape) (m : Merged) :
  merge_rocky_reefs sindex_intersection set_order gdf_nw_in gdf_aims_in = Some m ->
  exists gdf2 : list Row,
    NoDup (mjoin (connected_components m))
    /\ Forall (starts_component ((nw_connections (tagged m)).*1)) (connected_components m)
    /\ (connected_components m ≠ [] -> nw_groups (tagged m) ≠ ∅)
    /\ frame (rows (tracked gdf_nw_in)) gdf2
    /\ (forall oo, oo ∈ nw_features_to_remove m
          <-> absorbed (original_indices (rows (tracked gdf_nw_in)))
                       (connected_components m) oo)
    /\ Forall (dissolved_at (gdf_nw_rock (rows (tracked gdf_nw_in)))
                            (original_indices (rows (tracked gdf_nw_in)))
                            (nw_groups (tagged m)) gdf2)
              (connected_components m)
    /\ nw_kept m
       = (if bool_decide (nw_groups (tagged m) ≠ ∅)
             && bool_decide (nw_features_to_remove m ≠ ∅)
          then filter (fun jf : nat * Row => jf.1 ∉ nw_features_to_remove m) (labelled gdf2)
          else labelled gdf2)
    /\ aims_new m
       = aims_new_of (touch_idxs (tagged m))
           (rows (prepare_aims (columns (tracked gdf_nw_in)) gdf_aims_in))
    /\ nw_ids_original m = list_to_set (debug_id <$> rows (tracked gdf_nw_in))
    /\ output_ids m = list_to_set (debug_id <$> gdf_result m)
    /\ missing_nw_ids m = nw_ids_original m ∖ output_ids m
    /\ missing_features m
       = omap (report_row (rows (tracked gdf_nw_in))) (elements (missing_nw_ids m)).
Proof.
  unfold merge_rocky_reefs.
  set (gdf_nw := rows (tracked gdf_nw_in)).
  set (gdf_aims := rows (prepare_aims _ gdf_aims_in)).
  destruct (tag_all _ _ gdf_aims) as [tg|] eqn:Htag; [|done].
  cbn [mbind option_bind].
  destruct (find_connected_components set_order (nw_connections tg))
    as [components|] eqn:Hcc; [|done].
  cbn [mbind option_bind].
  destruct (foldl (dissolve_isolated _ _ _) _ _) as [gdf1|] eqn:Hiso; [|done].
  cbn [mbind option_bind].
  destruct (foldl (dissolve_component _ _ _) _ _) as [[gdf2 rm]|] eqn:Hdis; [|done].
  cbn [mbind option_bind fst snd].
  intros [= <-]. unfold gdf_result.
  cbn [connected_components tagged nw_kept nw_features_to_remove aims_new
       nw_ids_original output_ids missing_nw_ids missing_features].
  pose proof (find_connected_components_spec _ _ _ Hcc) as [Hnd Hstarts].
  pose proof (original_indices_NoDup gdf_nw) as Hinj.
  apply dissolve_isolated_frame in Hiso.
  apply dissolve_components_spec in Hdis as (Hfr & Hrm & Hdiss); [|done|done].
  exists gdf2. split_and!; try done.
  - intros Hne. destruct (nw_connections tg) as [|kv g] eqn:Hg.
    + by apply find_connected_components_nil in Hcc.
    + eapply tag_all_groups; [done|]. by rewrite Hg.
  - by eapply frame_trans.
Qed.

(** C2 (as amended). For every connected component the output keeps one
    NW row: that of the component's first member [p] in traversal order,
    which is the first key of [nw_connections], in insertion order, that
    the component contains (not necessarily the member that comes first in
    the NW frame).  That row carries the dissolved geometry and every
    column of the original row of [p] but [debug_status], so its
    identifier too; the rows of all other members of the component are
    marked for removal and are not in the output. *)
Theorem component_survivor (gdf_nw_in gdf_aims_in : Layer Shape) (m : Merged)
    (component : list nat) :
  merge_rocky_reefs sindex_intersection set_order gdf_nw_in gdf_aims_in = Some m ->
  component ∈ connected_components m ->
  exists p others po row0 row',
    component = p :: others
    /\ (exists pre post, (nw_connections (tagged m)).*1 = pre ++ p :: post
          /\ forall q, q ∈ component -> q ∉ pre)
    /\ original_indices (rows (tracked gdf_nw_in)) !! p = Some po
    /\ rows (tracked gdf_nw_in) !! po = Some row0
    /\ gdf_nw_rock (rows (tracked gdf_nw_in)) !! p = Some row0
    /\ (po, row') ∈ nw_kept m
    /\ row' ∈ gdf_result m
    /\ carried row0 row'
    /\ (exists gs,
          component_geoms (gdf_nw_rock (rows (tracked gdf_nw_in)))
                          (nw_groups (tagged m)) component = Some gs
          /\ geom row' = unary_union gs)
    /\ forall o, o ∈ others ->
         exists oo, original_indices (rows (tracked gdf_nw_in)) !! o = Some oo
           /\ oo ∈ nw_features_to_remove m
           /\ oo ∉ (nw_kept m).*1.
Proof.
  intros (gdf2 & Hnd & Hstarts & Hgroups & Hfr & Hrm & Hdiss & Hkept_eq & _)%merge_rocky_reefs_inv
         Hcomp.
  set (gdf_nw := rows (tracked gdf_nw_in)) in *.
  pose proof (original_indices_NoDup gdf_nw) as Hinj.
  rewrite Forall_forall in Hstarts, Hdiss.
  destruct (Hstarts _ Hcomp) as (pre & p & post & others & Hkeys & -> & Hfirst).
  destruct (Hdiss _ Hcomp) as (po & row' & gs & Hpo & Hrow' & Hgs & Hgeom & _ & Hothers).
  destruct (idx_mapping_row _ _ _ Hpo) as (row0 & Hrow0 & Hrock0 & _).
  pose proof (Hfr po) as Hfr0. rewrite Hrow' in Hfr0.
  destruct Hfr0 as (r & Hr & Hcarried).
  assert (r = row0) as -> by congruence.
  assert (po ∉ nw_features_to_remove m) as Hpo_kept.
  { rewrite Hrm. by eapply absorbed_not_primary. }
  assert (forall o, o ∈ others -> exists oo,
            original_indices gdf_nw !! o = Some oo /\ oo ∈ nw_features_to_remove m) as Hrem.
  { intros o Ho. rewrite Forall_forall in Hothers.
    destruct (Hothers o Ho) as [oo Hoo]. exists oo. split; [done|].
    apply Hrm. by exists (p :: others), o. }
  assert (nw_groups (tagged m) ≠ ∅) as Hne.
  { apply Hgroups. intros Hnil. rewrite Hnil in Hcomp. by apply elem_of_nil in Hcomp. }
  assert ((po, row') ∈ nw_kept m) as Hkept.
  { rewrite Hkept_eq. destruct (_ && _).
    - apply list_elem_of_filter. split; [done|]. by apply elem_of_labelled.
    - by apply elem_of_labelled. }
  exists p, others, po, row0, row'. split_and!; try done.
  - by exists pre, post.
  - unfold gdf_result. apply elem_of_app. left.
    apply list_elem_of_fmap. by exists (po, row').
  - by exists gs.
  - intros o Ho. destruct (Hrem o Ho) as (oo & Hoo & Hin). exists oo.
    split_and!; [done|done|].
    rewrite Hkept_eq, (bool_decide_eq_true_2 _ Hne).
    rewrite bool_decide_eq_true_2 by (intros Hempty; by rewrite Hempty in Hin).
    cbn [andb]. intros ([j f] & Hj & [Hnot _]%list_elem_of_filter)%list_elem_of_fmap.
    cbn [fst] in Hj, Hnot. by subst j.
Qed.

End Survivor.

(** *** Identifiers in the output and in the report *)

Section Identifiers.
Context {Shape : Type} `{E : OverlayEngine Shape}.

Local Abbreviation G := (geometry Shape).
Local Abbreviation Row := (Feature (geometry Shape)).

Variable sindex_intersection : list Row -> G -> list nat.
Variable set_order : gset nat -> list nat.

Lemma labelled_rows (gdf : list Row) : (labelled gdf).*2 = gdf.
Proof.
  apply list_eq. intros i. rewrite list_lookup_fmap, labelled_lookup.
  by destruct (gdf !! i).
Qed.

Lemma carried_debug_id (r r' : Row) : carried r r' -> debug_id r' = debug_id r.
Proof. intros Hc. unfold debug_id, cell. by rewrite Hc. Qed.

Lemma frame_ids (gdf gdf' : list Row) :
  frame gdf gdf' -> debug_id <$> gdf' = debug_id <$> gdf.
Proof.
  intros Hfr. apply list_eq. intros k. rewrite !list_lookup_fmap.
  specialize (Hfr k). destruct (gdf' !! k) as [r'|].
  - destruct Hfr as (r & -> & Hc). simpl. by rewrite (carried_debug_id r r').
  - by rewrite Hfr.
Qed.

(** With distinct identifiers, the rows carrying one identifier are one or
    none. *)
Lemma count_by_id (l : list Row) (id : value) :
  NoDup (debug_id <$> l) ->
  length (filter (fun f => debug_id f = id) l)
  = if decide (id ∈ debug_id <$> l) then 1%nat else 0%nat.
Proof.
  induction l as [|f l IH]; intros Hnd.
  - destruct (decide _) as [Hin|]; [|done]. by apply elem_of_nil in Hin.
  - rewrite fmap_cons in Hnd. apply NoDup_cons in Hnd as [Hf Hnd].
    rewrite filter_cons, fmap_cons. specialize (IH Hnd).
    destruct (decide (debug_id f = id)) as [<-|Hne].
    + cbn [length]. rewrite IH.
      destruct (decide (debug_id f ∈ debug_id <$> l)); [done|].
      destruct (decide (debug_id f ∈ debug_id f :: (debug_id <$> l))) as [|Hn]; [done|].
      destruct Hn. by left.
    + rewrite IH.
      destruct (decide (id ∈ debug_id <$> l)) as [Hin|Hin];
        destruct (decide (id ∈ debug_id f :: (debug_id <$> l))) as [Hin'|Hin']; try done.
      * destruct Hin'. by right.
      * apply elem_of_cons in Hin' as [?|?]; [by destruct Hne | by destruct Hin].
Qed.

Lemma report_row_id (gdf : list Row) (nw_id : value) f :
  report_row gdf nw_id = Some f -> debug_id f = nw_id /\ f ∈ gdf.
Proof.
  unfold report_row. intros Hh%head_Some_elem_of.
  apply list_elem_of_filter in Hh as [[Hid _] Hin]. by split.
Qed.

Lemma report_row_found (gdf : list Row) (nw_id : value) :
  nw_id ∈ debug_id <$> gdf -> nw_id ≠ VNull -> is_Some (report_row gdf nw_id).
Proof.
  intros (f & -> & Hf)%list_elem_of_fmap Hnull. unfold report_row.
  apply head_is_Some. intros Hnil.
  by apply (filter_nil_not_elem_of _ _ f) in Hnil.
Qed.

Lemma report_ids (gdf : list Row) (ids : list value) :
  debug_id <$> omap (report_row gdf) ids
  = filter (fun nw_id => is_Some (report_row gdf nw_id)) ids.
Proof.
  induction ids as [|nw_id ids IH]; [done|].
  rewrite filter_cons. cbn [omap list_omap].
  destruct (report_row gdf nw_id) as [f|] eqn:Hf.
  - destruct (decide (is_Some (Some f))) as [_|Hn]; [|by destruct Hn].
    rewrite fmap_cons. fold (omap (report_row gdf) ids). rewrite IH. f_equal.
    by apply report_row_id in Hf as [-> _].
  - destruct (decide (is_Some (@None Row))) as [[? ?]|_]; [done|].
    fold (omap (report_row gdf) ids). by rewrite IH.
Qed.

Lemma default_vals_no_id : Forall (fun kv : string * value => kv.1 ≠ "DebugID") default_vals.
Proof. unfold default_vals. repeat (apply Forall_cons; split; [done|]). done. Qed.

(** The identifier of a prepared AIMS row is null or the one it came with. *)
Definition aims_ids_from (gdf_aims_in : Layer Shape) (l : list Row) : Prop :=
  forall a', a' ∈ l ->
    debug_id a' = VNull \/ exists a, a ∈ rows gdf_aims_in /\ debug_id a' = debug_id a.

Lemma prepare_aims_ids (nw_columns : list string) (gdf_aims_in : Layer Shape) :
  aims_ids_from gdf_aims_in (rows (prepare_aims nw_columns gdf_aims_in)).
Proof.
  unfold prepare_aims.
  assert (forall (L : Layer Shape) col,
            aims_ids_from gdf_aims_in (rows L) ->
            aims_ids_from gdf_aims_in (rows (ensure_column L col))) as Hens.
  { intros L col HL. unfold ensure_column. case_bool_decide; [done|].
    simpl. intros a' (a0 & -> & Ha0)%list_elem_of_fmap.
    unfold debug_id, cell, set_attr. simpl.
    destruct (decide (col = "DebugID")) as [->|Hne].
    - left. by rewrite lookup_insert_eq.
    - rewrite lookup_insert_ne by done. by apply HL. }
  apply foldl_inv.
  - apply foldl_inv; [apply foldl_inv|]; [| by intros; apply Hens..].
    intros a' Ha'. right. by exists a'.
  - intros L kv Hkv HL a' (a0 & -> & Ha0)%list_elem_of_fmap.
    case_bool_decide; [|by apply HL].
    pose proof default_vals_no_id as Hno. rewrite Forall_forall in Hno.
    specialize (Hno kv Hkv).
    unfold debug_id, cell, set_attr. simpl. rewrite lookup_insert_ne by done.
    by apply HL.
Qed.

Lemma aims_new_of_ids (gdf_aims_in : Layer Shape) touch (gdf_aims : list Row) :
  aims_ids_from gdf_aims_in gdf_aims ->
  aims_ids_from gdf_aims_in (aims_new_of touch gdf_aims).
Proof.
  intros Hids a' ([j a0] & -> & [_ Hin]%list_elem_of_filter)%list_elem_of_fmap.
  apply elem_of_labelled, list_elem_of_lookup_2 in Hin.
  unfold debug_id, cell, set_attr. simpl. rewrite lookup_insert_ne by done.
  by apply Hids.
Qed.

End Identifiers.

Section Accounting.
Context {Shape : Type} `{E : OverlayEngine Shape}.

Local Abbreviation G := (geometry Shape).
Local Abbreviation Row := (Feature (geometry Shape)).

Variable sindex_intersection : list Row -> G -> list nat.
Variable set_order : gset nat -> list nat.

Lemma nw_kept_sublist (m : Merged) (gdf2 : list Row) :
  nw_kept m
  = (if bool_decide (nw_groups (tagged m) ≠ ∅)
        && bool_decide (nw_features_to_remove m ≠ ∅)
     then filter (fun jf : nat * Row => jf.1 ∉ nw_features_to_remove m) (labelled gdf2)
     else labelled gdf2) ->
  nw_kept m `sublist_of` labelled gdf2.
Proof. intros ->. destruct (_ && _); [apply sublist_filter | done]. Qed.

(** C4. Every identifier of the NW frame is in the output or in the
    report of missing identifiers, and not in both.  An identifier is in
    the output when some output row carries it; a missing (non-null)
    identifier has its row in the report.  Row by row: an NW row is either
    kept, with its identifier, or marked for removal as a member of a
    component that is not its primary one.  And when the identifiers of
    the NW frame are distinct and not null, and no AIMS row carries one of
    them, each identifier is carried by exactly one row of the output and
    the report taken together. *)
Theorem identifiers_accounted (gdf_nw_in gdf_aims_in : Layer Shape) (m : Merged) :
  merge_rocky_reefs sindex_intersection set_order gdf_nw_in gdf_aims_in = Some m ->
  (forall id, id ∈ debug_id <$> rows (tracked gdf_nw_in) ->
     (id ∈ output_ids m /\ id ∉ missing_nw_ids m)
     \/ ((id ∉ output_ids m) /\ id ∈ missing_nw_ids m))
  /\ (forall id, id ∈ output_ids m <-> exists f, f ∈ gdf_result m /\ debug_id f = id)
  /\ (forall id, id ∈ missing_nw_ids m -> (id ≠ VNull) ->
        exists f, f ∈ missing_features m /\ debug_id f = id
                  /\ f ∈ rows (tracked gdf_nw_in))
  /\ (forall k row0, rows (tracked gdf_nw_in) !! k = Some row0 ->
        (exists row', (k, row') ∈ nw_kept m /\ debug_id row' = debug_id row0)
        \/ (k ∈ nw_features_to_remove m
            /\ absorbed (original_indices (rows (tracked gdf_nw_in)))
                        (connected_components m) k))
  /\ (NoDup (debug_id <$> rows (tracked gdf_nw_in)) ->
      VNull ∉ debug_id <$> rows (tracked gdf_nw_in) ->
      (forall a, a ∈ rows gdf_aims_in ->
         debug_id a ∉ debug_id <$> rows (tracked gdf_nw_in)) ->
      forall id, id ∈ debug_id <$> rows (tracked gdf_nw_in) ->
        (length (filter (fun f => debug_id f = id) (gdf_result m))
         + length (filter (fun f => debug_id f = id) (missing_features m)) = 1)%nat).
Proof.
  intros (gdf2 & _ & _ & _ & Hfr & Hrm & _ & Hkept & Hnew & Hids & Hout & Hmiss & Hrep)
         %merge_rocky_reefs_inv.
  set (gdf_nw := rows (tracked gdf_nw_in)) in *.
  assert (forall id, id ∈ output_ids m <-> exists f, f ∈ gdf_result m /\ debug_id f = id)
    as Hout_iff.
  { intros id. rewrite Hout, elem_of_list_to_set, list_elem_of_fmap.
    split; intros (f & H1 & H2); exists f; by split. }
  assert (forall id, id ∈ missing_nw_ids m
                     <-> id ∈ debug_id <$> gdf_nw /\ id ∉ output_ids m) as Hmiss_iff.
  { intros id. rewrite Hmiss, elem_of_difference, Hids, elem_of_list_to_set. done. }
  assert (forall id, id ∈ missing_nw_ids m -> id ≠ VNull ->
            exists f, report_row gdf_nw id = Some f) as Hfound.
  { intros id [Hid _]%Hmiss_iff Hnull. by apply report_row_found. }
  split_and!.
  - intros id Hid. destruct (decide (id ∈ output_ids m)) as [Hin|Hin].
    + left. split; [done|]. rewrite Hmiss_iff. tauto.
    + right. split; [done|]. by rewrite Hmiss_iff.
  - done.
  - intros id Hid Hnull. destruct (Hfound id Hid Hnull) as [f Hf].
    exists f. pose proof (report_row_id _ _ _ Hf) as [Hfid Hfin].
    split_and!; [|done|done].
    rewrite Hrep. apply list_elem_of_omap. exists id. split; [|done].
    by apply elem_of_elements.
  - intros k row0 Hk. pose proof (Hfr k) as Hfrk.
    destruct (gdf2 !! k) as [row'|] eqn:Hrow'; [|congruence].
    destruct Hfrk as (r & Hr & Hc). assert (r = row0) as -> by congruence.
    destruct (decide (k ∈ nw_features_to_remove m)) as [Hin|Hin].
    + right. split; [done|]. by apply Hrm.
    + left. exists row'. split; [|by apply carried_debug_id].
      rewrite Hkept. destruct (_ && _).
      * apply list_elem_of_filter. split; [done|]. by apply elem_of_labelled.
      * by apply elem_of_labelled.
  - intros Hnd Hnull Haims id Hid.
    assert (debug_id <$> (nw_kept m).*2 `sublist_of` debug_id <$> gdf_nw) as Hsub.
    { rewrite <- (frame_ids _ _ Hfr), <- (labelled_rows gdf2).
      by apply fmap_sublist, fmap_sublist, nw_kept_sublist. }
    assert (filter (fun f => debug_id f = id) (aims_new m) = []) as Hnone.
    { apply filter_none. intros a' Ha' Heq.
      assert (aims_ids_from gdf_aims_in (aims_new m)) as Hfrom.
      { rewrite Hnew. apply aims_new_of_ids, prepare_aims_ids. }
      destruct (Hfrom a' Ha') as [Hn|(a & Ha & Hn)].
      - apply Hnull. by rewrite <- Hn, Heq.
      - apply (Haims a Ha). by rewrite <- Hn, Heq. }
    assert (id ∈ output_ids m <-> id ∈ debug_id <$> (nw_kept m).*2) as Hout_kept.
    { rewrite Hout_iff. unfold gdf_result. split.
      - intros (f & [Hf|Hf]%elem_of_app & Hfid).
        + apply list_elem_of_fmap. by exists f.
        + exfalso. eapply (filter_nil_not_elem_of _ _ f); [exact Hnone|done|done].
      - intros (f & -> & Hf)%list_elem_of_fmap. exists f. split; [|done].
        apply elem_of_app. by left. }
    unfold gdf_result. rewrite filter_app, length_app, Hnone, Nat.add_0_r.
    rewrite count_by_id by (by eapply sublist_NoDup).
    rewrite count_by_id.
    2:{ rewrite Hrep, report_ids. apply NoDup_filter, NoDup_elements. }
    assert (id ≠ VNull) as Hidnull by (by intros ->).
    destruct (decide (id ∈ debug_id <$> (nw_kept m).*2)) as [Hin|Hin].
    + rewrite decide_False; [done|].
      rewrite Hrep, report_ids. intros [_ Hel]%list_elem_of_filter.
      apply elem_of_elements, Hmiss_iff in Hel as [_ Hel]. by apply Hel, Hout_kept.
    + rewrite decide_True; [done|].
      assert (id ∈ missing_nw_ids m) as Hm.
      { apply Hmiss_iff. split; [done|]. by rewrite Hout_kept. }
      rewrite Hrep, report_ids. apply list_elem_of_filter. split.
      * destruct (Hfound id Hm Hidnull) as [f Hf]. by rewrite Hf.
      * by apply elem_of_elements.
Qed.

End Accounting.

(** *** The stage returns a result *)

Section Totality.
Context {Shape : Type} `{E : OverlayEngine Shape}.

Local Abbreviation G := (geometry Shape).
Local Abbreviation Row := (Feature (geometry Shape)).

Variable sindex_intersection : list Row -> G -> list nat.
Variable set_order : gset nat -> list nat.

(** The index returns positions of the frame it was built on, and a set
    is iterated over its members. *)
Hypothesis sindex_in_range :
  forall (rock : list Row) g j, j ∈ sindex_intersection rock g -> (j < length rock)%nat.
Hypothesis set_order_members : forall (s : gset nat) x, x ∈ set_order s -> x ∈ s.

(** Every key and every neighbour of the graph is below [n]. *)
Definition in_range (n : nat) (g : graph) : Prop :=
  forall k s, (k, s) ∈ g -> (k < n)%nat /\ forall x, x ∈ s -> (x < n)%nat.

Lemma setdefault_add_in_range n (g : graph) k x :
  in_range n g -> (k < n)%nat -> (x < n)%nat -> in_range n (setdefault_add g k x).
Proof.
  intros Hg Hk Hx. induction g as [|[k' s'] g IH]; simpl.
  - intros k0 s0 Hin. apply list_elem_of_singleton in Hin. injection Hin as -> ->.
    split; [done|]. by intros y ->%elem_of_singleton.
  - assert (in_range n g) as Hg' by (intros k0 s0 Hin; apply Hg; by right).
    destruct (Hg k' s') as [Hk' Hs']; [by left|].
    destruct (decide (k' = k)) as [->|Hne].
    + intros k0 s0 [Heq|Hin]%elem_of_cons; [|by apply Hg'].
      injection Heq as -> ->. split; [done|].
      intros y [->%elem_of_singleton|Hy]%elem_of_union; [done | by apply Hs'].
    + intros k0 s0 [Heq|Hin]%elem_of_cons; [|by apply IH].
      injection Heq as -> ->. by split.
Qed.

Lemma connect_touched_in_range n (touched : list nat) (g : graph) :
  Forall (fun i => (i < n)%nat) touched -> in_range n g ->
  in_range n (connect_touched touched g).
Proof.
  intros Ht Hg. rewrite Forall_forall in Ht. unfold connect_touched.
  apply (foldl_inv _ (in_range n)); [done|].
  intros g1 idx1 Hidx1 Hg1.
  apply (foldl_inv _ (in_range n)); [done|].
  intros g2 idx2 Hidx2 Hg2. destruct (decide (idx1 ≠ idx2)); [|done].
  apply setdefault_add_in_range; [apply setdefault_add_in_range|..]; auto.
Qed.

(** What holds of the tagging while the AIMS polygons are gone through. *)
Definition tagging_in_range (n : nat) (tg : @tagging Shape) : Prop :=
  in_range n (nw_connections tg)
  /\ forall k, k ∈ dom (nw_groups tg) -> (k < n)%nat.

Lemma tag_all_total (rock gdf_aims : list Row) :
  exists tg, tag_all sindex_intersection rock gdf_aims = Some tg
             /\ tagging_in_range (length rock) tg.
Proof.
  unfold tag_all. apply foldl_option_total.
  - split; cbn [nw_connections nw_groups]; [by intros k s ?%elem_of_nil|].
    intros k. rewrite dom_empty_L. by intros ?%elem_of_empty.
  - intros [i r] tg0 _ Htg0. unfold tag_row. cbn [mbind option_bind fst snd].
    destruct (foldl_option_total
      (tag_candidate rock i (geom r))
      (fun st : @tagging Shape * list nat =>
         tagging_in_range (length rock) st.1
         /\ Forall (fun j => (j < length rock)%nat) st.2)
      (sindex_intersection rock (geom r)) (tg0, [])) as ([tg1 t1] & Hfold & Htg1 & _).
    + by split.
    + intros nw_idx [tga ta]Hidx [[Hconn Hgroups] Hta]. cbn [fst snd] in *.
      apply sindex_in_range in Hidx.
      destruct (lookup_lt_is_Some_2 rock nw_idx Hidx) as [nw_row Hrow].
      unfold tag_candidate. cbn [mbind option_bind fst snd]. rewrite Hrow.
      cbn [mbind option_bind].
      destruct (_ || _); [|by eexists].
      eexists. split; [done|]. cbn [fst snd nw_connections nw_groups].
      assert (Forall (fun j => (j < length rock)%nat) (ta ++ [nw_idx])) as Hta'.
      { apply Forall_app. split; [done|]. by apply Forall_singleton. }
      split; [split|done]; cbn [nw_connections nw_groups].
      * case_bool_decide; [by apply connect_touched_in_range | done].
      * intros k. rewrite dom_insert_L.
        intros [->%elem_of_singleton|Hk]%elem_of_union; [done | by apply Hgroups].
    + rewrite Hfold. by exists tg1.
Qed.

Lemma universe_in_range n (g : graph) x :
  in_range n g -> x ∈ node_universe set_order g -> (x < n)%nat.
Proof.
  intros Hg. unfold node_universe.
  intros [Hx|Hx]%elem_of_union.
  - apply elem_of_list_to_set, list_elem_of_fmap in Hx as ([k s] & -> & Hin).
    exact (proj1 (Hg k s Hin)).
  - apply elem_of_list_to_set, list_elem_of_bind in Hx as ([k s] & Hx & Hin).
    apply (proj2 (Hg k s Hin)). by apply set_order_members.
Qed.

Lemma dfs_members fuel (g : graph) node v c st :
  dfs set_order fuel g node (v, c) = Some st ->
  node ∈ node_universe set_order g ->
  (forall x, x ∈ c -> x ∈ node_universe set_order g) ->
  forall x, x ∈ st.2 -> x ∈ node_universe set_order g.
Proof.
  revert node v c st. induction fuel as [|fuel IH]; intros node v c st Hdfs Hnode Hc; [done|].
  cbn [dfs] in Hdfs. revert Hdfs.
  apply (foldl_option_inv _
    (fun st' : gset nat * list nat => forall x, x ∈ st'.2 -> x ∈ node_universe set_order g)).
  - done.
  - cbn [snd]. intros x [Hx|Hx]%elem_of_app; [by apply Hc|].
    by apply list_elem_of_singleton in Hx as ->.
  - intros b [v0 c0] a1 Hb Hc0. cbn [mbind option_bind fst].
    destruct (decide (b ∈ v0)); [by intros [= <-]|].
    intros Hdfs. eapply IH; [exact Hdfs| |exact Hc0].
    by eapply neighbours_universe.
Qed.

Lemma find_connected_components_members (g : graph) components :
  find_connected_components set_order g = Some components ->
  forall component x, component ∈ components -> x ∈ component ->
    x ∈ node_universe set_order g.
Proof.
  unfold find_connected_components.
  destruct (foldl _ _ _) as [[visited comps]|] eqn:Hfold; [|done].
  cbn. intros [= <-]. revert Hfold.
  apply (foldl_option_inv _
    (fun st : gset nat * list (list nat) =>
       forall component x, component ∈ st.2 -> x ∈ component ->
         x ∈ node_universe set_order g)).
  - done.
  - by intros component x ?%elem_of_nil.
  - intros b [v0 cs0] a1 Hb Hcs0. unfold visit. cbn [mbind option_bind fst snd].
    destruct (decide (b ∈ v0)); [by intros [= <-]|].
    destruct (dfs set_order _ g b (v0, [])) as [[v1 c1]|] eqn:Hdfs; [|done].
    cbn [mbind option_bind fst snd]. intros [= <-]. cbn [snd].
    intros component x [Hc|Hc]%elem_of_app Hx; [by eapply Hcs0|].
    apply list_elem_of_singleton in Hc as ->.
    eapply (dfs_members _ _ _ _ _ _ Hdfs); [| |exact Hx].
    + unfold node_universe. apply elem_of_union. left. by apply elem_of_list_to_set.
    + by intros y ?%elem_of_nil.
Qed.

Lemma idx_mapping_lt (gdf : list Row) k :
  (k < length (gdf_nw_rock gdf))%nat ->
  exists i, original_indices gdf !! k = Some i /\ (i < length gdf)%nat.
Proof.
  rewrite <- idx_mapping_length. intros [i Hi]%lookup_lt_is_Some_2.
  exists i. split; [done|].
  destruct (idx_mapping_row gdf k i Hi) as (f & Hf & _). by eapply lookup_lt_Some.
Qed.

Lemma at_update_total (gdf : list Row) n idx g status :
  length gdf = n -> (idx < n)%nat ->
  exists gdf', at_update gdf idx g status = Some gdf' /\ length gdf' = n.
Proof.
  intros <- [row Hrow]%lookup_lt_is_Some_2. unfold at_update. rewrite Hrow.
  eexists. split; [done|]. by rewrite length_insert.
Qed.

Lemma member_geoms_total (rock : list Row) (groups : gmap nat (list G)) nw_idx :
  (nw_idx < length rock)%nat -> is_Some (member_geoms rock groups nw_idx).
Proof.
  intros [row Hrow]%lookup_lt_is_Some_2. unfold member_geoms. rewrite Hrow. by eexists.
Qed.

(** Both dissolve loops run through when the groups and the components
    name positions of [gdf_nw_rock] only. *)
Lemma dissolve_total (gdf_nw : list Row) (groups : gmap nat (list G))
    (components : list (list nat)) :
  (forall k, k ∈ dom groups -> (k < length (gdf_nw_rock gdf_nw))%nat) ->
  (forall component x, component ∈ components -> x ∈ component ->
     (x < length (gdf_nw_rock gdf_nw))%nat) ->
  exists gdf_nw1 dr,
    foldl (dissolve_isolated (gdf_nw_rock gdf_nw) (original_indices gdf_nw) groups)
          (Some gdf_nw) (set_order (isolated_nw_indices groups components)) = Some gdf_nw1
    /\ foldl (dissolve_component (gdf_nw_rock gdf_nw) (original_indices gdf_nw) groups)
             (Some (gdf_nw1, ∅)) components = Some dr.
Proof.
  intros Hgroups Hcomps.
  destruct (foldl_option_total
    (dissolve_isolated (gdf_nw_rock gdf_nw) (original_indices gdf_nw) groups)
    (fun gdf : list Row => length gdf = length gdf_nw)
    (set_order (isolated_nw_indices groups components)) gdf_nw) as (gdf_nw1 & Hiso & Hlen1).
  { done. }
  { intros nw_idx gdf Hidx Hlen. apply set_order_members in Hidx.
    unfold isolated_nw_indices in Hidx. apply elem_of_difference in Hidx as [Hdom _].
    destruct (idx_mapping_lt gdf_nw nw_idx (Hgroups _ Hdom)) as (i & Hi & Hlt).
    destruct (lookup_lt_is_Some_2 _ _ (Hgroups _ Hdom)) as [nw_row Hrow].
    apply elem_of_dom in Hdom as [aims_geoms Hg].
    unfold dissolve_isolated. cbn [mbind option_bind]. rewrite Hi. cbn [mbind option_bind].
    rewrite Hrow. cbn [mbind option_bind]. rewrite Hg. cbn [mbind option_bind].
    by apply at_update_total. }
  exists gdf_nw1.
  destruct (foldl_option_total
    (dissolve_component (gdf_nw_rock gdf_nw) (original_indices gdf_nw) groups)
    (fun st : list Row * gset nat => length st.1 = length gdf_nw)
    components (gdf_nw1, ∅)) as (dr & Hdr & _); [done| |by exists dr].
  intros component [gdf removed] Hcomponent Hlen. cbn [fst] in Hlen.
  unfold dissolve_component. cbn [mbind option_bind fst snd].
  destruct component as [|primary_nw_idx others]; [by eexists|].
  destruct (idx_mapping_lt gdf_nw primary_nw_idx) as (po & Hpo & Hlt).
  { apply (Hcomps _ _ Hcomponent). by left. }
  rewrite Hpo. cbn [mbind option_bind].
  destruct (member_geoms_total (gdf_nw_rock gdf_nw) groups primary_nw_idx) as [gs Hgs].
  { apply (Hcomps _ _ Hcomponent). by left. }
  rewrite Hgs. cbn [mbind option_bind].
  destruct (foldl_option_total
    (absorb (gdf_nw_rock gdf_nw) (original_indices gdf_nw) groups)
    (fun _ => True) others (gs, removed)) as (gr & Hgr & _); [done| |].
  { intros o [gs0 rm0] Ho _.
    assert (o < length (gdf_nw_rock gdf_nw))%nat as Hlto.
    { apply (Hcomps _ _ Hcomponent). by right. }
    destruct (idx_mapping_lt gdf_nw o Hlto) as (oo & Hoo & _).
    destruct (member_geoms_total (gdf_nw_rock gdf_nw) groups o Hlto) as [gso Hgso].
    unfold absorb. cbn [mbind option_bind]. rewrite Hgso. cbn [mbind option_bind].
    rewrite Hoo. by eexists. }
  rewrite Hgr. cbn [mbind option_bind].
  destruct (at_update_total gdf (length gdf_nw) po (unary_union gr.1)
              ("primary_with_" +:+ pretty (length (primary_nw_idx :: others) - 1)%nat
                 +:+ "_others")) as (gdf' & Hup & Hlen'); [done..|].
  rewrite Hup. cbn [mbind option_bind]. by eexists.
Qed.

(** The model returns a result: with a spatial index that returns
    positions of the frame, every lookup by position or by key in the
    tagging, the traversal and both dissolve loops finds its entry, and the
    fuel of the traversal is enough.  What the model leaves out (the join
    of the identifiers in the tagging loop, Python's recursion limit, a
    frame without the column [Feat_L3]) can still end a run of the
    script. *)
Theorem merge_rocky_reefs_total (gdf_nw_in gdf_aims_in : Layer Shape) :
  exists m, merge_rocky_reefs sindex_intersection set_order gdf_nw_in gdf_aims_in = Some m.
Proof.
  unfold merge_rocky_reefs.
  destruct (tag_all_total (gdf_nw_rock (rows (tracked gdf_nw_in)))
              (rows (prepare_aims (columns (tracked gdf_nw_in)) gdf_aims_in)))
    as (tg & Htg & Hconn & Hgroups).
  rewrite Htg. cbn [mbind option_bind].
  destruct (find_connected_components_total set_order (nw_connections tg))
    as [components Hcomponents].
  rewrite Hcomponents. cbn [mbind option_bind].
  destruct (dissolve_total (rows (tracked gdf_nw_in)) (nw_groups tg) components)
    as (gdf_nw1 & dr & Hiso & Hdr).
  - done.
  - intros component x Hc Hx. apply (universe_in_range _ (nw_connections tg)); [done|].
    by eapply find_connected_components_members.
  - rewrite Hiso. cbn [mbind option_bind]. rewrite Hdr. cbn [mbind option_bind].
    by eexists.
Qed.

End Totality.
End MergeRockyReefs.

(** ** 05-clip-rocks-from-reefs.py *)

Module ClipRocks.
Import Geo Disk.

Section Stage.
Context {Shape : Type} `{E : OverlayEngine Shape}.

Local Abbreviation G := (geometry Shape).
Local Abbreviation Row := (Feature (geometry Shape)).

(** The three-way choice on [polygons], the members that are Polygons or
    MultiPolygons.  The outer [None] is the constructor raising; the inner
    one is Python's [None]. *)
Definition pick_polygons (members : list G) : option (option G) :=
  let polygons := filter (fun g => polygonal g = true) members in
  match polygons with
  | [] => Some None
  | [g] => Some (Some g)
  | _ => Some <$> MultiPolygon_of polygons
  end.

(** [process_geometry]: in the last branch a raising constructor is
    caught and [None] is returned. *)
Definition process_geometry (g : G) : option (option G) :=
  if is_empty g then Some None
  else if polygonal g then Some (Some g)
  else
    match g with
    | GeometryCollection members => pick_polygons members
    | _ =>
        match geoms g with
        | Some members =>
            match pick_polygons members with
            | Some r => Some r
            | None => Some None
            end
        | None => Some None
        end
    end.

Definition is_rocky (f : Row) : Prop := cell f "Feat_L3" = VStr "Rocky Reef".

#[global] Instance is_rocky_dec (f : Row) : Decision (is_rocky f).
Proof. unfold is_rocky. apply _. Defined.

(** Body of the loop over [intersecting_rocky_reefs]; the state is
    [non_rocky_geom], and stays [None] after the [break]. *)
Definition clip_step (acc : option (option G)) (rocky_row : Row) : option (option G) :=
  st ← acc;
  match st with
  | None => Some None
  | Some non_rocky_geom =>
      if intersects non_rocky_geom (geom rocky_row)
      then process_geometry (difference non_rocky_geom (geom rocky_row))
      else Some (Some non_rocky_geom)
  end.

(** Body of the loop over [non_rocky_reefs]; the state is
    [clipped_non_rocky_reefs]. *)
Definition clip_row (rocky_reefs : list Row) (acc : option (list Row)) (non_rocky_row : Row)
  : option (list Row) :=
  clipped ← acc;
  let intersecting_rocky_reefs :=
    filter (fun r => intersects (geom r) (geom non_rocky_row) = true) rocky_reefs in
  if bool_decide (0 < length intersecting_rocky_reefs)%nat then
    non_rocky_geom ← foldl clip_step (Some (Some (geom non_rocky_row)))
                       intersecting_rocky_reefs;
    match non_rocky_geom with
    | Some g =>
        if is_empty g then Some clipped
        else Some (clipped ++ [set_geometry non_rocky_row g])
    | None => Some clipped
    end
  else Some (clipped ++ [non_rocky_row]).

(** The frame [result_gdf], or [None] where the script dies on an
    exception.  [gpd.GeoDataFrame(clipped_non_rocky_reefs, crs=gdf.crs)]
    raises a ValueError on an empty list: the frame has no geometry column
    to give the reference system to (the input, written by stage 04, has
    one). *)
Definition clip_rocks (gdf : list Row) : option (list Row) :=
  let rocky_reefs := filter is_rocky gdf in
  let non_rocky_reefs := filter (fun f => ~ is_rocky f) gdf in
  clipped ← foldl (clip_row rocky_reefs) (Some []) non_rocky_reefs;
  match clipped with
  | [] => None
  | _ :: _ => Some (rocky_reefs ++ clipped)
  end.



End Stage.
End ClipRocks.

(** ** 07-v0-3-clip-merge-shallow-sed.py *)

Module ShallowSed.
Import Geo Disk.

Definition default_vals : list (string * value) :=
  [("EdgeSrc", VStr "Semi-auto shallow mask");
   ("Notes", VNull);
   ("FeatConf", VStr "Medium");
   ("TypeConf", VStr "Medium");
   ("EdgeAcc_m", VInt 250);
   ("RB_Type_L3", VStr "Shallow sediment");
   ("DepthCat", VNull);
   ("DepthCatSr", VNull);
   ("Feat_L3", VStr "Shallow Sediment");
   ("GeoAttach", VStr "Fringing");
   ("Relief", VStr "Low");
   ("FlowInflu", VStr "Unknown");
   ("SO_L2", VStr "Terrigenous");
   ("Paleo", VStr "No")].

Section Stage.
Context {Shape : Type} `{E : OverlayEngine Shape}.

Local Abbreviation G := (geometry Shape).
Local Abbreviation Row := (Feature (geometry Shape)).

(** This script's copy of [process_geometry]: the one of stage 05 with a
    test for [None] in front. *)
Definition process_geometry (g : option G) : option (option G) :=
  match g with
  | None => Some None
  | Some g => ClipRocks.process_geometry g
  end.

(** [feature_data = default_vals.copy(); feature_data['geometry'] = g] *)
Definition feature_data (g : G) : Row := mkFeature (list_to_map default_vals) g.

(** The features appended for a processed geometry: one per valid,
    non-empty part of a MultiPolygon, else one for the geometry itself. *)
Definition emit (processed_geom : G) : list Row :=
  match processed_geom with
  | MultiPolygon parts =>
      feature_data
        <$> filter (fun single_poly => is_valid single_poly && negb (is_empty single_poly) = true)
                   (Polygon <$> parts)
  | _ => [feature_data processed_geom]
  end.

(** Body of the loop over [shallow_mask.iterrows()]; the state is
    [(clipped_shallow_features, skipped_count)]. *)
Definition clip_shallow_row (dissolved_nw : G) (acc : option (list Row * nat))
    (shallow_row : Row) : option (list Row * nat) :=
  st ← acc;
  let shallow_geom := geom shallow_row in
  if negb (is_valid shallow_geom) || is_empty shallow_geom then Some (st.1, S st.2)
  else
    processed_geom ← process_geometry (Some (difference shallow_geom dissolved_nw));
    match processed_geom with
    | Some pg => if is_empty pg then Some st else Some (st.1 ++ emit pg, st.2)
    | None => Some st
    end.

(** [gdf[col] = None] for the columns of [nw_features] that the sediment
    frame lacks. *)
Definition with_nw_columns (nw_columns : list string) (f : Row) : Row :=
  mkFeature
    (foldl (fun a col =>
              if bool_decide (col ∈ default_vals.*1) || bool_decide (col = "geometry")
              then a else <[col := VNull]> a)
           (attrs f) nw_columns)
    (geom f).

(** The rows of [shallow_sediment_gdf] as they are concatenated to
    [nw_features]; [None] where the script dies on an exception.  When no
    feature was created the script calls
    [gpd.GeoDataFrame([], crs=nw_features.crs)], which raises a ValueError:
    the frame has no geometry column to give the reference system to (the
    NW layer has one).  Reprojection of the mask is left to the
    collaborator. *)
Definition shallow_sediment (nw_features shallow_mask : Layer Shape) : option (list Row) :=
  let all_nw_geometries : list G := geom <$> rows nw_features in
  let dissolved_nw := unary_union all_nw_geometries in
  match foldl (clip_shallow_row dissolved_nw) (Some (@nil Row, 0%nat)) (rows shallow_mask) with
  | Some ([], _) => None
  | Some (clipped_shallow_features, _) =>
      Some (with_nw_columns (columns nw_features) <$> clipped_shallow_features)
  | None => None
  end.

Definition main (nw_features shallow_mask : Layer Shape) : option (list Row) :=
  sediment ← shallow_sediment nw_features shallow_mask;
  Some (rows nw_features ++ sediment).

(** *** What is emitted *)

Lemma pick_polygons_polygonal (members : list G) pg :
  ClipRocks.pick_polygons members = Some (Some pg) -> polygonal pg = true.
Proof.
  unfold ClipRocks.pick_polygons.
  destruct (filter _ members) as [|g [|g' l]] eqn:Hf; [done| |].
  - intros [= <-].
    assert (g ∈ filter (fun g => polygonal g = true) members) as Hin
      by (rewrite Hf; by left).
    by apply list_elem_of_filter in Hin as [? _].
  - unfold MultiPolygon_of. destruct (mapM _ _); [|done]. by intros [= <-].
Qed.

Lemma process_geometry_polygonal (g : option G) pg :
  process_geometry g = Some (Some pg) -> polygonal pg = true.
Proof.
  destruct g as [g|]; [|done]. unfold process_geometry, ClipRocks.process_geometry.
  destruct (is_empty g); [done|].
  destruct (polygonal g) eqn:Hp; [by intros [= <-]|].
  destruct g as [s|s|s|ps|ps|ps|members]; simpl; try done.
  - destruct (ClipRocks.pick_polygons (Point <$> ps)) as [r|] eqn:Hr; [|done].
    intros [= ->]. by eapply pick_polygons_polygonal.
  - destruct (ClipRocks.pick_polygons (LineString <$> ps)) as [r|] eqn:Hr; [|done].
    intros [= ->]. by eapply pick_polygons_polygonal.
  - apply pick_polygons_polygonal.
Qed.

(** A sediment feature as the stage must emit it: a single-part Polygon,
    not empty, with the default value in every default column and nothing
    but nulls elsewhere. *)
Definition well_formed_sediment (f : Row) : Prop :=
  (exists s, geom f = Polygon s)
  /\ is_empty (geom f) = false
  /\ (forall k v, (k, v) ∈ default_vals -> attrs f !! k = Some v)
  /\ (forall k, k ∉ default_vals.*1 -> attrs f !! k = None \/ attrs f !! k = Some VNull).

Lemma default_vals_NoDup : NoDup (default_vals.*1).
Proof. by apply (bool_decide_unpack _). Qed.

Lemma with_nw_columns_attrs (nw_columns : list string) (f : Row) :
  (forall k, k ∈ default_vals.*1 ->
     attrs (with_nw_columns nw_columns f) !! k = attrs f !! k)
  /\ (forall k, k ∉ default_vals.*1 ->
        attrs (with_nw_columns nw_columns f) !! k = attrs f !! k
        \/ attrs (with_nw_columns nw_columns f) !! k = Some VNull).
Proof.
  unfold with_nw_columns. cbn [attrs].
  apply (foldl_inv _ (fun a : gmap string value =>
    (forall k, k ∈ default_vals.*1 -> a !! k = attrs f !! k)
    /\ (forall k, k ∉ default_vals.*1 -> a !! k = attrs f !! k \/ a !! k = Some VNull))).
  - split; [done|]. intros k _. by left.
  - intros a col _ [Hin Hout].
    destruct (bool_decide (col ∈ default_vals.*1) || bool_decide (col = "geometry"))
      eqn:Hskip; [done|].
    apply orb_false_iff in Hskip as [Hcol%bool_decide_eq_false _].
    split.
    + intros k Hk. rewrite lookup_insert_ne; [by apply Hin|]. by intros ->.
    + intros k Hk. destruct (decide (col = k)) as [->|Hne].
      * right. by rewrite lookup_insert_eq.
      * rewrite lookup_insert_ne by done. by apply Hout.
Qed.

(** The single-part geometries that a processed geometry is split into. *)
Definition single_parts (pg : G) : list G :=
  match pg with
  | MultiPolygon parts => Polygon <$> parts
  | _ => [pg]
  end.

(** [f] was emitted for the part of a shallow-mask polygon that no NW
    feature covers. *)
Definition emitted_from (dissolved_nw : G) (shallow_rows : list Row) (f : Row) : Prop :=
  exists shallow_row pg,
    shallow_row ∈ shallow_rows
    /\ process_geometry (Some (difference (geom shallow_row) dissolved_nw)) = Some (Some pg)
    /\ geom f ∈ single_parts pg.

Lemma emit_spec (pg : G) (f : Row) :
  polygonal pg = true -> is_empty pg = false -> f ∈ emit pg ->
  (exists s, geom f = Polygon s) /\ is_empty (geom f) = false
  /\ attrs f = list_to_map default_vals /\ geom f ∈ single_parts pg.
Proof.
  intros Hpoly Hne Hf.
  destruct pg as [s|s|s|ps|ps|ps|members]; try done.
  - apply list_elem_of_singleton in Hf as ->. simpl. split_and!; try done.
    + by exists s.
    + by left.
  - simpl in Hf. apply list_elem_of_fmap in Hf as (g & -> & Hg).
    apply list_elem_of_filter in Hg as [Hok Hg].
    apply andb_true_iff in Hok as [_ Hok%negb_true_iff].
    simpl. split_and!; try done.
    apply list_elem_of_fmap in Hg as (s & -> & _). by exists s.
Qed.

(** C10. Every shallow-sediment feature that the stage creates is a
    single-part Polygon that is not empty, one of the parts that the
    polygonal remainder of a shallow-mask polygon splits into; it has the
    declared default value in every default column and only nulls in the
    other columns. *)
Theorem sediment_features_well_formed (nw_features shallow_mask : Layer Shape)
    (sediment : list Row) :
  shallow_sediment nw_features shallow_mask = Some sediment ->
  Forall (fun f =>
            well_formed_sediment f
            /\ emitted_from (unary_union (geom <$> rows nw_features))
                            (rows shallow_mask) f)
         sediment.
Proof.
  unfold shallow_sediment. cbv zeta.
  set (dissolved_nw := unary_union (geom <$> rows nw_features)).
  destruct (foldl _ _ _) as [[features skipped]|] eqn:Hfold; [|done].
  intros Hsome.
  assert (sediment = with_nw_columns (columns nw_features) <$> features) as ->
    by (destruct features; [done | by injection Hsome]).
  clear Hsome.
  assert (Forall (fun f => (exists s, geom f = Polygon s) /\ is_empty (geom f) = false
                           /\ attrs f = list_to_map default_vals
                           /\ emitted_from dissolved_nw (rows shallow_mask) f)
                 features) as Hall.
  { revert Hfold.
    apply (foldl_option_inv _ (fun st : list Row * nat =>
      Forall (fun f => (exists s, geom f = Polygon s) /\ is_empty (geom f) = false
                       /\ attrs f = list_to_map default_vals
                       /\ emitted_from dissolved_nw (rows shallow_mask) f) st.1));
      [done|done|].
    intros row [fs n] st1 Hrow Hfs. unfold clip_shallow_row. cbn [mbind option_bind fst snd].
    destruct (negb (is_valid (geom row)) || is_empty (geom row)); [by intros [= <-]|].
    destruct (process_geometry _) as [[pg|]|] eqn:Hpg; cbn [mbind option_bind];
      [| by intros [= <-] | done].
    destruct (is_empty pg) eqn:Hne; intros [= <-]; [done|].
    cbn [fst]. apply Forall_app. split; [done|].
    apply Forall_forall. intros f Hf.
    destruct (emit_spec pg f (process_geometry_polygonal _ _ Hpg) Hne Hf)
      as (Hs & Hnef & Hattrs & Hpart).
    split_and!; try done. by exists row, pg. }
  apply Forall_fmap. eapply Forall_impl; [exact Hall|].
  intros f (Hs & Hne & Hattrs & Hfrom). cbn beta.
  destruct (with_nw_columns_attrs (columns nw_features) f) as [Hin Hout].
  split; [|done]. unfold well_formed_sediment. split_and!; try done.
  - intros k v Hkv. rewrite Hin.
    + rewrite Hattrs. apply elem_of_list_to_map_1; [apply default_vals_NoDup | done].
    + apply list_elem_of_fmap. by exists (k, v).
  - intros k Hk. destruct (Hout k Hk) as [Heq|Heq]; [|by right].
    left. rewrite Heq, Hattrs. by apply not_elem_of_list_to_map_1.
Qed.

End Stage.
End ShallowSed.

(** ** 08-v0-3-clip-land.py *)

Module ClipLand.
Import Geo Disk.

Section Stage.
Context {Shape : Type} `{E : OverlayEngine Shape}.

Local Abbreviation G := (geometry Shape).
Local Abbreviation Row := (Feature (option (geometry Shape))).

(** Whether GEOS raises on [g.difference(other)]; the other calls of
    [clip_geometry] are taken not to raise. *)
Variable difference_raises : G -> G -> bool.

(** The coastline geometries, each repaired where invalid, in one union. *)
Definition coastline_union_of (coastline : list G) : G :=
  unary_union ((fun g => if is_valid g then g else make_valid g) <$> coastline).

(** [clip_geometry]; the local [geom] may have been replaced by its
    repair when the exception handler runs. *)
Definition clip_geometry (coastline_union : G) (g : option G) : option G :=
  match g with
  | None => None
  | Some g0 =>
      let g1 := if is_valid g0 then g0 else make_valid g0 in
      if difference_raises g1 coastline_union then
        let valid_geom := make_valid g1 in
        if difference_raises valid_geom coastline_union then Some g1
        else Some (difference valid_geom coastline_union)
      else
        let clipped := difference g1 coastline_union in
        let clipped :=
          if negb (is_empty clipped) && negb (is_valid clipped)
          then make_valid clipped else clipped in
        if is_empty clipped then None else Some clipped
  end.

(** A row stays when its geometry is there and not empty. *)
Definition has_geometry (f : Row) : bool :=
  match geom f with
  | Some g => negb (is_empty g)
  | None => false
  end.

(** [apply_coastline_clipping]; reprojection is left to the collaborator. *)
Definition apply_coastline_clipping (gdf : list Row) (coastline : list G) : list Row :=
  let coastline_union := coastline_union_of coastline in
  filter (fun f => has_geometry f = true)
         ((fun f => set_geometry f (clip_geometry coastline_union (geom f))) <$> gdf).

(** The rows that the clip removes. *)
Definition removed_by_clip (coastline_union : G) (f : Row) : Prop :=
  has_geometry (set_geometry f (clip_geometry coastline_union (geom f))) = false.

#[global] Instance removed_by_clip_dec coastline_union f :
  Decision (removed_by_clip coastline_union f).
Proof. unfold removed_by_clip. apply _. Defined.

End Stage.

Section Facts.
Context {Shape : Type} `{L : OverlayLaws Shape}.

Local Abbreviation G := (geometry Shape).
Local Abbreviation Row := (Feature (option (geometry Shape))).

Variable difference_raises : G -> G -> bool.

(** For a valid geometry whose clip comes out valid no repair is made, and
    nothing is assumed of [make_valid]. *)
Lemma clip_geometry_area_valid (coastline_union g g' : G) :
  is_valid g = true ->
  (is_empty (difference g coastline_union) = false ->
   is_valid (difference g coastline_union) = true) ->
  clip_geometry difference_raises coastline_union (Some g) = Some g' ->
  area g' <= area g.
Proof.
  intros Hvalid Hclipped. unfold clip_geometry. rewrite Hvalid.
  destruct (difference_raises g coastline_union).
  - rewrite make_valid_valid by done.
    destruct (difference_raises g coastline_union); intros [= <-].
    + apply Qcle_refl.
    + apply difference_area_le.
  - cbv zeta. destruct (is_empty (difference g coastline_union)) eqn:Hem.
    + cbn [negb andb]. by rewrite Hem.
    + rewrite Hclipped by done. cbn [negb andb]. rewrite Hem. intros [= <-].
      apply difference_area_le.
Qed.

(** An invalid geometry is repaired first; what is returned comes from the
    repair, and is measured against it. *)
Lemma clip_geometry_area_repaired (coastline_union g g' : G) :
  is_valid g = false ->
  is_valid (make_valid g) = true ->
  (is_empty (difference (make_valid g) coastline_union) = false ->
   is_valid (difference (make_valid g) coastline_union) = true) ->
  clip_geometry difference_raises coastline_union (Some g) = Some g' ->
  area g' <= area (make_valid g).
Proof.
  intros Hinvalid Hrepaired Hclipped. unfold clip_geometry. rewrite Hinvalid.
  destruct (difference_raises (make_valid g) coastline_union) eqn:Hraise.
  - rewrite (make_valid_valid (make_valid g)) by done. rewrite Hraise.
    intros [= <-]. apply Qcle_refl.
  - cbv zeta. destruct (is_empty (difference (make_valid g) coastline_union)) eqn:Hem.
    + cbn [negb andb]. by rewrite Hem.
    + rewrite Hclipped by done. cbn [negb andb]. rewrite Hem. intros [= <-].
      apply difference_area_le.
Qed.

Lemma clip_geometry_contained (coastline_union g : G) :
  polygonal g = true -> is_valid g = true -> within g coastline_union ->
  difference_raises g coastline_union = false ->
  clip_geometry difference_raises coastline_union (Some g) = None.
Proof.
  intros Hpoly Hvalid Hwithin Hraise. unfold clip_geometry.
  rewrite Hvalid, Hraise. cbv zeta.
  pose proof (difference_empty g coastline_union Hpoly Hvalid Hwithin) as Hem.
  rewrite Hem. cbn [negb andb]. by rewrite Hem.
Qed.

Lemma length_filter_split {A} (P : A -> Prop) `{!forall x, Decision (P x)} (l : list A) :
  (length (filter P l) + length (filter (fun x => ~ P x) l) = length l)%nat.
Proof.
  induction l as [|x l IH]; [done|].
  rewrite !filter_cons. destruct (decide (P x)) as [Hx|Hx].
  - rewrite decide_False by tauto. simpl. lia.
  - rewrite decide_True by done. simpl. lia.
Qed.

(** C6 (as amended). The clip never gives a valid feature more area than
    it had, when the difference comes out valid or empty, so that nothing
    is repaired.  An invalid feature is repaired before it is clipped: what
    the clip returns has no more area than the repaired geometry, when the
    repair is valid and the difference of the repair comes out valid or
    empty; nothing bounds it by the area of the invalid geometry itself.
    A valid polygonal feature that lies within the coastline union is left
    with no geometry and is removed; the rows of the output and the
    removed rows add up to the rows of the input, each removed row counting
    once; and no row of the output has a missing or empty geometry. *)
Theorem clip_never_grows (gdf : list Row) (coastline : list G) :
  (forall g g',
     is_valid g = true ->
     (is_empty (difference g (coastline_union_of coastline)) = false ->
      is_valid (difference g (coastline_union_of coastline)) = true) ->
     clip_geometry difference_raises (coastline_union_of coastline) (Some g) = Some g' ->
     area g' <= area g)
  /\ (forall g g',
        is_valid g = false ->
        is_valid (make_valid g) = true ->
        (is_empty (difference (make_valid g) (coastline_union_of coastline)) = false ->
         is_valid (difference (make_valid g) (coastline_union_of coastline)) = true) ->
        clip_geometry difference_raises (coastline_union_of coastline) (Some g) = Some g' ->
        area g' <= area (make_valid g))
  /\ (forall f g,
        f ∈ gdf -> geom f = Some g ->
        polygonal g = true -> is_valid g = true ->
        within g (coastline_union_of coastline) ->
        difference_raises g (coastline_union_of coastline) = false ->
        clip_geometry difference_raises (coastline_union_of coastline) (geom f) = None
        /\ removed_by_clip difference_raises (coastline_union_of coastline) f)
  /\ (length (apply_coastline_clipping difference_raises gdf coastline)
      + length (filter (removed_by_clip difference_raises (coastline_union_of coastline)) gdf)
      = length gdf)%nat
  /\ (forall f', f' ∈ apply_coastline_clipping difference_raises gdf coastline ->
        (exists g', geom f' = Some g' /\ is_empty g' = false)
        /\ exists f, f ∈ gdf /\ attrs f' = attrs f
             /\ geom f' = clip_geometry difference_raises (coastline_union_of coastline) (geom f)).
Proof.
  split_and!.
  - intros g g'. apply clip_geometry_area_valid.
  - intros g g'. apply clip_geometry_area_repaired.
  - intros f g Hf Hg Hpoly Hvalid Hwithin Hraise.
    assert (clip_geometry difference_raises (coastline_union_of coastline) (geom f) = None)
      as Hnone by (rewrite Hg; by apply clip_geometry_contained).
    split; [done|]. unfold removed_by_clip, has_geometry. simpl. by rewrite Hnone.
  - unfold apply_coastline_clipping. cbv zeta.
    set (cu := coastline_union_of coastline).
    rewrite <- (length_filter_split (fun f => has_geometry
                  (set_geometry f (clip_geometry difference_raises cu (geom f))) = true) gdf).
    f_equal.
    + apply length_filter_fmap.
    + f_equal. apply list_filter_iff. intros f. unfold removed_by_clip.
      by destruct (has_geometry _).
  - intros f' [Hhas Hin]%list_elem_of_filter.
    apply list_elem_of_fmap in Hin as (f & -> & Hf). split.
    + unfold has_geometry in Hhas. simpl in *.
      destruct (clip_geometry _ _ _) as [g'|]; [|done].
      exists g'. split; [done|]. by apply negb_true_iff.
    + by exists f.
Qed.

End Facts.
End ClipLand.

(** ** 03-v0-3-class-cross-walk.py *)

Module CrossWalk.
Import Geo Disk.

Definition IN_PATH : string := "working/02/Reef_Boundaries_Clean.shp".
Definition OUT_PATH : string := "working/03/NW-Aus-Features_v0-3-cross-walk.shp".

Definition newline : string := String (Ascii.ascii_of_nat 10) EmptyString.

Definition output_exists_message : string :=
  "Output file already exists: " +:+ OUT_PATH +:+ newline
  +:+ "Please move or delete it before running this script.".

Section Stage.
Context {Shape : Type}.

(** What [main] does to the frame between loading and saving (dropping
    rows without geometry, reprojection, the attribute cross-walk, the
    [DebugID] column): none of it looks at the disk. *)
Variable translate : Layer Shape -> Layer Shape.

(** [main]: the guard against overwriting manual edits, [load_data], the
    translation, and the save. *)
Definition main (fs : gmap string (Layer Shape)) : outcome (gmap string (Layer Shape)) :=
  if bool_decide (is_Some (fs !! OUT_PATH)) then Exit output_exists_message
  else
    match fs !! IN_PATH with
    | None => Exit ("Input shapefile not found: " +:+ IN_PATH)
    | Some gdf => Finished (<[OUT_PATH := translate gdf]> fs)
    end.

End Stage.

Section Guard.
Context {Shape : Type} `{E : OverlayEngine Shape}.

Local Abbreviation G := (geometry Shape).
Local Abbreviation Row := (Feature (geometry Shape)).

Variable translate : Layer Shape -> Layer Shape.
Variable use_sindex : list Row -> bool.
Variable sindex_intersection : list Row -> G -> list nat.
Variable intersection_raises : G -> G -> bool.
Variable centroid : G -> G.

(** C7 (as amended). The class cross-walk stage (03) stops with a fatal
    message, before it reads or writes anything, when its output file is
    already there.  The overlap-cleaning stage (02) has no such check:
    whenever it runs to its end, its output path holds the frame it has
    just built, whatever was there before. *)
Theorem output_guard (fs : gmap string (Layer Shape)) :
  (is_Some (fs !! OUT_PATH) -> main translate fs = Exit output_exists_message)
  /\ (forall fs',
        CleanOverlaps.main use_sindex sindex_intersection intersection_raises centroid fs
        = Finished fs' ->
        exists layer result_gdf,
          fs !! CleanOverlaps.input_shapefile = Some layer
          /\ CleanOverlaps.combine (rows layer) = Some result_gdf
          /\ fs' !! CleanOverlaps.output_shapefile
             = Some (mkLayer (columns layer) result_gdf)).
Proof.
  split.
  - intros Hthere. unfold main. by rewrite (bool_decide_eq_true_2 _ Hthere).
  - intros fs'. unfold CleanOverlaps.main.
    destruct (fs !! CleanOverlaps.input_shapefile) as [layer|] eqn:Hin; [|done].
    case_bool_decide; [|done].
    destruct (CleanOverlaps.combine (rows layer)) as [result_gdf|] eqn:Hc; [|done].
    destruct (CleanOverlaps.identify_overlaps _ _ _ _); [|done].
    intros [= <-]. exists layer, result_gdf. split_and!; [done|done|].
    apply lookup_insert_eq.
Qed.

End Guard.
End CrossWalk.

(** ** 02-clean-overlaps.py: the rows and the count of a cut pass, the
    scan, and the run *)

Module CleanOverlapsRun.
Import Geo Disk CleanOverlaps.

Section Cuts.
Context {Shape : Type} `{L : OverlayLaws Shape}.

Local Abbreviation G := (geometry Shape).
Local Abbreviation Row := (Feature (geometry Shape)).

(** The counter goes up by one with every cut and stays where no cut is
    made. *)
Lemma foldl_cut_step_count (l : list Row) (m : G) h (c : nat) :
  (c <= (foldl cut_step (m, h, c) l).2 <= c + length l)%nat
  /\ ((foldl cut_step (m, h, c) l).2 = c -> (foldl cut_step (m, h, c) l).1.1 = m).
Proof.
  revert m h c. induction l as [|a l IH]; intros m h c; [simpl; split; [lia|done]|].
  cbn [foldl length].
  destruct (cut_step (m, h, c) a) as [[m1 h1] c1] eqn:Hstep.
  assert ((m1 = m /\ c1 = c) \/ c1 = S c) as Hcase.
  { unfold cut_step in Hstep. destruct (intersects m (geom a)).
    - destruct (gtb _ _); injection Hstep as <- <- <-; [by right | by left].
    - injection Hstep as <- <- <-. by left. }
  destruct (IH m1 h1 c1) as [Hbound Hsame].
  destruct Hcase as [[-> ->]| ->]; (split; [lia|]); [done|lia].
Qed.

Lemma cut_row_count (overlay_gdf : list Row) (acc : list Row * nat) (t : Row) :
  (acc.2 <= (cut_row overlay_gdf acc t).2 <= acc.2 + length overlay_gdf)%nat
  /\ ((cut_row overlay_gdf acc t).2 = acc.2 ->
      (cut_row overlay_gdf acc t).1
      = acc.1 ++ (if is_empty (geom t) then [] else [t])).
Proof.
  unfold cut_row.
  destruct (foldl_cut_step_count overlay_gdf (geom t) false acc.2) as [Hbound Hsame].
  destruct (foldl cut_step _ _) as [[mg h] c]. cbn [fst snd] in *.
  destruct (is_empty mg) eqn:Hem; cbn [fst snd]; (split; [done|]); intros Hc.
  - rewrite (Hsame Hc) in Hem. rewrite Hem. by rewrite app_nil_r.
  - rewrite (Hsame Hc) in Hem |- *. rewrite Hem. by destruct t.
Qed.

Lemma foldl_cut_row_count (overlay_gdf target_gdf : list Row) (acc : list Row * nat) :
  (acc.2 <= (foldl (cut_row overlay_gdf) acc target_gdf).2
   <= acc.2 + length target_gdf * length overlay_gdf)%nat
  /\ ((foldl (cut_row overlay_gdf) acc target_gdf).2 = acc.2 ->
      (foldl (cut_row overlay_gdf) acc target_gdf).1
      = acc.1 ++ filter (fun t => is_empty (geom t) = false) target_gdf).
Proof.
  revert acc. induction target_gdf as [|t T IH]; intros acc.
  - simpl. split; [lia|]. by rewrite app_nil_r.
  - cbn [foldl length].
    destruct (cut_row_count overlay_gdf acc t) as [Hb1 Hs1].
    destruct (IH (cut_row overlay_gdf acc t)) as [Hb2 Hs2].
    split; [lia|]. intros Hc.
    rewrite Hs2 by lia. rewrite Hs1 by lia. rewrite <- app_assoc. f_equal.
    rewrite filter_cons. by destruct (is_empty (geom t)).
Qed.

Lemma length_omap_le {A B} (f : A -> option B) (l : list A) :
  (length (omap f l) <= length l)%nat.
Proof.
  induction l as [|x l IH]; [done|].
  change (omap f (x :: l)) with (match f x with Some y => y :: omap f l | None => omap f l end).
  destruct (f x); cbn [length]; lia.
Qed.

(** X1. A cut pass only takes away: it returns no more rows than it was
    given, counts at most one overlap per pair of target and overlay, and
    every row it returns is a target row with its attributes, whose
    geometry lies within the one it had and has no more area; with an
    overlay frame that is not empty, no returned geometry is empty. *)
Theorem cut_out_overlaps_shrinks (target_gdf overlay_gdf : list Row) :
  (length (cut_out_overlaps target_gdf overlay_gdf).1 <= length target_gdf)%nat
  /\ ((cut_out_overlaps target_gdf overlay_gdf).2
      <= length target_gdf * length overlay_gdf)%nat
  /\ forall b', b' ∈ (cut_out_overlaps target_gdf overlay_gdf).1 ->
       exists b, b ∈ target_gdf /\ attrs b' = attrs b
         /\ within (geom b') (geom b)
         /\ area (geom b') <= area (geom b)
         /\ (overlay_gdf ≠ [] -> is_empty (geom b') = false).
Proof.
  split_and!.
  - rewrite cut_out_overlaps_rows. destruct (_ || _); [done | apply length_omap_le].
  - unfold cut_out_overlaps. destruct (_ || _); [simpl; lia|].
    destruct (foldl_cut_row_count overlay_gdf target_gdf ([], 0%nat)) as [Hb _].
    simpl in Hb. lia.
  - intros b' Hb'.
    destruct (cut_out_overlaps_elem _ _ _ Hb') as (b & Hb & Hattrs & Hgeom).
    assert (within (geom b') (geom b)) as Hw.
    { rewrite Hgeom, resolved_geometry_fold. apply foldl_cut_geom_within. }
    exists b. split_and!; [done|done|done|by apply area_mono|].
    intros Hne. rewrite cut_out_overlaps_rows in Hb'.
    destruct (bool_decide (length target_gdf = 0%nat)) eqn:HT.
    { apply bool_decide_eq_true, length_zero_iff_nil in HT. subst target_gdf.
      by apply elem_of_nil in Hb. }
    destruct (bool_decide (length overlay_gdf = 0%nat)) eqn:HO.
    { by apply bool_decide_eq_true, length_zero_iff_nil in HO. }
    cbn [orb] in Hb'. apply list_elem_of_omap in Hb' as (b0 & _ & Hres).
    unfold resolve_row in Hres.
    destruct (is_empty (resolved_geometry overlay_gdf (geom b0))) eqn:Hem; [done|].
    by injection Hres as <-.
Qed.

(** X2. When a pass counts no overlap it has changed nothing: it returns
    the target rows as they are, less the rows whose geometry is empty. *)
Theorem no_overlap_counted_no_change (target_gdf overlay_gdf : list Row) :
  target_gdf ≠ [] -> overlay_gdf ≠ [] ->
  (cut_out_overlaps target_gdf overlay_gdf).2 = 0%nat ->
  (cut_out_overlaps target_gdf overlay_gdf).1
  = filter (fun t => is_empty (geom t) = false) target_gdf.
Proof.
  intros HT HO. unfold cut_out_overlaps.
  rewrite (bool_decide_eq_false_2 (length target_gdf = 0%nat))
    by (by intros ?%length_zero_iff_nil).
  rewrite (bool_decide_eq_false_2 (length overlay_gdf = 0%nat))
    by (by intros ?%length_zero_iff_nil).
  cbn [orb]. intros Hc.
  destruct (foldl_cut_row_count overlay_gdf target_gdf ([], 0%nat)) as [_ Hs].
  by rewrite (Hs Hc).
Qed.

(** Nothing is cut out of an empty geometry. *)
Lemma cut_geom_empty (m : G) (a : Row) : is_empty m = true -> cut_geom m a = m.
Proof.
  intros Hem. unfold cut_geom. rewrite cut_cond_area.
  assert (area (intersection m (geom a)) = 0) as ->.
  { apply area_null. intros p. rewrite covers_intersection.
    by rewrite (is_empty_covers m p Hem). }
  by rewrite (proj2 (gtb_false _ _) cut_threshold_nonneg).
Qed.

Lemma foldl_cut_geom_empty (l : list Row) (m : G) :
  is_empty m = true -> foldl cut_geom m l = m.
Proof.
  induction l as [|a l IH]; intros Hem; [done|].
  cbn [foldl]. rewrite cut_geom_empty by done. by apply IH.
Qed.

Lemma foldl_cut_geom_fixed (l : list Row) (m : G) :
  (forall a, a ∈ l -> area (intersection m (geom a)) <= cut_threshold) ->
  foldl cut_geom m l = m.
Proof.
  intros Hle. rewrite <- (foldl_cut_step_geom l m false 0%nat).
  by rewrite foldl_cut_step_fixed.
Qed.

Lemma length_omap_lt {A B} (f : A -> option B) (l : list A) (x : A) :
  x ∈ l -> f x = None -> (length (omap f l) < length l)%nat.
Proof.
  induction l as [|y l IH]; intros Hx Hnone; [by apply elem_of_nil in Hx|].
  change (omap f (y :: l)) with (match f y with Some z => z :: omap f l | None => omap f l end).
  apply elem_of_cons in Hx as [<-|Hx].
  - rewrite Hnone. pose proof (length_omap_le f l). cbn [length]. lia.
  - specialize (IH Hx Hnone). destruct (f y); cbn [length]; lia.
Qed.

(** X3. A target that lies wholly within an overlay, and is larger than
    the threshold, is removed by the pass (the "completely removed by
    overlay" path): when no earlier overlay of the frame cuts it, the
    cut against that overlay leaves it empty, no row is returned for it,
    and the pass returns fewer rows than it was given. *)
Theorem swallowed_target_dropped (target_gdf pre post : list Row) (a b : Row) :
  b ∈ target_gdf ->
  polygonal (geom b) = true -> is_valid (geom b) = true ->
  within (geom b) (geom a) ->
  cut_threshold < area (geom b) ->
  (forall a', a' ∈ pre -> area (intersection (geom b) (geom a')) <= cut_threshold) ->
  is_empty (resolved_geometry (pre ++ a :: post) (geom b)) = true
  /\ resolve_row (pre ++ a :: post) b = None
  /\ (length (cut_out_overlaps target_gdf (pre ++ a :: post)).1 < length target_gdf)%nat.
Proof.
  intros Hb Hpoly Hvalid Hwithin Harea Hpre.
  assert (is_empty (resolved_geometry (pre ++ a :: post) (geom b)) = true) as Hem.
  { rewrite resolved_geometry_fold, foldl_app. cbn [foldl].
    rewrite (foldl_cut_geom_fixed pre) by done.
    assert (cut_geom (geom b) a = difference (geom b) (geom a)) as ->.
    { unfold cut_geom. rewrite cut_cond_area.
      assert (area (intersection (geom b) (geom a)) = area (geom b)) as ->.
      { apply area_same_region. intros p. rewrite covers_intersection.
        specialize (Hwithin p). destruct (covers (geom b) p); [|done].
        by rewrite Hwithin. }
      by rewrite (proj2 (gtb_true _ _) Harea). }
    pose proof (difference_empty (geom b) (geom a) Hpoly Hvalid Hwithin) as Hd.
    by rewrite foldl_cut_geom_empty. }
  assert (resolve_row (pre ++ a :: post) b = None) as Hnone.
  { unfold resolve_row. by rewrite Hem. }
  split_and!; [done|done|].
  rewrite cut_out_overlaps_rows.
  rewrite (bool_decide_eq_false_2 (length target_gdf = 0%nat)).
  2:{ intros Hl%length_zero_iff_nil. subst. by apply elem_of_nil in Hb. }
  rewrite (bool_decide_eq_false_2 (length (pre ++ a :: post) = 0%nat)).
  2:{ rewrite length_app. simpl. lia. }
  cbn [orb]. by apply (length_omap_lt _ _ b).
Qed.

End Cuts.

(** *** The verification scan as a list of pairs *)

Section Scan.
Context {Shape : Type} `{E : OverlayEngine Shape}.

Local Abbreviation G := (geometry Shape).
Local Abbreviation Row := (Feature (geometry Shape)).

Variable use_sindex : list Row -> bool.
Variable sindex_intersection : list Row -> G -> list nat.
Variable intersection_raises : G -> G -> bool.

(** What [check_pair] appends for the candidate [jf], if anything. *)
Definition pair_overlap (i : nat) (feature_i : Row) (jf : nat * Row)
  : option (@Overlap Shape) :=
  if bool_decide (jf.1 <= i)%nat then None
  else if is_empty (geom jf.2) then None
  else if intersects (geom feature_i) (geom jf.2)
          && negb (touches (geom feature_i) (geom jf.2)) then
    if intersection_raises (geom feature_i) (geom jf.2) then None
    else if gtb (area (intersection (geom feature_i) (geom jf.2))) verify_threshold
    then Some (mkOverlap i jf.1 (cell feature_i "RB_Type_L3") (cell jf.2 "RB_Type_L3")
                         (intersection (geom feature_i) (geom jf.2)))
    else None
  else None.

(** The rows that row [i] is compared with. *)
Definition possible_matches (gdf : list Row) (feature_i : Row) : option (list (nat * Row)) :=
  if use_sindex gdf then iloc gdf (sindex_intersection gdf (geom feature_i))
  else Some (iterrows gdf).

(** What one pass of the outer loop appends. *)
Definition row_overlaps (gdf : list Row) (ifeat : nat * Row) : option (list (@Overlap Shape)) :=
  if is_empty (geom ifeat.2) then Some []
  else
    match possible_matches gdf ifeat.2 with
    | Some pm => Some (omap (pair_overlap ifeat.1 ifeat.2) pm)
    | None => None
    end.

Lemma check_pair_app i fi (overlaps : list (@Overlap Shape)) jf :
  check_pair intersection_raises i fi overlaps jf
  = overlaps ++ option_list (pair_overlap i fi jf).
Proof.
  destruct jf as [j fj]. unfold check_pair, pair_overlap. cbn [fst snd].
  case_bool_decide; [by rewrite app_nil_r|].
  destruct (is_empty (geom fj)); [by rewrite app_nil_r|].
  destruct (_ && _); [|by rewrite app_nil_r].
  destruct (intersection_raises _ _); [by rewrite app_nil_r|].
  destruct (gtb _ _); [done | by rewrite app_nil_r].
Qed.

Lemma foldl_check_pair i fi (overlaps : list (@Overlap Shape)) pm :
  foldl (check_pair intersection_raises i fi) overlaps pm
  = overlaps ++ omap (pair_overlap i fi) pm.
Proof.
  revert overlaps. induction pm as [|jf pm IH]; intros overlaps.
  - by rewrite app_nil_r.
  - cbn [foldl]. rewrite IH, check_pair_app, <- app_assoc. f_equal.
    change (omap (pair_overlap i fi) (jf :: pm))
      with (match pair_overlap i fi jf with
            | Some o => o :: omap (pair_overlap i fi) pm
            | None => omap (pair_overlap i fi) pm
            end).
    by destruct (pair_overlap i fi jf).
Qed.

Lemma scan_row_app gdf (overlaps : list (@Overlap Shape)) ifeat :
  scan_row use_sindex sindex_intersection intersection_raises gdf (Some overlaps) ifeat
  = (fun new => overlaps ++ new) <$> row_overlaps gdf ifeat.
Proof.
  unfold scan_row, row_overlaps, possible_matches. cbn [mbind option_bind].
  destruct (is_empty (geom ifeat.2)).
  { cbn [fmap option_fmap option_map]. by rewrite app_nil_r. }
  destruct (if use_sindex gdf then _ else _) as [pm|]; [|done].
  cbn [mbind option_bind fmap option_fmap option_map]. by rewrite foldl_check_pair.
Qed.

(** The scan is the concatenation, row by row, of what each row adds. *)
Lemma foldl_scan_row gdf (overlaps : list (@Overlap Shape)) todo :
  foldl (scan_row use_sindex sindex_intersection intersection_raises gdf)
        (Some overlaps) todo
  = (fun ls => overlaps ++ mjoin ls) <$> mapM (row_overlaps gdf) todo.
Proof.
  revert overlaps. induction todo as [|ifeat todo IH]; intros overlaps.
  - simpl. by rewrite app_nil_r.
  - cbn [foldl]. rewrite scan_row_app.
    change (mapM (row_overlaps gdf) (ifeat :: todo))
      with (y ← row_overlaps gdf ifeat; k ← mapM (row_overlaps gdf) todo; Some (y :: k)).
    destruct (row_overlaps gdf ifeat) as [new|]; cbn [fmap option_fmap option_map mbind option_bind].
    + rewrite IH. destruct (mapM (row_overlaps gdf) todo) as [ls|]; [|done].
      cbn [fmap option_fmap option_map mbind option_bind].
      change (mjoin (new :: ls)) with (new ++ mjoin ls). by rewrite app_assoc.
    + clear IH. induction todo as [|x todo IH]; [done|]. by cbn [foldl].
Qed.

Lemma identify_overlaps_rows gdf :
  identify_overlaps use_sindex sindex_intersection intersection_raises gdf
  = mjoin <$> mapM (row_overlaps gdf) (iterrows gdf).
Proof. unfold identify_overlaps. by rewrite foldl_scan_row. Qed.


Lemma iterrows_elem (gdf : list Row) j f :
  (j, f) ∈ iterrows gdf <-> gdf !! j = Some f.
Proof.
  split; [apply iterrows_lookup|].
  intros Hl. unfold iterrows. apply elem_of_lookup_imap. by exists j, f.
Qed.

Lemma iterrows_labels (gdf : list Row) : (iterrows gdf).*1 = seq 0 (length gdf).
Proof.
  unfold iterrows. rewrite fmap_imap.
  rewrite (imap_ext _ (fun i _ => i)) by done.
  apply list_eq. intros i. rewrite list_lookup_imap.
  destruct (gdf !! i) as [f|] eqn:Hf; simpl.
  - symmetry. apply lookup_seq. split; [done|]. by eapply lookup_lt_Some.
  - symmetry. apply lookup_seq_ge. by apply lookup_ge_None.
Qed.

Lemma iterrows_NoDup (gdf : list Row) : NoDup (iterrows gdf).
Proof. apply (NoDup_fmap_1 fst). rewrite iterrows_labels. apply NoDup_seq. Qed.

Lemma iloc_elem (gdf : list Row) positions pm j f :
  iloc gdf positions = Some pm ->
  (j, f) ∈ pm <-> j ∈ positions /\ gdf !! j = Some f.
Proof.
  unfold iloc. intros HF%mapM_Some_1. split.
  - intros (idx & Hidx)%list_elem_of_lookup_1.
    destruct (Forall2_lookup_r _ _ _ _ _ HF Hidx) as (k & Hk & Hrow).
    destruct (gdf !! k) as [f0|] eqn:Hf0; [|done].
    cbn in Hrow. injection Hrow as -> ->.
    split; [by eapply list_elem_of_lookup_2 | done].
  - intros [(idx & Hidx)%list_elem_of_lookup_1 Hf].
    destruct (Forall2_lookup_l _ _ _ _ _ HF Hidx) as (y & Hy & Hrow).
    rewrite Hf in Hrow. cbn in Hrow. injection Hrow as <-.
    by eapply list_elem_of_lookup_2.
Qed.

Lemma possible_matches_elem (gdf : list Row) fi pm j fj :
  possible_matches gdf fi = Some pm ->
  (j, fj) ∈ pm
  <-> gdf !! j = Some fj
      /\ (use_sindex gdf = true -> j ∈ sindex_intersection gdf (geom fi)).
Proof.
  unfold possible_matches. destruct (use_sindex gdf).
  - intros Hpm. rewrite (iloc_elem _ _ _ _ _ Hpm). naive_solver.
  - intros [= <-]. rewrite iterrows_elem. naive_solver.
Qed.

Lemma possible_matches_total (gdf : list Row) fi :
  (forall g j, use_sindex gdf = true -> j ∈ sindex_intersection gdf g ->
     (j < length gdf)%nat) ->
  is_Some (possible_matches gdf fi).
Proof.
  intros Hidx. unfold possible_matches.
  destruct (use_sindex gdf) eqn:Hu; [|done].
  apply mapM_is_Some, Forall_forall. intros j Hj. cbn.
  destruct (lookup_lt_is_Some_2 gdf j (Hidx _ _ eq_refl Hj)) as [f ->]. by eexists.
Qed.

(** What the scan reports: two rows in position order, neither empty,
    that intersect and do not merely touch, whose intersection was computed
    and has more area than the verification threshold, the second being
    among the candidates of the first when an index is used. *)
Definition reported (gdf : list Row) (o : @Overlap Shape) : Prop :=
  exists fi fj,
    gdf !! feature_i_id o = Some fi /\ gdf !! feature_j_id o = Some fj
    /\ (feature_i_id o < feature_j_id o)%nat
    /\ is_empty (geom fi) = false /\ is_empty (geom fj) = false
    /\ intersects (geom fi) (geom fj) = true
    /\ touches (geom fi) (geom fj) = false
    /\ intersection_raises (geom fi) (geom fj) = false
    /\ verify_threshold < area (intersection (geom fi) (geom fj))
    /\ (use_sindex gdf = true ->
        feature_j_id o ∈ sindex_intersection gdf (geom fi))
    /\ type_i o = cell fi "RB_Type_L3" /\ type_j o = cell fj "RB_Type_L3"
    /\ overlap_geom o = intersection (geom fi) (geom fj).

Lemma pair_overlap_Some i fi j fj o :
  pair_overlap i fi (j, fj) = Some o
  <-> (i < j)%nat /\ is_empty (geom fj) = false
      /\ intersects (geom fi) (geom fj) = true
      /\ touches (geom fi) (geom fj) = false
      /\ intersection_raises (geom fi) (geom fj) = false
      /\ verify_threshold < area (intersection (geom fi) (geom fj))
      /\ o = mkOverlap i j (cell fi "RB_Type_L3") (cell fj "RB_Type_L3")
                       (intersection (geom fi) (geom fj)).
Proof.
  unfold pair_overlap. cbn [fst snd].
  case_bool_decide as Hji; [split; [done|]; intros (? & _); lia|].
  destruct (is_empty (geom fj)); [split; [done|]; by intros (_ & ? & _)|].
  destruct (intersects (geom fi) (geom fj));
    [|split; [done|]; by intros (_ & _ & ? & _)].
  destruct (touches (geom fi) (geom fj));
    [split; [done|]; by intros (_ & _ & _ & ? & _)|].
  cbn [negb andb].
  destruct (intersection_raises (geom fi) (geom fj));
    [split; [done|]; by intros (_ & _ & _ & _ & ? & _)|].
  destruct (gtb _ _) eqn:Hgt.
  - apply gtb_true in Hgt. split.
    + intros [= <-]. split_and!; try done. lia.
    + by intros (_ & _ & _ & _ & _ & _ & ->).
  - apply gtb_false in Hgt. split; [done|].
    intros (_ & _ & _ & _ & _ & Hlt & _).
    exfalso. by apply (Qclt_not_le _ _ Hlt).
Qed.

Lemma row_overlaps_elem (gdf : list Row) i fi new o :
  gdf !! i = Some fi ->
  row_overlaps gdf (i, fi) = Some new ->
  o ∈ new <-> feature_i_id o = i /\ reported gdf o.
Proof.
  intros Hi. unfold row_overlaps. cbn [fst snd].
  destruct (is_empty (geom fi)) eqn:Hem.
  { intros [= <-]. split; [by intros ?%elem_of_nil|].
    intros [<- (fi' & fj & Hi' & _ & _ & Hne & _)].
    rewrite Hi in Hi'. injection Hi' as <-. by rewrite Hem in Hne. }
  destruct (possible_matches gdf fi) as [pm|] eqn:Hpm; [|done].
  intros [= <-]. rewrite list_elem_of_omap. split.
  - intros ([j fj] & Hin & Hsome).
    apply (possible_matches_elem _ _ _ _ _ Hpm) in Hin as [Hj Hcand].
    apply pair_overlap_Some in Hsome as (Hlt & Hnej & Hint & Htouch & Hraise & Harea & ->).
    cbn. split; [done|]. exists fi, fj. cbn. by split_and!.
  - intros [<- (fi' & fj & Hi' & Hj & Hlt & _ & Hnej & Hint & Htouch & Hraise & Harea
                  & Hcand & Hti & Htj & Hgeom)].
    rewrite Hi in Hi'. injection Hi' as <-.
    exists (feature_j_id o, fj). split.
    + by apply (possible_matches_elem _ _ _ _ _ Hpm).
    + apply pair_overlap_Some. split_and!; try done.
      destruct o. cbn in *. by subst.
Qed.

Lemma NoDup_fmap_omap {A B C} (f : A -> option B) (h : B -> C) (l : list A) :
  (forall x1 x2 y1 y2, x1 ∈ l -> x2 ∈ l -> f x1 = Some y1 -> f x2 = Some y2 ->
     h y1 = h y2 -> x1 = x2) ->
  NoDup l -> NoDup (h <$> omap f l).
Proof.
  intros Hinj Hnd. induction Hnd as [|x l Hx Hnd IH]; [constructor|].
  change (omap f (x :: l)) with (match f x with Some y => y :: omap f l | None => omap f l end).
  assert (NoDup (h <$> omap f l)) as IH'.
  { apply IH. intros x1 x2 y1 y2 H1 H2. apply Hinj; by right. }
  destruct (f x) as [y|] eqn:Hfx; [|done].
  cbn [fmap list_fmap]. constructor; [|done].
  intros (y' & Heq & (x' & Hx' & Hfx')%list_elem_of_omap)%list_elem_of_fmap.
  apply Hx. rewrite (Hinj x x' y y'); [done|by left|by right|done|done|done].
Qed.

Lemma mapM_all_Some {A B} (f : A -> option B) (F : A -> B) (l : list A) :
  (forall x, x ∈ l -> f x = Some (F x)) -> mapM f l = Some (F <$> l).
Proof.
  intros Hf. apply mapM_Some_2. induction l as [|x l IH]; [constructor|].
  cbn [fmap list_fmap]. constructor; [apply Hf; by left|].
  apply IH. intros y Hy. apply Hf. by right.
Qed.

(** Whatever list the scan returns holds exactly the reported pairs. *)
Lemma identify_overlaps_elem (gdf : list Row) (overlaps : list (@Overlap Shape)) :
  identify_overlaps use_sindex sindex_intersection intersection_raises gdf
  = Some overlaps ->
  forall o, o ∈ overlaps <-> reported gdf o.
Proof.
  rewrite identify_overlaps_rows.
  destruct (mapM (row_overlaps gdf) (iterrows gdf)) as [ls|] eqn:Hls; [|done].
  intros [= <-] o. rewrite list_elem_of_join. apply mapM_Some_1 in Hls. split.
  - intros (new & Ho & (idx & Hidx')%list_elem_of_lookup_1).
    destruct (Forall2_lookup_r _ _ _ _ _ Hls Hidx') as ([i fi] & Hifeat & Hrow).
    apply list_elem_of_lookup_2, iterrows_elem in Hifeat.
    by apply (row_overlaps_elem gdf i fi new o Hifeat Hrow).
  - intros Hrep. pose proof Hrep as (fi & fj & Hi & _).
    apply iterrows_elem, list_elem_of_lookup_1 in Hi as [idx Hidx'].
    destruct (Forall2_lookup_l _ _ _ _ _ Hls Hidx') as (new & Hnew & Hrow).
    exists new. split; [|by eapply list_elem_of_lookup_2].
    apply (row_overlaps_elem gdf (feature_i_id o) fi new o); [|done|done].
    by apply iterrows_elem, list_elem_of_lookup_2 with idx.
Qed.

(** X4. The verification scan reports exactly the overlapping pairs: it
    runs to its end when the index names rows of the frame only, and then an
    entry is in its list if and only if it records two rows [i < j], neither
    empty, that intersect without merely touching, with an intersection of
    more than 0.0001 in area (rows that the index does not propose, or
    whose intersection raised, being passed over).  Without an index no
    pair is reported twice. *)
Theorem scan_reports_overlapping_pairs (gdf : list Row) :
  (forall g j, use_sindex gdf = true -> j ∈ sindex_intersection gdf g ->
     (j < length gdf)%nat) ->
  exists overlaps,
    identify_overlaps use_sindex sindex_intersection intersection_raises gdf
    = Some overlaps
    /\ (forall o, o ∈ overlaps <-> reported gdf o)
    /\ (use_sindex gdf = false ->
        NoDup ((fun o => (feature_i_id o, feature_j_id o)) <$> overlaps)).
Proof.
  intros Hidx. rewrite identify_overlaps_rows.
  assert (forall ifeat, ifeat ∈ iterrows gdf -> is_Some (row_overlaps gdf ifeat)) as Htotal.
  { intros [i fi] _. unfold row_overlaps. cbn [fst snd].
    destruct (is_empty (geom fi)); [done|].
    by destruct (possible_matches_total gdf fi Hidx) as [pm ->]. }
  destruct (mapM_is_Some_2 (row_overlaps gdf) (iterrows gdf)) as [ls Hls].
  { by apply Forall_forall. }
  exists (mjoin ls). split; [by rewrite Hls|]. split.
  - apply identify_overlaps_elem. rewrite identify_overlaps_rows. by rewrite Hls.
  - intros Hno.
    set (F := fun ifeat : nat * Row =>
                if is_empty (geom ifeat.2) then []
                else omap (pair_overlap ifeat.1 ifeat.2) (iterrows gdf)).
    assert (mapM (row_overlaps gdf) (iterrows gdf) = Some (F <$> iterrows gdf)) as HF.
    { apply mapM_all_Some. intros [i fi] _. unfold row_overlaps, possible_matches, F.
      rewrite Hno. cbn [fst snd]. by destruct (is_empty (geom fi)). }
    rewrite Hls in HF. injection HF as ->.
    rewrite list_join_bind, list_fmap_bind.
    assert (forall (A B : Type) (h : A -> B) (g : nat * Row -> list A) l,
              h <$> (l ≫= g) = l ≫= (fun x => h <$> g x)) as Hfb.
    { intros A B h g l. induction l as [|x l IH]; [done|].
      cbn [mbind list_bind]. by rewrite fmap_app, IH. }
    rewrite Hfb. apply NoDup_bind; [| |apply iterrows_NoDup].
    + intros [i1 f1] [i2 f2] [i j] H1 H2 Hy1 Hy2. unfold compose, F in Hy1, Hy2.
      cbn [id fst snd] in Hy1, Hy2.
      assert (forall i0 f0, (i, j) ∈ (fun o => (feature_i_id o, feature_j_id o))
                                     <$> (if is_empty (geom f0) then []
                                          else omap (pair_overlap i0 f0) (iterrows gdf)) ->
                            i = i0) as Hfirst.
      { intros i0 f0 (o & Heq & Ho)%list_elem_of_fmap.
        destruct (is_empty (geom f0)); [by apply elem_of_nil in Ho|].
        apply list_elem_of_omap in Ho as ([j' fj'] & _ & Hsome).
        apply pair_overlap_Some in Hsome as (_ & _ & _ & _ & _ & _ & ->).
        cbn in Heq. by injection Heq as -> _. }
      apply Hfirst in Hy1, Hy2. subst i1 i2.
      apply iterrows_elem in H1, H2. rewrite H1 in H2. by injection H2 as ->.
    + intros [i fi] _. unfold compose, F. cbn [id fst snd].
      destruct (is_empty (geom fi)); [constructor|].
      apply NoDup_fmap_omap; [|apply iterrows_NoDup].
      intros [j1 g1] [j2 g2] o1 o2 H1 H2 Ho1 Ho2 Heq.
      apply pair_overlap_Some in Ho1 as (_ & _ & _ & _ & _ & _ & ->).
      apply pair_overlap_Some in Ho2 as (_ & _ & _ & _ & _ & _ & ->).
      cbn in Heq. injection Heq as ->.
      apply iterrows_elem in H1, H2. rewrite H1 in H2. by injection H2 as ->.
Qed.

End Scan.

(** *** The run of the stage *)

Section Run.
Context {Shape : Type} `{E : OverlayEngine Shape}.

Local Abbreviation G := (geometry Shape).
Local Abbreviation Row := (Feature (geometry Shape)).

Variable use_sindex : list Row -> bool.
Variable sindex_intersection : list Row -> G -> list nat.
Variable intersection_raises : G -> G -> bool.

(** [overlap['intersection'].centroid], inside its [try]: [None] where it
    raises, and the record is then left out. *)
Variable centroid : G -> option G.

(** Whether a missing value is read as the float NaN (and not as None). *)
Variable null_is_nan : bool.

(** [sorted([type_i, type_j])] compares the two values once: Python orders
    a string with a string and a number with a number, and raises a
    TypeError for a string against anything else and for None against
    anything. *)
Definition sortable (a b : value) : bool :=
  match a, b with
  | VStr _, VStr _ => true
  | VInt _, VInt _ => true
  | VStr _, _ | _, VStr _ => false
  | _, _ => null_is_nan
  end.

(** The loop over [enumerate(remaining_overlaps)]: the records of the point
    shapefile, or [None] where the summary by type pair raises. *)
Definition point_records (remaining_overlaps : list (@Overlap Shape)) : option (list Row) :=
  if forallb (fun o => sortable (type_i o) (type_j o)) remaining_overlaps
  then Some (omap (fun io : nat * @Overlap Shape =>
                     (fun c => point_record (fun _ => c) io.1 io.2)
                       <$> centroid (overlap_geom io.2))
                  (imap (fun i o => (i, o)) remaining_overlaps))
  else None.

(** [main] with the report on the remaining overlaps in full: the summary
    by type pair is computed, and can raise, before any file is written. *)
Definition main (fs : gmap string (Layer Shape)) : outcome (gmap string (Layer Shape)) :=
  match fs !! input_shapefile with
  | None => Exit "1"
  | Some layer =>
    if bool_decide ("RB_Type_L3" ∈ columns layer) then
      match combine (rows layer) with
      | None => Exit "1"
      | Some result_gdf =>
        match identify_overlaps use_sindex sindex_intersection intersection_raises
                                result_gdf with
        | None => Crash
        | Some remaining_overlaps =>
          match point_records remaining_overlaps with
          | None => Crash
          | Some records =>
            let fs1 :=
              if bool_decide (records = []) then fs
              else <[overlap_points_shapefile := mkLayer point_columns records]> fs in
            Finished (<[output_shapefile := mkLayer (columns layer) result_gdf]> fs1)
          end
        end
      end
    else Exit "1"
  end.

(** Every row is of one of the four kinds that the stage tells apart. *)
Lemma row_kinds (gdf : list Row) (f : Row) :
  f ∈ gdf ->
  f ∈ high_intertidal_of gdf \/ f ∈ platform_coral_of gdf
  \/ f ∈ fringing_coral_of gdf \/ f ∈ other_features_of gdf.
Proof.
  intros Hf. unfold high_intertidal_of, platform_coral_of, fringing_coral_of,
    other_features_of. rewrite !list_elem_of_filter.
  destruct (decide (rb_type f = VStr "High Intertidal Coral Reef")); [by left|].
  destruct (decide (rb_type f = VStr "Platform Coral Reef")); [by right; left|].
  destruct (decide (rb_type f = VStr "Fringing Coral Reef")); [by right; right; left|].
  right; right; right. split; [|done].
  rewrite !elem_of_cons. intros [?|[?|[?|?%elem_of_nil]]]; done.
Qed.

(** X5. The stage stops with "No features left after processing" on an
    empty frame and on no other: whatever the cuts remove, a frame with a
    row in it gives a combined frame with a row in it. *)
Theorem combine_fails_on_empty_frame_only (gdf : list Row) :
  combine gdf = None <-> gdf = [].
Proof.
  unfold combine. cbv zeta. split.
  - case_bool_decide as Hparts; [|done]. intros _.
    destruct gdf as [|f gdf']; [done|]. exfalso.
    set (gdf := f :: gdf') in *.
    assert (mjoin (filter (fun part : list Row => (0 < length part)%nat)
              [(cut_out_overlaps (platform_coral_of gdf) (high_intertidal_of gdf)).1;
               (cut_out_overlaps (fringing_coral_of gdf) (high_intertidal_of gdf)).1;
               high_intertidal_of gdf; other_features_of gdf]) = []) as Hnil
      by (by rewrite Hparts).
    rewrite mjoin_filter_nonempty in Hnil. cbn [mjoin list_join] in Hnil.
    apply app_eq_nil in Hnil as [Hp Hnil]. apply app_eq_nil in Hnil as [Hfr Hnil].
    apply app_eq_nil in Hnil as [Hhi Hnil]. apply app_eq_nil in Hnil as [Hot _].
    rewrite Hhi in Hp, Hfr.
    assert (forall T : list Row, (cut_out_overlaps T []).1 = T) as Hcut.
    { intros T. unfold cut_out_overlaps. cbn [length].
      by rewrite (bool_decide_eq_true_2 (0 = 0)%nat), orb_true_r. }
    rewrite Hcut in Hp, Hfr.
    destruct (row_kinds gdf f) as [Hf|[Hf|[Hf|Hf]]]; [by left|..].
    + rewrite Hhi in Hf. by apply elem_of_nil in Hf.
    + rewrite Hp in Hf. by apply elem_of_nil in Hf.
    + rewrite Hfr in Hf. by apply elem_of_nil in Hf.
    + rewrite Hot in Hf. by apply elem_of_nil in Hf.
  - intros ->. by case_bool_decide.
Qed.


(** X6. A run that finishes, its writes taken to succeed, has written its
    two outputs and nothing else:
    the cleaned frame is at the output path with the columns of the input;
    the point file holds the records of the remaining overlaps when there
    are any and is left as it was otherwise; every other path, the input
    among them, holds what it held before. *)
Theorem run_writes_only_its_outputs (fs fs' : gmap string (Layer Shape)) :
  main fs = Finished fs' ->
  exists layer result_gdf remaining_overlaps records,
    fs !! input_shapefile = Some layer
    /\ combine (rows layer) = Some result_gdf
    /\ identify_overlaps use_sindex sindex_intersection intersection_raises result_gdf
       = Some remaining_overlaps
    /\ point_records remaining_overlaps = Some records
    /\ fs' !! output_shapefile = Some (mkLayer (columns layer) result_gdf)
    /\ fs' !! overlap_points_shapefile
       = (if bool_decide (records = []) then fs !! overlap_points_shapefile
          else Some (mkLayer point_columns records))
    /\ fs' !! input_shapefile = Some layer
    /\ forall path, path ≠ output_shapefile -> path ≠ overlap_points_shapefile ->
         fs' !! path = fs !! path.
Proof.
  unfold main.
  destruct (fs !! input_shapefile) as [layer|] eqn:Hin; [|done].
  case_bool_decide; [|done].
  destruct (combine (rows layer)) as [result_gdf|] eqn:Hc; [|done].
  destruct (identify_overlaps _ _ _ _) as [remaining_overlaps|] eqn:Hid; [|done].
  destruct (point_records remaining_overlaps) as [records|] eqn:Hrec; [|done].
  intros [= <-]. exists layer, result_gdf, remaining_overlaps, records.
  split_and!; try done.
  - apply lookup_insert_eq.
  - rewrite lookup_insert_ne by done. case_bool_decide; [done|].
    apply lookup_insert_eq.
  - rewrite lookup_insert_ne by done. case_bool_decide; [done|].
    by rewrite lookup_insert_ne.
  - intros path Hout Hpts. rewrite lookup_insert_ne by done.
    case_bool_decide; [done|]. by rewrite lookup_insert_ne.
Qed.

(** X7. The report on the remaining overlaps can end the run: when two
    rows of the combined frame still overlap and one of them has a text
    type while the other has none, sorting the pair of types raises, and
    the run dies before it has written the cleaned frame or the points. *)
Theorem unsortable_types_crash (fs : gmap string (Layer Shape)) (layer : Layer Shape)
    (result_gdf : list Row) (o : @Overlap Shape) :
  fs !! input_shapefile = Some layer ->
  "RB_Type_L3" ∈ columns layer ->
  combine (rows layer) = Some result_gdf ->
  reported use_sindex sindex_intersection intersection_raises result_gdf o ->
  (exists t, (type_i o = VStr t /\ type_j o = VNull)
             \/ (type_i o = VNull /\ type_j o = VStr t)) ->
  main fs = Crash.
Proof.
  intros Hin Hcol Hc Hrep Htypes. unfold main.
  rewrite Hin, (bool_decide_eq_true_2 _ Hcol), Hc.
  destruct (identify_overlaps _ _ _ _) as [remaining_overlaps|] eqn:Hid; [|done].
  apply (identify_overlaps_elem _ _ _ _ _ Hid) in Hrep.
  assert (point_records remaining_overlaps = None) as ->; [|done].
  unfold point_records.
  destruct (forallb _ remaining_overlaps) eqn:Hall; [|done].
  rewrite forallb_forall in Hall. apply list_elem_of_In, Hall in Hrep.
  destruct Htypes as (t & [[Hi Hj]|[Hi Hj]]); by rewrite Hi, Hj in Hrep.
Qed.

End Run.
End CleanOverlapsRun.

(** ** 03-v0-3-class-cross-walk.py: the transformation of the frame *)

Module ClassCrossWalk.
Import Geo Disk.

(** [dict(Feat_L3=..., GeoAttach=..., Relief=..., FlowInflu=..., SO_L2=...,
    Paleo=...)] *)
Definition info (feat_l3 geo_attach relief flow_influ so_l2 paleo : value)
  : list (string * value) :=
  [("Feat_L3", feat_l3); ("GeoAttach", geo_attach); ("Relief", relief);
   ("FlowInflu", flow_influ); ("SO_L2", so_l2); ("Paleo", paleo)].

(** The mapping dictionary from [RB_Type_L3] to the new attribute set;
    [pd.NA] is the null value. *)
Definition MAP : list (string * list (string * value)) :=
  [
   ("Platform Coral Reef",
    info (VStr "Coral Reef Shallow") (VStr "Isolated")
         (VStr "High") (VStr "No")
         (VStr "Carbonate") (VStr "No"));
   ("Deep Platform Coral Reef",
    info (VStr "Coral Reef Deep") (VStr "Isolated")
         (VNull) (VStr "No")
         (VStr "Carbonate") (VStr "No"));
   ("Fringing Coral Reef",
    info (VStr "Coral Reef Shallow") (VStr "Fringing")
         (VStr "High") (VStr "No")
         (VStr "Carbonate") (VStr "No"));
   ("High Intertidal Coral Reef",
    info (VStr "High Intertidal Coral Reef") (VStr "Fringing")
         (VStr "High") (VStr "No")
         (VStr "Carbonate") (VStr "No"));
   ("Fringing Shallow Reef Flat",
    info (VStr "Reef Flat Shallow") (VStr "Fringing")
         (VStr "Low") (VStr "No")
         (VStr "Carbonate") (VStr "No"));
   ("Platform Shallow Reef Flat",
    info (VStr "Reef Flat Shallow") (VStr "Isolated")
         (VStr "Low") (VStr "No")
         (VStr "Carbonate") (VStr "No"));
   ("Stromatolite Reef",
    info (VStr "Stromatolite Reef") (VStr "Fringing")
         (VStr "Low") (VStr "No")
         (VStr "Carbonate") (VStr "No"));
   ("Platform Rocky Reef",
    info (VStr "Rocky Reef") (VStr "Isolated")
         (VStr "High") (VStr "No")
         (VStr "Terrigenous") (VStr "No"));
   ("Fringing Rocky Reef",
    info (VStr "Rocky Reef") (VStr "Fringing")
         (VStr "High") (VStr "No")
         (VStr "Terrigenous") (VStr "No"));
   ("Low Relief Rocky Reef",
    info (VStr "Rocky Reef") (VStr "Isolated")
         (VStr "Low") (VStr "No")
         (VStr "Terrigenous") (VStr "No"));
   ("Fringing Paleo Coast Rocky Reef",
    info (VStr "Rocky Reef") (VStr "Isolated")
         (VStr "High") (VStr "No")
         (VStr "Terrigenous") (VStr "Yes"));
   ("Paleo Coast Rocky Reef",
    info (VStr "Rocky Reef") (VStr "Isolated")
         (VStr "High") (VStr "No")
         (VStr "Terrigenous") (VStr "Yes"));
   ("Shallow Sediment",
    info (VStr "Shallow Sediment") (VStr "Fringing")
         (VStr "NA") (VStr "No")
         (VStr "Terrigenous") (VStr "No"));
   ("Sand Bank",
    info (VStr "Sand Bank") (VStr "Isolated")
         (VStr "Medium") (VStr "No")
         (VStr "Terrigenous") (VStr "No"));
   ("Atoll Shallow Patch Coral Reef",
    info (VStr "Coral Reef Shallow") (VStr "Atoll Lagoon")
         (VStr "High") (VStr "No")
         (VStr "Carbonate") (VStr "No"));
   ("Atoll Deep Patch Coral Reef",
    info (VStr "Coral Reef Deep") (VStr "Atoll Lagoon")
         (VStr "Medium") (VStr "No")
         (VStr "Carbonate") (VStr "No"));
   ("Atoll Shallow Rim Coral Reef",
    info (VStr "Coral Reef Shallow") (VStr "Atoll Rim")
         (VStr "High") (VStr "No")
         (VStr "Carbonate") (VStr "No"));
   ("Atoll Shallow Flow Coral Reef",
    info (VStr "Coral Reef Shallow") (VStr "Atoll Rim")
         (VStr "Medium") (VStr "Yes")
         (VStr "Carbonate") (VStr "No"));
   ("Atoll Deep Flow Coral Reef",
    info (VStr "Coral Reef Deep") (VStr "Atoll Rim")
         (VStr "Medium") (VStr "Yes")
         (VStr "Carbonate") (VStr "No"));
   ("Atoll Shallow Platform Coral Reef",
    info (VStr "Coral Reef Shallow") (VStr "Atoll Platform")
         (VStr "High") (VStr "No")
         (VStr "Carbonate") (VStr "No"));
   ("Atoll Deep Platform Coral Reef",
    info (VStr "Coral Reef Deep") (VStr "Atoll Platform")
         (VStr "Medium") (VStr "No")
         (VStr "Carbonate") (VStr "No"));
   ("Atoll Platform",
    info (VStr "Atoll Platform") (VStr "Atoll Platform")
         (VStr "High") (VStr "No")
         (VStr "Carbonate") (VStr "No"));
   ("Vegetated Cay",
    info (VStr "Cay Vegetated") (VStr "Land")
         (VStr "Medium") (VStr "No")
         (VStr "Carbonate") (VStr "No"));
   ("Unvegetated Cay",
    info (VStr "Cay Unvegetated") (VStr "Land")
         (VStr "Medium") (VStr "No")
         (VStr "Carbonate") (VStr "No"));
   ("Island",
    info (VStr "Island") (VStr "Land")
         (VStr "High") (VStr "No")
         (VStr "Terrigenous") (VStr "No"));
   ("Mainland",
    info (VStr "Mainland") (VStr "Land")
         (VStr "High") (VStr "No")
         (VStr "Terrigenous") (VStr "No"));
   ("Man Made",
    info (VStr "Artificial Structure") (VStr "Isolated")
         (VStr "High") (VStr "No")
         (VStr "NA") (VStr "No"))
  ].

(** A dict literal read by key: the first binding of an association list
    whose keys are distinct ([MAP_keys_distinct]). *)
Fixpoint dict_lookup {A} (d : list (string * A)) (k : string) : option A :=
  match d with
  | [] => None
  | (k', v) :: d' => if decide (k' = k) then Some v else dict_lookup d' k
  end.

(** [MAP.get(rb, None)]: only a string can be a key of [MAP]. *)
Definition MAP_get (rb : value) : option (list (string * value)) :=
  match rb with
  | VStr s => dict_lookup MAP s
  | _ => None
  end.

Definition unmapped : list (string * value) :=
  info (VStr "Unknown") (VStr "Unknown") (VStr "Unknown")
       (VStr "Unknown") (VStr "Unknown") (VStr "N").

Definition new_cols : list string :=
  ["Feat_L3"; "GeoAttach"; "Relief"; "FlowInflu"; "SO_L2"; "Paleo"].

(** [keep], less the geometry, which every row of the model has. *)
Definition keep : list string :=
  ["EdgeSrc"; "Notes"; "FeatConf"; "TypeConf"; "EdgeAcc_m";
   "RB_Type_L3"; "DepthCat"; "DepthCatSr"] ++ new_cols.

Definition rename_map : list (string * string) :=
  [("ImgSrc", "EdgeSrc"); ("Edg_acc", "EdgeAcc_m")].

Section Stage.
Context {Shape : Type} `{E : OverlayEngine Shape}.

Local Abbreviation G := (geometry Shape).
Local Abbreviation Row := (Feature (geometry Shape)).

(** [gdf.to_crs(epsg=4326)] on one geometry; the frame is taken to have a
    coordinate reference system, so that the call does not raise. *)
Variable to_crs : G -> G.

(** Python's [str.strip], [str.upper] and [int] on a string ([None] where
    [int] raises). *)
Variable py_strip : string -> string.
Variable py_upper : string -> string.
Variable py_int : string -> option Z.

(** [translate_row]; a row of a frame without the column [RB_Type_L3]
    raises a KeyError ([None]). *)
Definition translate_row (gdf : Layer Shape) (row : Row) : option (list (string * value)) :=
  if bool_decide ("RB_Type_L3" ∈ columns gdf)
  then Some (default unmapped (MAP_get (cell row "RB_Type_L3")))
  else None.

(** [gdf[~gdf.geometry.is_empty & ~gdf.geometry.isna()]]; a row of the
    model always has a geometry. *)
Definition drop_empty (gdf : Layer Shape) : Layer Shape :=
  mkLayer (columns gdf) (filter (fun f => is_empty (geom f) = false) (rows gdf)).

Definition reproject (gdf : Layer Shape) : Layer Shape :=
  mkLayer (columns gdf) ((fun f => set_geometry f (to_crs (geom f))) <$> rows gdf).

(** One entry of [gdf.rename(columns=...)]: nothing happens in a frame
    without the column [old].  Where the frame has both columns pandas is
    left with two columns of the name [new]; a row of the model holds one
    value per name, that of the renamed column, and the facts below are
    stated for frames without such a clash. *)
Definition rename_column (gdf : Layer Shape) (entry : string * string) : Layer Shape :=
  let '(old, new) := entry in
  if bool_decide (old ∈ columns gdf) then
    mkLayer ((fun c => if decide (c = old) then new else c) <$> columns gdf)
            ((fun f => mkFeature
                         (match attrs f !! old with
                          | Some v => <[new := v]> (delete old (attrs f))
                          | None => delete new (attrs f)
                          end)
                         (geom f)) <$> rows gdf)
  else gdf.

Definition rename (gdf : Layer Shape) : Layer Shape := foldl rename_column gdf rename_map.

(** The value written to [EdgeAcc_m] for the raw value of a row. *)
Definition convert_edge_acc (raw : value) : value :=
  match raw with
  | VNull => VNull
  | VInt n => VInt n
  | VStr s =>
      if bool_decide (py_upper (py_strip s) = "NA") || bool_decide (py_strip s = "")
      then VNull
      else match py_int s with
           | Some n => VInt n
           | None => VNull
           end
  end.

(** The loop over the rows that converts [EdgeAcc_m], and the cast of the
    column: both read the column, which has to be there.  Integers are
    unbounded here: the cast to [Int64] is taken to fit. *)
Definition edge_acc_to_int (gdf : Layer Shape) : option (Layer Shape) :=
  if bool_decide ("EdgeAcc_m" ∈ columns gdf) then
    Some (mkLayer (columns gdf)
            ((fun f => MergeRockyReefs.set_attr "EdgeAcc_m"
                         (convert_edge_acc (cell f "EdgeAcc_m")) f) <$> rows gdf))
  else None.

(** [for col in new_cols: gdf[col] = 'Unknown'] *)
Definition add_new_cols (gdf : Layer Shape) : Layer Shape :=
  foldl (fun g col => MergeRockyReefs.set_column col (VStr "Unknown") g) gdf new_cols.

(** [for k, v in attrs.items(): gdf.at[idx, k] = v] *)
Definition set_attrs (kvs : list (string * value)) (f : Row) : Row :=
  foldl (fun r kv => MergeRockyReefs.set_attr kv.1 kv.2 r) f kvs.

(** The loop that populates the new columns from the mapping. *)
Definition populate (gdf : Layer Shape) : option (Layer Shape) :=
  mkLayer (columns gdf)
    <$> mapM (fun f => (fun kvs => set_attrs kvs f) <$> translate_row gdf f) (rows gdf).

(** [gdf[keep]]: a KeyError where a column of [keep] is not in the
    frame. *)
Definition select_keep (gdf : Layer Shape) : option (Layer Shape) :=
  if bool_decide (Forall (fun c => c ∈ columns gdf) keep) then
    Some (mkLayer keep
            ((fun f => mkFeature (filter (fun kv => kv.1 ∈ keep) (attrs f)) (geom f))
               <$> rows gdf))
  else None.

(** [gdf['DebugID'] = ['NW_{}'.format(i) for i in range(len(gdf))]] *)
Definition add_debug_id (gdf : Layer Shape) : Layer Shape :=
  mkLayer (if bool_decide ("DebugID" ∈ columns gdf) then columns gdf
           else columns gdf ++ ["DebugID"])
          (imap (fun i f => MergeRockyReefs.set_attr "DebugID" (VStr ("NW_" +:+ pretty i)) f)
                (rows gdf)).

(** What [main] does to the frame between [load_data] and [to_file];
    [None] where it dies on a KeyError. *)
Definition crosswalk (gdf : Layer Shape) : option (Layer Shape) :=
  let gdf := rename (reproject (drop_empty gdf)) in
  gdf ← edge_acc_to_int gdf;
  gdf ← populate (add_new_cols gdf);
  gdf ← select_keep gdf;
  Some (add_debug_id gdf).

(** [main], with the transformation in full. *)
Definition main (fs : gmap string (Layer Shape)) : outcome (gmap string (Layer Shape)) :=
  if bool_decide (is_Some (fs !! CrossWalk.OUT_PATH))
  then Exit CrossWalk.output_exists_message
  else
    match fs !! CrossWalk.IN_PATH with
    | None => Exit ("Input shapefile not found: " +:+ CrossWalk.IN_PATH)
    | Some gdf =>
        match crosswalk gdf with
        | Some out => Finished (<[CrossWalk.OUT_PATH := out]> fs)
        | None => Crash
        end
    end.

End Stage.

(** *** Facts about the table *)

Lemma MAP_keys_distinct : NoDup (MAP.*1).
Proof. by apply (bool_decide_unpack _). Qed.

Lemma MAP_columns : Forall (fun kv => kv.2.*1 = new_cols) MAP.
Proof. by apply (bool_decide_unpack _). Qed.

Lemma dict_lookup_elem {A} (d : list (string * A)) k v :
  dict_lookup d k = Some v -> (k, v) ∈ d.
Proof.
  induction d as [|[k' v'] d IH]; [done|]. simpl.
  destruct (decide (k' = k)) as [->|_].
  - intros [= ->]. by left.
  - intros H. right. by apply IH.
Qed.

Lemma dict_lookup_None {A} (d : list (string * A)) k :
  dict_lookup d k = None <-> k ∉ d.*1.
Proof.
  induction d as [|[k' v'] d IH]; simpl.
  - split; [intros _; apply not_elem_of_nil | done].
  - destruct (decide (k' = k)) as [->|Hne].
    + split; [done|]. intros Hn. exfalso. apply Hn. by left.
    + rewrite IH, not_elem_of_cons. naive_solver.
Qed.

(** What [translate_row] returns has the six new columns, in order. *)
Lemma info_columns (rb : value) : (default unmapped (MAP_get rb)).*1 = new_cols.
Proof.
  destruct (MAP_get rb) as [i|] eqn:Hget; [|done]. cbn [default].
  destruct rb as [|s|n]; try done. unfold MAP_get in Hget.
  apply dict_lookup_elem in Hget.
  pose proof MAP_columns as Hall. rewrite Forall_forall in Hall.
  exact (Hall _ Hget).
Qed.

Section Facts.
Context {Shape : Type} `{E : OverlayEngine Shape}.

Local Abbreviation G := (geometry Shape).
Local Abbreviation Row := (Feature (geometry Shape)).

Variable to_crs : G -> G.
Variable py_strip : string -> string.
Variable py_upper : string -> string.
Variable py_int : string -> option Z.

Lemma cell_set_attr (f : Row) col v c :
  cell (MergeRockyReefs.set_attr col v f) c = if decide (col = c) then v else cell f c.
Proof.
  unfold cell, MergeRockyReefs.set_attr. cbn [attrs].
  destruct (decide (col = c)) as [->|Hne].
  - by rewrite lookup_insert_eq.
  - by rewrite lookup_insert_ne.
Qed.

Lemma geom_set_attrs kvs (f : Row) : geom (set_attrs kvs f) = geom f.
Proof.
  revert f. induction kvs as [|[k v] kvs IH]; intros f; [done|].
  unfold set_attrs in *. cbn [foldl]. by rewrite IH.
Qed.

Lemma cell_set_attrs kvs (f : Row) c :
  NoDup (kvs.*1) ->
  cell (set_attrs kvs f) c = default (cell f c) (dict_lookup kvs c).
Proof.
  revert f. induction kvs as [|[k v] kvs IH]; intros f Hnd; [done|].
  apply NoDup_cons in Hnd as [Hk Hnd].
  unfold set_attrs in *. cbn [foldl fst snd]. rewrite IH by done.
  cbn [dict_lookup]. rewrite cell_set_attr.
  destruct (decide (k = c)) as [->|Hne]; [|done].
  by rewrite (proj2 (dict_lookup_None kvs c) Hk).
Qed.

(** **** Step by step *)

Definition rename_name (old new c : string) : string :=
  if decide (c = old) then new else c.

Definition rename_row (old new : string) (f : Row) : Row :=
  mkFeature (match attrs f !! old with
             | Some v => <[new := v]> (delete old (attrs f))
             | None => delete new (attrs f)
             end)
            (geom f).

Lemma rename_column_columns (gdf : Layer Shape) old new :
  columns (rename_column gdf (old, new)) = rename_name old new <$> columns gdf.
Proof.
  unfold rename_column. case_bool_decide as Hold; [done|].
  cbn. symmetry. rewrite <- (list_fmap_id (columns gdf)) at 2.
  apply list_fmap_ext. intros i c Hc. unfold rename_name.
  destruct (decide (c = old)) as [->|]; [|done].
  exfalso. apply Hold. by eapply list_elem_of_lookup_2.
Qed.

Lemma rename_column_rows (gdf : Layer Shape) old new :
  rows (rename_column gdf (old, new))
  = (if bool_decide (old ∈ columns gdf) then rename_row old new else id) <$> rows gdf.
Proof.
  unfold rename_column. case_bool_decide; [done|]. by rewrite list_fmap_id.
Qed.

Lemma cell_rename_row old new (f : Row) c :
  old ≠ new ->
  cell (rename_row old new f) c
  = if decide (c = new) then cell f old
    else if decide (c = old) then VNull else cell f c.
Proof.
  intros Hne. unfold cell, rename_row. cbn [attrs].
  destruct (attrs f !! old) as [v|] eqn:Hold.
  - destruct (decide (c = new)) as [->|Hcn]; [by rewrite lookup_insert_eq|].
    rewrite lookup_insert_ne by done.
    destruct (decide (c = old)) as [->|Hco]; [by rewrite lookup_delete_eq|].
    by rewrite lookup_delete_ne.
  - destruct (decide (c = new)) as [->|Hcn]; [by rewrite lookup_delete_eq|].
    rewrite lookup_delete_ne by done.
    destruct (decide (c = old)) as [->|Hco]; [by rewrite Hold | done].
Qed.

(** The column of the input that a column of the renamed frame is read
    from. *)
Definition source_column (gdf : Layer Shape) (c : string) : string :=
  if decide (c = "EdgeSrc") then (if bool_decide ("ImgSrc" ∈ columns gdf) then "ImgSrc" else c)
  else if decide (c = "EdgeAcc_m")
       then (if bool_decide ("Edg_acc" ∈ columns gdf) then "Edg_acc" else c)
       else c.

(** The row-wise part of [rename]. *)
Definition renamed_row (gdf : Layer Shape) (f : Row) : Row :=
  (if bool_decide ("Edg_acc" ∈ columns gdf) then rename_row "Edg_acc" "EdgeAcc_m" else id)
    ((if bool_decide ("ImgSrc" ∈ columns gdf) then rename_row "ImgSrc" "EdgeSrc" else id) f).

Lemma rename_columns (gdf : Layer Shape) :
  columns (rename gdf)
  = rename_name "Edg_acc" "EdgeAcc_m" <$> (rename_name "ImgSrc" "EdgeSrc" <$> columns gdf).
Proof.
  unfold rename. cbn [foldl rename_map]. by rewrite !rename_column_columns.
Qed.

Lemma rename_rows (gdf : Layer Shape) :
  rows (rename gdf) = renamed_row gdf <$> rows gdf.
Proof.
  unfold rename. cbn [foldl rename_map]. rewrite !rename_column_rows.
  rewrite rename_column_columns, <- list_fmap_compose.
  assert (bool_decide ("Edg_acc" ∈ rename_name "ImgSrc" "EdgeSrc" <$> columns gdf)
          = bool_decide ("Edg_acc" ∈ columns gdf)) as ->; [|done].
  apply bool_decide_ext. rewrite list_elem_of_fmap. split.
  - intros (c & Hc & Hin). unfold rename_name in Hc.
    destruct (decide (c = "ImgSrc")); [done | by subst].
  - intros Hin. exists "Edg_acc". by split.
Qed.

Lemma geom_renamed_row (gdf : Layer Shape) (f : Row) : geom (renamed_row gdf f) = geom f.
Proof. unfold renamed_row. by do 2 case_bool_decide. Qed.

(** Reading the renamed frame: the two renamed columns are read from their
    sources, the names renamed away read as null, every other column is
    read as before. *)
Lemma cell_renamed_row (gdf : Layer Shape) (f : Row) c :
  c ≠ "ImgSrc" -> c ≠ "Edg_acc" ->
  cell (renamed_row gdf f) c = cell f (source_column gdf c).
Proof.
  intros H1 H2. unfold renamed_row, source_column.
  destruct (bool_decide ("Edg_acc" ∈ columns gdf));
    destruct (bool_decide ("ImgSrc" ∈ columns gdf)); cbn [id];
    rewrite ?cell_rename_row by done;
    repeat (destruct (decide _) as [?|?]; subst; try done).
Qed.

Lemma set_column_rows (gdf : Layer Shape) col v :
  rows (MergeRockyReefs.set_column col v gdf) = MergeRockyReefs.set_attr col v <$> rows gdf.
Proof. done. Qed.

Lemma set_column_columns (gdf : Layer Shape) col v c :
  c ∈ columns (MergeRockyReefs.set_column col v gdf) <-> c ∈ columns gdf \/ c = col.
Proof.
  unfold MergeRockyReefs.set_column. cbn [columns]. case_bool_decide as Hcol.
  - split; [by left|]. by intros [?| ->].
  - rewrite elem_of_app, list_elem_of_singleton. tauto.
Qed.

Lemma foldl_set_column_rows (gdf : Layer Shape) v (l : list string) :
  rows (foldl (fun g col => MergeRockyReefs.set_column col v g) gdf l)
  = set_attrs ((fun c => (c, v)) <$> l) <$> rows gdf.
Proof.
  revert gdf. induction l as [|col l IH]; intros gdf.
  - cbn. by rewrite list_fmap_id.
  - cbn [foldl]. rewrite IH, set_column_rows, <- list_fmap_compose. done.
Qed.

Lemma foldl_set_column_columns (gdf : Layer Shape) v (l : list string) c :
  c ∈ columns (foldl (fun g col => MergeRockyReefs.set_column col v g) gdf l)
  <-> c ∈ columns gdf \/ c ∈ l.
Proof.
  revert gdf. induction l as [|col l IH]; intros gdf.
  - cbn. split; [by left|]. by intros [?|?%elem_of_nil].
  - cbn [foldl]. rewrite IH, set_column_columns, elem_of_cons. tauto.
Qed.

Lemma populate_spec (gdf : Layer Shape) :
  populate gdf
  = if bool_decide ("RB_Type_L3" ∈ columns gdf)
    then Some (mkLayer (columns gdf)
                 ((fun f => set_attrs (default unmapped (MAP_get (cell f "RB_Type_L3"))) f)
                    <$> rows gdf))
    else if bool_decide (rows gdf = []) then Some (mkLayer (columns gdf) []) else None.
Proof.
  unfold populate, translate_row. case_bool_decide as Hcol.
  - rewrite (CleanOverlapsRun.mapM_all_Some _
      (fun f => set_attrs (default unmapped (MAP_get (cell f "RB_Type_L3"))) f)); done.
  - destruct (rows gdf) as [|f l]; [done|]. by case_bool_decide.
Qed.

(** **** The frame that is written *)

(** The columns that the input has to bring (after the renaming). *)
Definition required : list string :=
  ["EdgeSrc"; "Notes"; "FeatConf"; "TypeConf"; "EdgeAcc_m";
   "RB_Type_L3"; "DepthCat"; "DepthCatSr"].

(** The columns that are carried over under their own name. *)
Definition carried_columns : list string :=
  ["Notes"; "FeatConf"; "TypeConf"; "RB_Type_L3"; "DepthCat"; "DepthCatSr"].

Definition restrict (f : Row) : Row :=
  mkFeature (filter (fun kv => kv.1 ∈ keep) (attrs f)) (geom f).

(** What becomes of the row [f] that is written at position [k]. *)
Definition out_row (gdf : Layer Shape) (k : nat) (f : Row) : Row :=
  let f1 := renamed_row gdf (set_geometry f (to_crs (geom f))) in
  let f2 := MergeRockyReefs.set_attr "EdgeAcc_m"
              (convert_edge_acc py_strip py_upper py_int (cell f1 "EdgeAcc_m")) f1 in
  let f3 := set_attrs ((fun c => (c, VStr "Unknown")) <$> new_cols) f2 in
  let f4 := set_attrs (default unmapped (MAP_get (cell f3 "RB_Type_L3"))) f3 in
  MergeRockyReefs.set_attr "DebugID" (VStr ("NW_" +:+ pretty k)) (restrict f4).

Lemma cell_restrict (f : Row) c :
  cell (restrict f) c = if decide (c ∈ keep) then cell f c else VNull.
Proof.
  unfold cell, restrict. cbn [attrs]. rewrite map_lookup_filter.
  destruct (attrs f !! c) as [v|]; cbn [mbind option_bind default fst];
    [|by destruct (decide _)].
  destruct (decide (c ∈ keep)) as [Hin|Hout].
  - by rewrite option_guard_True.
  - by rewrite option_guard_False.
Qed.


Lemma renamed_row_columns (gdf gdf' : Layer Shape) (f : Row) :
  columns gdf' = columns gdf -> renamed_row gdf' f = renamed_row gdf f.
Proof. unfold renamed_row. by intros ->. Qed.

Lemma rename_columns_of (gdf gdf' : Layer Shape) :
  columns gdf' = columns gdf -> columns (rename gdf') = columns (rename gdf).
Proof. intros Hc. by rewrite !rename_columns, Hc. Qed.

Lemma Forall_required_keep (cols : list string) :
  Forall (fun c => c ∈ cols \/ c ∈ new_cols) keep <-> Forall (fun c => c ∈ cols) required.
Proof.
  unfold keep. fold required. rewrite Forall_app. split.
  - intros [Hreq _]. rewrite Forall_forall in Hreq |- *. intros c Hc.
    destruct (Hreq c Hc) as [?|Hnew]; [done|]. exfalso.
    assert (Forall (fun c => c ∉ new_cols) required) as Hdisj
      by (by apply (bool_decide_unpack _)).
    rewrite Forall_forall in Hdisj. by apply (Hdisj c Hc).
  - intros Hreq. split.
    + eapply Forall_impl; [exact Hreq|]. by left.
    + apply Forall_forall. by right.
Qed.

Lemma bind_Some_eq {A B} (x : A) (f : A -> option B) : Some x ≫= f = f x.
Proof. done. Qed.

Lemma bind_None_eq {A B} (f : A -> option B) : None ≫= f = None.
Proof. done. Qed.

Lemma add_new_cols_rows (g : Layer Shape) :
  rows (add_new_cols g)
  = set_attrs ((fun c => (c, VStr "Unknown")) <$> new_cols) <$> rows g.
Proof. unfold add_new_cols. apply foldl_set_column_rows. Qed.

Lemma add_new_cols_columns (g : Layer Shape) c :
  c ∈ columns (add_new_cols g) <-> c ∈ columns g \/ c ∈ new_cols.
Proof. unfold add_new_cols. apply foldl_set_column_columns. Qed.

Lemma required_RB : "RB_Type_L3" ∈ required.
Proof. by apply (bool_decide_unpack _). Qed.

Lemma required_EdgeAcc : "EdgeAcc_m" ∈ required.
Proof. by apply (bool_decide_unpack _). Qed.

Lemma RB_not_new : "RB_Type_L3" ∉ new_cols.
Proof. by apply (bool_decide_unpack _). Qed.

Lemma DebugID_not_kept : "DebugID" ∉ keep.
Proof. by apply (bool_decide_unpack _). Qed.

Lemma select_keep_spec (g : Layer Shape) (cols : list string) :
  (forall c, c ∈ columns g <-> c ∈ cols \/ c ∈ new_cols) ->
  select_keep g
  = if bool_decide (Forall (fun c => c ∈ cols) required)
    then Some (mkLayer keep (restrict <$> rows g))
    else None.
Proof.
  intros Hcols. unfold select_keep.
  assert (Forall (fun c => c ∈ columns g) keep <-> Forall (fun c => c ∈ cols) required)
    as Hiff.
  { rewrite <- Forall_required_keep.
    split; intros Hall; eapply Forall_impl; try exact Hall; intros c; cbn beta;
      rewrite Hcols; done. }
  by rewrite (bool_decide_ext _ _ Hiff).
Qed.

(** The transformation in one step: it dies exactly when a required column
    is missing after the renaming, and otherwise writes the rows that are
    not empty, each transformed on its own. *)
Lemma crosswalk_spec (gdf : Layer Shape) :
  crosswalk to_crs py_strip py_upper py_int gdf
  = if bool_decide (Forall (fun c => c ∈ columns (rename gdf)) required)
    then Some (mkLayer (keep ++ ["DebugID"])
                 (imap (out_row gdf)
                       (filter (fun f => is_empty (geom f) = false) (rows gdf))))
    else None.
Proof.
  unfold crosswalk.
  assert (columns (rename (reproject to_crs (drop_empty gdf))) = columns (rename gdf))
    as Hcols by by apply rename_columns_of.
  assert (rows (rename (reproject to_crs (drop_empty gdf)))
          = (fun f => renamed_row gdf (set_geometry f (to_crs (geom f))))
              <$> filter (fun f => is_empty (geom f) = false) (rows gdf)) as Hrows.
  { rewrite rename_rows. cbn [rows reproject drop_empty].
    rewrite <- list_fmap_compose. apply list_fmap_ext. intros i f _.
    by apply renamed_row_columns. }
  unfold edge_acc_to_int. rewrite Hcols, Hrows.
  generalize (filter (fun f : Row => is_empty (geom f) = false) (rows gdf)). intros kept.
  destruct (bool_decide ("EdgeAcc_m" ∈ columns (rename gdf))) eqn:Hacc.
  2:{ rewrite bind_None_eq. rewrite bool_decide_eq_false_2; [done|].
      rewrite Forall_forall. intros Hall. apply bool_decide_eq_false in Hacc.
      apply Hacc, Hall, required_EdgeAcc. }
  rewrite bind_Some_eq, populate_spec.
  match goal with |- context [add_new_cols ?g] => set (g1 := g) end.
  assert (forall c, c ∈ columns (add_new_cols g1) <-> c ∈ columns (rename gdf) \/ c ∈ new_cols)
    as Hnew.
  { intros c. by rewrite add_new_cols_columns. }
  destruct (bool_decide (Forall (fun c => c ∈ columns (rename gdf)) required)) eqn:Hreq.
  - apply bool_decide_eq_true in Hreq.
    rewrite (bool_decide_eq_true_2 ("RB_Type_L3" ∈ columns (add_new_cols g1))).
    2:{ apply Hnew. left. rewrite Forall_forall in Hreq. apply Hreq, required_RB. }
    rewrite bind_Some_eq, (select_keep_spec _ (columns (rename gdf))) by done.
    rewrite (bool_decide_eq_true_2 _ Hreq), bind_Some_eq.
    unfold add_debug_id. cbn [columns rows].
    rewrite (bool_decide_eq_false_2 _ DebugID_not_kept).
    f_equal. f_equal. rewrite add_new_cols_rows. subst g1. cbn [rows].
    rewrite <- !list_fmap_compose, imap_fmap. apply imap_ext. intros k f _.
    reflexivity.
  - apply bool_decide_eq_false in Hreq.
    destruct (bool_decide ("RB_Type_L3" ∈ columns (add_new_cols g1))) eqn:Hrb'.
    + rewrite bind_Some_eq, (select_keep_spec _ (columns (rename gdf))) by done.
      by rewrite (bool_decide_eq_false_2 _ Hreq).
    + destruct (bool_decide (rows (add_new_cols g1) = [])); [|by rewrite bind_None_eq].
      rewrite bind_Some_eq, (select_keep_spec _ (columns (rename gdf))) by done.
      by rewrite (bool_decide_eq_false_2 _ Hreq).
Qed.

(** **** Reading the rows that are written *)

Lemma dict_lookup_Some {A} (d : list (string * A)) k v :
  NoDup (d.*1) -> (k, v) ∈ d -> dict_lookup d k = Some v.
Proof.
  induction d as [|[k' v'] d IH]; intros Hnd Hin; [by apply elem_of_nil in Hin|].
  apply NoDup_cons in Hnd as [Hk' Hnd]. cbn [dict_lookup].
  apply elem_of_cons in Hin as [[= -> ->]|Hin]; [by rewrite decide_True|].
  rewrite decide_False; [by apply IH|].
  intros ->. apply Hk'. apply list_elem_of_fmap. by exists (k, v).
Qed.

Lemma new_cols_NoDup : NoDup new_cols.
Proof. by apply (bool_decide_unpack _). Qed.

Lemma new_cols_kept :
  Forall (fun c => (c ∈ keep) /\ c ≠ "DebugID" /\ c ≠ "EdgeAcc_m"
                   /\ c ≠ "ImgSrc" /\ c ≠ "Edg_acc") new_cols.
Proof. by apply (bool_decide_unpack _). Qed.


Lemma unknowns_columns : ((fun c : string => (c, VStr "Unknown")) <$> new_cols).*1 = new_cols.
Proof. done. Qed.

(** The value of a column of a written row. *)
Lemma cell_out_row (gdf : Layer Shape) k (f : Row) c :
  c ≠ "ImgSrc" -> c ≠ "Edg_acc" ->
  cell (out_row gdf k f) c
  = if decide ("DebugID" = c) then VStr ("NW_" +:+ pretty k)
    else if decide (c ∈ keep) then
      default
        (default
           (if decide ("EdgeAcc_m" = c)
            then convert_edge_acc py_strip py_upper py_int
                   (cell f (source_column gdf "EdgeAcc_m"))
            else cell f (source_column gdf c))
           (dict_lookup ((fun c => (c, VStr "Unknown")) <$> new_cols) c))
        (dict_lookup (default unmapped (MAP_get (cell f "RB_Type_L3"))) c)
    else VNull.
Proof.
  intros H1 H2. unfold out_row. cbv zeta.
  rewrite cell_set_attr. destruct (decide ("DebugID" = c)); [done|].
  rewrite cell_restrict. destruct (decide (c ∈ keep)); [|done].
  rewrite cell_set_attrs by (rewrite info_columns; apply new_cols_NoDup).
  rewrite !cell_set_attrs by (rewrite unknowns_columns; apply new_cols_NoDup).
  rewrite (proj2 (dict_lookup_None ((fun c => (c, VStr "Unknown")) <$> new_cols)
                                   "RB_Type_L3"))
    by (rewrite unknowns_columns; apply RB_not_new).
  cbn [default]. rewrite !cell_set_attr.
  rewrite (decide_False (P := "EdgeAcc_m" = "RB_Type_L3")) by done.
  rewrite !cell_renamed_row by done.
  assert (source_column gdf "RB_Type_L3" = "RB_Type_L3") as -> by done.
  done.
Qed.

Lemma geom_out_row (gdf : Layer Shape) k (f : Row) :
  geom (out_row gdf k f) = to_crs (geom f).
Proof.
  unfold out_row. cbv zeta. cbn [geom MergeRockyReefs.set_attr restrict].
  rewrite !geom_set_attrs. cbn [geom MergeRockyReefs.set_attr].
  by rewrite geom_renamed_row.
Qed.

(** Frames in which the renaming meets no column of the new name. *)
Definition no_rename_clash (gdf : Layer Shape) : Prop :=
  ("ImgSrc" ∈ columns gdf -> "EdgeSrc" ∉ columns gdf)
  /\ ("Edg_acc" ∈ columns gdf -> "EdgeAcc_m" ∉ columns gdf).

(** What the written row at position [k] holds, for the row [f] of the
    input it was made from. *)
Definition written_from (gdf : Layer Shape) (k : nat) (f f' : Row) : Prop :=
  geom f' = to_crs (geom f)
  /\ cell f' "DebugID" = VStr ("NW_" +:+ pretty k)
  /\ (forall c, c ∈ carried_columns -> cell f' c = cell f c)
  /\ cell f' "EdgeSrc" = cell f (source_column gdf "EdgeSrc")
  /\ cell f' "EdgeAcc_m"
     = convert_edge_acc py_strip py_upper py_int (cell f (source_column gdf "EdgeAcc_m"))
  /\ (forall c v, (c, v) ∈ default unmapped (MAP_get (cell f "RB_Type_L3")) ->
        cell f' c = v)
  /\ (forall c, c ∉ keep -> c ≠ "DebugID" -> cell f' c = VNull).

Lemma required_kept :
  Forall (fun c => (c ∈ keep) /\ (c ∉ new_cols) /\ c ≠ "DebugID"
                   /\ c ≠ "ImgSrc" /\ c ≠ "Edg_acc") required.
Proof. by apply (bool_decide_unpack _). Qed.

Lemma carried_required : Forall (fun c => (c ∈ required) /\ c ≠ "EdgeAcc_m" /\ c ≠ "EdgeSrc")
                                carried_columns.
Proof. by apply (bool_decide_unpack _). Qed.

Lemma cell_out_row_required (gdf : Layer Shape) k (f : Row) c :
  c ∈ required ->
  cell (out_row gdf k f) c
  = if decide ("EdgeAcc_m" = c)
    then convert_edge_acc py_strip py_upper py_int (cell f (source_column gdf "EdgeAcc_m"))
    else cell f (source_column gdf c).
Proof.
  intros Hc. pose proof required_kept as Hall. rewrite Forall_forall in Hall.
  destruct (Hall c Hc) as (Hkeep & Hnew & Hd & Hi & He).
  rewrite cell_out_row by done.
  rewrite (decide_False (P := "DebugID" = c)) by done.
  rewrite (decide_True (P := c ∈ keep)) by done.
  rewrite (proj2 (dict_lookup_None (default unmapped (MAP_get (cell f "RB_Type_L3"))) c))
    by (by rewrite info_columns).
  rewrite (proj2 (dict_lookup_None ((fun c => (c, VStr "Unknown")) <$> new_cols) c))
    by (by rewrite unknowns_columns).
  done.
Qed.

Lemma out_row_written (gdf : Layer Shape) k (f : Row) :
  written_from gdf k f (out_row gdf k f).
Proof.
  unfold written_from. split_and!.
  - apply geom_out_row.
  - rewrite cell_out_row by done. by rewrite decide_True.
  - intros c Hc. pose proof carried_required as Hall. rewrite Forall_forall in Hall.
    destruct (Hall c Hc) as (Hreq & Ha & Hs).
    rewrite cell_out_row_required by done. rewrite decide_False by done.
    unfold source_column. rewrite decide_False by done. by rewrite decide_False.
  - rewrite cell_out_row_required by (by apply (bool_decide_unpack _)).
    by rewrite decide_False.
  - rewrite cell_out_row_required by apply required_EdgeAcc.
    by rewrite decide_True.
  - intros c v Hcv.
    assert (c ∈ new_cols) as Hc.
    { rewrite <- (info_columns (cell f "RB_Type_L3")). apply list_elem_of_fmap.
      by exists (c, v). }
    pose proof new_cols_kept as Hall. rewrite Forall_forall in Hall.
    destruct (Hall c Hc) as (Hkeep & Hd & Ha & Hi & He).
    rewrite cell_out_row by done.
    rewrite (decide_False (P := "DebugID" = c)) by done.
    rewrite (decide_True (P := c ∈ keep)) by done.
    rewrite (dict_lookup_Some (default unmapped (MAP_get (cell f "RB_Type_L3"))) c v);
      [done| |done].
    rewrite info_columns. apply new_cols_NoDup.
  - intros c Hk Hd. unfold out_row. cbv zeta.
    rewrite cell_set_attr, decide_False by done.
    rewrite cell_restrict. by rewrite decide_False.
Qed.

(** **** The stage as a whole *)

(** The rocky-reef types of the old classification. *)
Definition rocky_types : list string :=
  ["Platform Rocky Reef"; "Fringing Rocky Reef"; "Low Relief Rocky Reef";
   "Fringing Paleo Coast Rocky Reef"; "Paleo Coast Rocky Reef"].

Lemma crosswalk_Some_rows (gdf out : Layer Shape) :
  crosswalk to_crs py_strip py_upper py_int gdf = Some out ->
  out = mkLayer (keep ++ ["DebugID"])
          (imap (out_row gdf) (filter (fun f => is_empty (geom f) = false) (rows gdf))).
Proof.
  rewrite crosswalk_spec. destruct (bool_decide _); [|done]. by intros [= <-].
Qed.

(** X8. The rows that the cross-walk writes: one for every row of the
    input whose geometry is not empty, in the same order, under the columns
    of [keep] followed by [DebugID].  The row at position [k] has the
    reprojected geometry, the identifier ["NW_k"], the carried columns as
    they were, [EdgeSrc] and [EdgeAcc_m] read from the renamed columns (the
    latter null or an integer, never text), the six new columns as the
    mapping gives them for its [RB_Type_L3], and nothing else. *)
Theorem crosswalk_rows (gdf out : Layer Shape) :
  no_rename_clash gdf ->
  crosswalk to_crs py_strip py_upper py_int gdf = Some out ->
  columns out = keep ++ ["DebugID"]
  /\ length (rows out)
     = length (filter (fun f => is_empty (geom f) = false) (rows gdf))
  /\ (forall k f,
        filter (fun f => is_empty (geom f) = false) (rows gdf) !! k = Some f ->
        exists f', rows out !! k = Some f' /\ written_from gdf k f f')
  /\ (forall f', f' ∈ rows out ->
        forall s, cell f' "EdgeAcc_m" ≠ VStr s).
Proof.
  intros _ ->%crosswalk_Some_rows. cbn [columns rows]. split_and!.
  - done.
  - by rewrite length_imap.
  - intros k f Hk. exists (out_row gdf k f). split; [|apply out_row_written].
    by rewrite list_lookup_imap, Hk.
  - intros f' (k & f & -> & Hk)%elem_of_lookup_imap s.
    destruct (out_row_written gdf k f) as (_ & _ & _ & _ & -> & _).
    unfold convert_edge_acc. destruct (cell f _) as [|s0|n]; [done| |done].
    destruct (_ || _); [done|]. by destruct (py_int s0).
Qed.


Lemma NW_inj (i j : nat) : VStr ("NW_" +:+ pretty i) = VStr ("NW_" +:+ pretty j) -> i = j.
Proof. intros [= Heq]. by apply (inj pretty). Qed.

(** X10. The identifiers that the cross-walk assigns are the row numbers:
    the next stage finds the column [DebugID] and creates none of its own,
    the identifier it tracks for the row at position [k] is ["NW_k"], no
    identifier is null and no two rows share one. *)
Theorem crosswalk_identifiers (gdf out : Layer Shape) :
  no_rename_clash gdf ->
  crosswalk to_crs py_strip py_upper py_int gdf = Some out ->
  MergeRockyReefs.with_debug_id out = out
  /\ (forall k row, rows (MergeRockyReefs.tracked out) !! k = Some row ->
        MergeRockyReefs.debug_id row = VStr ("NW_" +:+ pretty k))
  /\ NoDup (MergeRockyReefs.debug_id <$> rows (MergeRockyReefs.tracked out))
  /\ VNull ∉ MergeRockyReefs.debug_id <$> rows (MergeRockyReefs.tracked out).
Proof.
  intros _ ->%crosswalk_Some_rows.
  set (kept := filter (fun f => is_empty (geom f) = false) (rows gdf)).
  assert (MergeRockyReefs.with_debug_id (mkLayer (keep ++ ["DebugID"]) (imap (out_row gdf) kept))
          = mkLayer (keep ++ ["DebugID"]) (imap (out_row gdf) kept)) as Hid.
  { unfold MergeRockyReefs.with_debug_id. cbn [columns].
    rewrite bool_decide_eq_true_2; [done|]. apply elem_of_app. right. by left. }
  assert (forall k row,
            rows (MergeRockyReefs.tracked
                    (mkLayer (keep ++ ["DebugID"]) (imap (out_row gdf) kept))) !! k = Some row ->
            MergeRockyReefs.debug_id row = VStr ("NW_" +:+ pretty k)) as Hrow.
  { intros k row. unfold MergeRockyReefs.tracked. rewrite Hid.
    cbn [rows MergeRockyReefs.set_column]. rewrite list_lookup_fmap, list_lookup_imap.
    destruct (kept !! k) as [f|]; [|done]. cbn. intros [= <-].
    unfold MergeRockyReefs.debug_id. rewrite cell_set_attr, decide_False by done.
    by destruct (out_row_written gdf k f) as (_ & -> & _). }
  split_and!; [done|done| |].
  - apply NoDup_alt. intros i j v. rewrite !list_lookup_fmap.
    destruct (rows _ !! i) as [ri|] eqn:Hi; [|done].
    destruct (rows _ !! j) as [rj|] eqn:Hj; [|done].
    cbn. intros [= <-] [= Heq]. rewrite (Hrow i ri Hi), (Hrow j rj Hj) in Heq.
    symmetry. by apply NW_inj.
  - intros (row & Heq & (k & Hk)%list_elem_of_lookup_1)%list_elem_of_fmap.
    by rewrite (Hrow k row Hk) in Heq.
Qed.

Lemma MAP_rocky :
  Forall (fun kv => dict_lookup kv.2 "Feat_L3" = Some (VStr "Rocky Reef")
                    <-> kv.1 ∈ rocky_types) MAP.
Proof. by apply (bool_decide_unpack _). Qed.

Lemma MAP_known :
  Forall (fun kv => dict_lookup kv.2 "Feat_L3" ≠ Some (VStr "Unknown")) MAP.
Proof. by apply (bool_decide_unpack _). Qed.

Lemma rocky_types_mapped : Forall (fun s => s ∈ MAP.*1) rocky_types.
Proof. by apply (bool_decide_unpack _). Qed.

Lemma MAP_get_elem (rb : value) i :
  MAP_get rb = Some i <-> exists s, rb = VStr s /\ (s, i) ∈ MAP.
Proof.
  split.
  - destruct rb as [|s|n]; [done| |done]. unfold MAP_get.
    intros Hs%dict_lookup_elem. by exists s.
  - intros (s & -> & Hin). unfold MAP_get.
    apply dict_lookup_Some; [apply MAP_keys_distinct | done].
Qed.

(** X11. How the cross-walk classifies: a written row is a rocky reef for
    the next stage ([Feat_L3] is "Rocky Reef") exactly when its
    [RB_Type_L3] is one of the five rocky-reef types, and its [Feat_L3] is
    "Unknown" exactly when its [RB_Type_L3] is no key of the mapping (a
    missing type among them). *)
Theorem crosswalk_classes (gdf out : Layer Shape) (f' : Row) :
  no_rename_clash gdf ->
  crosswalk to_crs py_strip py_upper py_int gdf = Some out ->
  f' ∈ rows out ->
  (MergeRockyReefs.is_rock f' <-> cell f' "RB_Type_L3" ∈ VStr <$> rocky_types)
  /\ (cell f' "Feat_L3" = VStr "Unknown" <-> MAP_get (cell f' "RB_Type_L3") = None).
Proof.
  intros _ ->%crosswalk_Some_rows (k & f & -> & Hk)%elem_of_lookup_imap.
  destruct (out_row_written gdf k f) as (_ & _ & Hcar & _ & _ & Hnew & _).
  rewrite (Hcar "RB_Type_L3") by (by apply (bool_decide_unpack _)).
  unfold MergeRockyReefs.is_rock.
  set (rb := cell f "RB_Type_L3") in *.
  assert (exists v, dict_lookup (default unmapped (MAP_get rb)) "Feat_L3" = Some v
                    /\ cell (out_row gdf k f) "Feat_L3" = v) as (v & Hv & ->).
  { destruct (dict_lookup (default unmapped (MAP_get rb)) "Feat_L3") as [v|] eqn:Hv.
    - exists v. split; [done|]. apply Hnew. by apply dict_lookup_elem.
    - apply dict_lookup_None in Hv. rewrite info_columns in Hv.
      exfalso. apply Hv. by apply (bool_decide_unpack _). }
  pose proof MAP_rocky as Hrocky. pose proof MAP_known as Hknown.
  pose proof rocky_types_mapped as Hmapped.
  rewrite Forall_forall in Hrocky. rewrite Forall_forall in Hknown.
  rewrite Forall_forall in Hmapped.
  destruct (MAP_get rb) as [i|] eqn:Hget.
  - apply MAP_get_elem in Hget as (s & -> & Hin).
    change (dict_lookup i "Feat_L3" = Some v) in Hv. split.
    + rewrite list_elem_of_fmap. split.
      * intros ->. exists s. split; [done|]. by apply (Hrocky (s, i) Hin).
      * intros (s' & [= <-] & Hs'). apply (Hrocky (s, i) Hin) in Hs'.
        cbn [fst snd] in Hs'. rewrite Hv in Hs'. by injection Hs'.
    + split; [|done]. intros ->. by destruct (Hknown (s, i) Hin).
  - change (dict_lookup unmapped "Feat_L3" = Some v) in Hv.
    injection Hv as <-. split; [|done]. split; [done|].
    intros (s & -> & Hs)%list_elem_of_fmap. exfalso.
    apply Hmapped, list_elem_of_fmap in Hs as ([s' i] & -> & Hin).
    assert (MAP_get (VStr s') = Some i) as Hsome by (apply MAP_get_elem; by exists s').
    cbn [fst] in Hget. by rewrite Hsome in Hget.
Qed.

End Facts.
End ClassCrossWalk.

(** ** 04-merge-rocky-reefs.py: what the components are, and which rows the
    stage touches *)

Module MergeRun.
Import Geo Disk MergeRockyReefs.

(** *** The AIMS attributes *)

Section Preparation.
Context {Shape : Type} `{E : OverlayEngine Shape}.

Local Abbreviation Row := (Feature (geometry Shape)).

(** [gdf[c]] at a row, a column that the frame lacks reading as null. *)
Definition column_value (gdf : Layer Shape) (f : Row) (c : string) : value :=
  if decide (c ∈ columns gdf) then cell f c else VNull.

Lemma merge_defaults_distinct : NoDup (default_vals.*1).
Proof. by apply (bool_decide_unpack _). Qed.

Lemma cell_set_null col v (f : Row) c :
  cell (set_attr col v f) c = if decide (c = col) then v else cell f c.
Proof.
  unfold cell, set_attr. cbn [attrs].
  destruct (decide (c = col)) as [->|Hne].
  - by rewrite lookup_insert_eq.
  - by rewrite lookup_insert_ne.
Qed.

Lemma ensure_columns_spec (cs : list string) (L : Layer Shape) :
  (forall c, c ∈ columns (foldl ensure_column L cs) <-> c ∈ columns L \/ c ∈ cs)
  /\ Forall2 (fun f f' : Row =>
                geom f' = geom f
                /\ forall c, c ∈ columns (foldl ensure_column L cs) ->
                     cell f' c = column_value L f c)
             (rows L) (rows (foldl ensure_column L cs)).
Proof.
  revert L. induction cs as [|col cs IH]; intros L.
  - cbn [foldl]. split.
    + intros c. split; [by left|]. intros [?|Hc]; [done|]. by apply elem_of_nil in Hc.
    + apply Forall2_same_length_lookup. split; [done|].
      intros i f f' Hf Hf'. rewrite Hf in Hf'. injection Hf' as <-. split; [done|].
      intros c Hc. unfold column_value. by rewrite decide_True.
  - cbn [foldl]. destruct (IH (ensure_column L col)) as [Hcols Hrows]. split.
    + intros c. rewrite Hcols. unfold ensure_column. rewrite elem_of_cons.
      destruct (bool_decide (col ∈ columns L)) eqn:Hin.
      * apply bool_decide_eq_true in Hin. split; [tauto|].
        intros [?|[->|?]]; tauto.
      * cbn [columns set_column]. rewrite Hin, elem_of_app, list_elem_of_singleton. tauto.
    + apply Forall2_same_length_lookup. apply Forall2_same_length_lookup in Hrows as [Hlen Hrows].
      assert (length (rows (ensure_column L col)) = length (rows L)) as Hlen0.
      { unfold ensure_column. destruct (bool_decide (col ∈ columns L)); [done|].
        cbn [rows set_column]. by rewrite length_fmap. }
      split; [by rewrite <- Hlen|].
      intros i f f' Hf Hf'.
      destruct (lookup_lt_is_Some_2 (rows (ensure_column L col)) i) as [f1 Hf1].
      { rewrite Hlen0. by apply lookup_lt_Some in Hf. }
      destruct (Hrows i f1 f' Hf1 Hf') as [Hg Hcell].
      assert (geom f1 = geom f
              /\ forall c, column_value (ensure_column L col) f1 c = column_value L f c)
        as [Hg1 Hcell1].
      { revert Hf1. unfold ensure_column, column_value.
        destruct (bool_decide (col ∈ columns L)) eqn:Hin.
        - rewrite Hf. by intros [= <-].
        - apply bool_decide_eq_false in Hin. cbn [rows columns set_column].
          rewrite list_lookup_fmap, Hf. intros [= <-]. split; [done|]. intros c.
          rewrite bool_decide_eq_false_2 by done. rewrite cell_set_null.
          destruct (decide (c = col)) as [->|Hne].
          + rewrite decide_True by (apply elem_of_app; right; by apply list_elem_of_singleton).
            by rewrite decide_False.
          + destruct (decide (c ∈ columns L)) as [Hc|Hc].
            * rewrite decide_True; [done|]. apply elem_of_app. by left.
            * rewrite decide_False; [done|].
              rewrite elem_of_app, list_elem_of_singleton. tauto. }
      split; [congruence|]. intros c Hc. rewrite Hcell by done. apply Hcell1.
Qed.

(** What the [fillna] loop leaves in one cell that read [v]. *)
Definition fill_with (kvs : list (string * value)) (c : string) (v : value) : value :=
  foldl (fun v kv => if decide (kv.1 = c) then (if decide (v = VNull) then kv.2 else v)
                     else v) v kvs.

Lemma fill_with_spec (kvs : list (string * value)) c v :
  NoDup (kvs.*1) ->
  (forall d, (c, d) ∈ kvs -> fill_with kvs c v = if decide (v = VNull) then d else v)
  /\ (c ∉ kvs.*1 -> fill_with kvs c v = v).
Proof.
  revert v. induction kvs as [|[k d0] kvs IH]; intros v Hnd.
  - split; [|done]. intros d Hd. by apply elem_of_nil in Hd.
  - apply NoDup_cons in Hnd as [Hk Hnd]. unfold fill_with. cbn [foldl fst snd].
    fold (fill_with kvs c (if decide (k = c) then if decide (v = VNull) then d0 else v else v)).
    split.
    + intros d [[= <- <-]|Hd]%elem_of_cons.
      * rewrite decide_True by done. by apply IH.
      * rewrite decide_False.
        { by apply IH. }
        intros ->. apply Hk. apply list_elem_of_fmap. by exists (c, d).
    + intros Hc. cbn [fmap list_fmap fst] in Hc. apply not_elem_of_cons in Hc as [Hne Hc].
      rewrite decide_False by done. by apply IH.
Qed.

Lemma fillna_fold_spec (kvs : list (string * value)) (L : Layer Shape) :
  columns (foldl fillna L kvs) = columns L
  /\ Forall2 (fun f f' : Row =>
                geom f' = geom f /\ forall c, cell f' c = fill_with kvs c (cell f c))
             (rows L) (rows (foldl fillna L kvs)).
Proof.
  revert L. induction kvs as [|[k d] kvs IH]; intros L.
  - cbn [foldl]. split; [done|]. apply Forall2_same_length_lookup. split; [done|].
    intros i f f' Hf Hf'. rewrite Hf in Hf'. by injection Hf' as <-.
  - cbn [foldl]. destruct (IH (fillna L (k, d))) as [Hcols Hrows]. split; [done|].
    apply Forall2_same_length_lookup. apply Forall2_same_length_lookup in Hrows as [Hlen Hrows].
    cbn [rows fillna] in Hlen. rewrite length_fmap in Hlen. split; [done|].
    intros i f f' Hf Hf'.
    destruct (Hrows i (if bool_decide (cell f k = VNull) then set_attr k d f else f) f')
      as [Hg Hcell]; [|done|].
    { cbn [rows fillna fst snd]. by rewrite list_lookup_fmap, Hf. }
    split.
    + rewrite Hg. by destruct (bool_decide (cell f k = VNull)).
    + intros c. rewrite Hcell. unfold fill_with at 2. cbn [foldl fst snd].
      fold (fill_with kvs c (if decide (k = c) then if decide (cell f c = VNull) then d
                                                    else cell f c else cell f c)).
      f_equal. destruct (decide (k = c)) as [->|Hne].
      * destruct (decide (cell f c = VNull)) as [Hnull|Hval].
        -- rewrite bool_decide_eq_true_2 by done. rewrite cell_set_null.
           by rewrite decide_True.
        -- by rewrite bool_decide_eq_false_2.
      * destruct (bool_decide (cell f k = VNull)); [|done].
        rewrite cell_set_null. by rewrite decide_False.
Qed.

(** X18. Preparing the AIMS layer adds the columns of the NW layer and of
    the defaults that it lacks, keeps every row and its geometry, and fills
    a default only where the cell is empty: a cell that held a value keeps
    it, a column outside the defaults is carried as it was, null when the
    layer lacked it. *)
Theorem prepare_aims_fills_empty_cells (nw_columns : list string) (gdf_aims : Layer Shape) :
  (forall c, c ∈ columns (prepare_aims nw_columns gdf_aims)
             <-> c ∈ columns gdf_aims \/ c ∈ nw_columns \/ c ∈ default_vals.*1)
  /\ length (rows (prepare_aims nw_columns gdf_aims)) = length (rows gdf_aims)
  /\ forall k f, rows gdf_aims !! k = Some f ->
       exists f', rows (prepare_aims nw_columns gdf_aims) !! k = Some f'
         /\ geom f' = geom f
         /\ forall c, c ∈ columns (prepare_aims nw_columns gdf_aims) ->
              (forall d, (c, d) ∈ default_vals ->
                 cell f' c = if decide (column_value gdf_aims f c = VNull) then d
                             else cell f c)
              /\ (c ∉ default_vals.*1 -> cell f' c = column_value gdf_aims f c).
Proof.
  unfold prepare_aims.
  set (a1 := foldl ensure_column gdf_aims nw_columns).
  set (a2 := foldl ensure_column a1 (default_vals.*1)).
  destruct (ensure_columns_spec nw_columns gdf_aims) as [Hc1 Hr1].
  destruct (ensure_columns_spec (default_vals.*1) a1) as [Hc2 Hr2].
  destruct (fillna_fold_spec default_vals a2) as [Hc3 Hr3].
  fold a1 in Hc1, Hr1. fold a2 in Hc2, Hr2.
  apply Forall2_same_length_lookup in Hr1 as [Hl1 Hr1].
  apply Forall2_same_length_lookup in Hr2 as [Hl2 Hr2].
  apply Forall2_same_length_lookup in Hr3 as [Hl3 Hr3].
  assert (forall c, c ∈ columns (foldl fillna a2 default_vals)
                    <-> c ∈ columns gdf_aims \/ c ∈ nw_columns \/ c ∈ default_vals.*1)
    as Hcols.
  { intros c. rewrite Hc3, Hc2, Hc1. tauto. }
  split; [done|]. split; [congruence|].
  intros k f Hf.
  destruct (lookup_lt_is_Some_2 (rows a1) k) as [f1 Hf1];
    [rewrite <- Hl1; by apply lookup_lt_Some in Hf|].
  destruct (lookup_lt_is_Some_2 (rows a2) k) as [f2 Hf2];
    [rewrite <- Hl2; by apply lookup_lt_Some in Hf1|].
  destruct (lookup_lt_is_Some_2 (rows (foldl fillna a2 default_vals)) k) as [f3 Hf3];
    [rewrite <- Hl3; by apply lookup_lt_Some in Hf2|].
  destruct (Hr1 k f f1 Hf Hf1) as [Hg1 Hv1].
  destruct (Hr2 k f1 f2 Hf1 Hf2) as [Hg2 Hv2].
  destruct (Hr3 k f2 f3 Hf2 Hf3) as [Hg3 Hv3].
  exists f3. split; [done|]. split; [congruence|].
  intros c Hc. rewrite Hc3 in Hc.
  assert (cell f2 c = column_value gdf_aims f c) as Hread.
  { rewrite (Hv2 c Hc). unfold column_value at 1.
    destruct (decide (c ∈ columns a1)) as [Hin|Hout]; [by apply Hv1|].
    unfold column_value. rewrite decide_False; [done|].
    intros Hin. apply Hout, Hc1. by left. }
  rewrite Hv3, Hread.
  destruct (fill_with_spec default_vals c (column_value gdf_aims f c)
              merge_defaults_distinct) as [Hdef Hother].
  split; [|done]. intros d Hd. rewrite (Hdef d Hd).
  destruct (decide (column_value gdf_aims f c = VNull)) as [|Hval]; [done|].
  unfold column_value in *. by destruct (decide (c ∈ columns gdf_aims)).
Qed.

End Preparation.

(** *** Components of the connection graph *)

Section Graph.

(** Python iterates over a set by going through its members, each once in
    some order. *)
Variable set_order : gset nat -> list nat.
Hypothesis set_order_elem : forall (s : gset nat) x, x ∈ set_order s <-> x ∈ s.

(** [b in graph[a]] *)
Definition edge (g : graph) (a b : nat) : Prop :=
  exists s, dict_get g a = Some s /\ b ∈ s.

Definition symmetric (g : graph) : Prop := forall a b, edge g a b -> edge g b a.

Lemma neighbours_edge (g : graph) a b : b ∈ neighbours set_order g a <-> edge g a b.
Proof.
  unfold neighbours, edge. destruct (dict_get g a) as [s|].
  - rewrite set_order_elem. split; [by exists s|]. by intros (s' & [= <-] & Hb).
  - split; [by intros ?%elem_of_nil|]. by intros (s' & ? & _).
Qed.

Lemma dict_get_key (g : graph) k s : dict_get g k = Some s -> k ∈ g.*1.
Proof.
  intros Hg%dict_get_elem. apply list_elem_of_fmap. by exists (k, s).
Qed.

(** Every node of [v] outside [S] has all its neighbours in [v]. *)
Definition closed_except (g : graph) (v S : gset nat) : Prop :=
  forall x y, x ∈ v -> x ∉ S -> edge g x y -> y ∈ v.

Lemma dfs_closed fuel (g : graph) node v c st (S : gset nat) :
  dfs set_order fuel g node (v, c) = Some st -> node ∉ v ->
  closed_except g v S -> closed_except g st.1 S.
Proof.
  revert node v c st S. induction fuel as [|fuel IH]; intros node v c st S Hdfs Hnode Hcl;
    [done|].
  cbn [dfs] in Hdfs.
  set (P := fun (pre : list nat) (st' : gset nat * list nat) =>
              {[node]} ∪ v ⊆ st'.1
              /\ closed_except g st'.1 (S ∪ {[node]})
              /\ list_to_set pre ⊆ st'.1).
  assert (P (neighbours set_order g node) st) as (Hsub & Hcl' & Hpre).
  { revert Hdfs. apply (foldl_option_ind _ P); unfold P; [done| |].
    - cbn [fst]. split_and!; [done| |set_solver].
      intros x y Hx HxS Hedge. apply elem_of_union. right.
      apply (Hcl x y); [set_solver|set_solver|done].
    - intros pre b post [v0 c0] a1 _ (Hsub0 & Hcl0 & Hpre0). cbn [mbind option_bind fst].
      destruct (decide (b ∈ v0)) as [Hb|Hb].
      + intros [= <-]. cbn [fst]. split_and!; [done|done|].
        rewrite list_to_set_app_L. set_solver.
      + intros Hrec. pose proof (IH _ _ _ _ _ Hrec Hb Hcl0) as Hcl1.
        apply dfs_spec in Hrec as (new & _ & Hv1 & _); [|done].
        cbn [fst] in Hv1. split_and!; [set_solver|done|].
        rewrite list_to_set_app_L, Hv1. set_solver. }
  intros x y Hx HxS Hedge. destruct (decide (x = node)) as [->|Hne].
  - apply Hpre, elem_of_list_to_set. by apply neighbours_edge.
  - apply (Hcl' x y); [done|set_solver|done].
Qed.

(** Every node that a call of [dfs] adds is reached from its start node. *)
Lemma dfs_reach fuel (g : graph) node v c st :
  dfs set_order fuel g node (v, c) = Some st ->
  forall x, x ∈ st.2 -> x ∈ c \/ rtc (edge g) node x.
Proof.
  revert node v c st. induction fuel as [|fuel IH]; intros node v c st Hdfs; [done|].
  cbn [dfs] in Hdfs. revert Hdfs.
  apply (foldl_option_inv _
    (fun st' : gset nat * list nat => forall x, x ∈ st'.2 -> x ∈ c \/ rtc (edge g) node x)).
  - done.
  - cbn [snd]. intros x [Hx|Hx]%elem_of_app; [by left|].
    apply list_elem_of_singleton in Hx as ->. by right.
  - intros b [v0 c0] a1 Hb Hc0. cbn [mbind option_bind fst].
    destruct (decide (b ∈ v0)); [by intros [= <-]|].
    intros Hrec x Hx. destruct (IH _ _ _ _ Hrec x Hx) as [Hin|Hreach]; [by apply Hc0|].
    right. eapply rtc_l; [|exact Hreach]. by apply neighbours_edge.
Qed.

(** What the loop over the keys has established: the components seen so
    far hold every key gone through, each is reached from its first member,
    and an edge from a member of a component leads into that component or an
    earlier one. *)
Definition traversed (g : graph) (pre : list nat) (st : gset nat * list (list nat)) : Prop :=
  st.1 = list_to_set (mjoin st.2)
  /\ list_to_set pre ⊆ st.1
  /\ closed_except g st.1 ∅
  /\ (forall i c, st.2 !! i = Some c ->
        (exists p rest, c = p :: rest /\ p ∈ g.*1 /\ forall x, x ∈ c -> rtc (edge g) p x)
        /\ forall a b, a ∈ c -> edge g a b ->
             exists j c', (j <= i)%nat /\ st.2 !! j = Some c' /\ b ∈ c').

Lemma find_connected_components_traversed (g : graph) components :
  find_connected_components set_order g = Some components ->
  traversed g (g.*1) (list_to_set (mjoin components), components).
Proof.
  unfold find_connected_components.
  destruct (foldl _ _ _) as [[visited comps]|] eqn:Hfold; [|done].
  cbn. intros [= <-].
  assert (traversed g (g.*1) (visited, comps)) as Htr.
  { revert Hfold. apply (foldl_option_ind _ (traversed g)); [done| |].
    - split_and!; [done|set_solver|by intros x y ?%elem_of_empty|].
      intros i c Hi. cbn [snd] in Hi. by rewrite lookup_nil in Hi.
    - intros pre b post [v0 cs0] a1 Hkeys (Hv & Hpre & Hcl & Hcomps).
      unfold visit. cbn [mbind option_bind fst snd] in *.
      destruct (decide (b ∈ v0)) as [Hb|Hb].
      { intros [= <-]. split_and!; [done| |done|done].
        rewrite list_to_set_app_L. set_solver. }
      destruct (dfs set_order _ g b (v0, [])) as [[v1 c1]|] eqn:Hdfs; [|done].
      cbn [mbind option_bind fst snd]. intros [= <-].
      pose proof (dfs_closed _ _ _ _ _ _ ∅ Hdfs Hb Hcl) as Hcl1.
      pose proof (dfs_reach _ _ _ _ _ _ Hdfs) as Hreach.
      apply dfs_spec in Hdfs as (new & Hc1 & Hv1 & _); [|done].
      cbn [fst snd] in *. rewrite app_nil_l in Hc1. subst c1.
      assert (v1 = list_to_set (mjoin (cs0 ++ [b :: new]))) as Hv1'.
      { rewrite join_app, list_to_set_app_L, Hv1, Hv. cbn [mjoin list_join].
        rewrite app_nil_r. set_solver. }
      split_and!; [done| |done|].
      + rewrite list_to_set_app_L, Hv1. set_solver.
      + intros i c Hi. apply lookup_app_Some in Hi as [Hi|[Hlen Hi]].
        * destruct (Hcomps i c Hi) as [Hfirst Hedges]. split; [done|].
          intros a b' Ha Hedge. destruct (Hedges a b' Ha Hedge) as (j & c' & Hj & Hc' & Hb').
          exists j, c'. split_and!; [done| |done]. by apply lookup_app_l_Some.
        * apply list_lookup_singleton_Some in Hi as [Hi <-].
          assert (i = length cs0) as -> by lia. split.
          -- exists b, new. split_and!; [done| |].
             ++ rewrite Hkeys. apply elem_of_app. right. by left.
             ++ intros x Hx. destruct (Hreach x Hx) as [?%elem_of_nil|?]; done.
          -- intros a b' Ha Hedge.
             assert (b' ∈ v1) as Hb'.
             { apply (Hcl1 a b'); [|set_solver|done]. rewrite Hv1. set_solver. }
             rewrite Hv1' in Hb'. apply elem_of_list_to_set, list_elem_of_join in Hb'
               as (c' & Hb' & (j & Hj)%list_elem_of_lookup_1).
             exists j, c'. split_and!; [|done|done].
             apply lookup_lt_Some in Hj. rewrite length_app in Hj. cbn in Hj. lia. }
  destruct Htr as (Hv & Hrest). cbn [fst snd] in *. subst visited. by split.
Qed.

Lemma NoDup_join_lookup {A} (ls : list (list A)) i j l l' x :
  NoDup (mjoin ls) -> ls !! i = Some l -> ls !! j = Some l' -> x ∈ l -> x ∈ l' -> i = j.
Proof.
  revert i j. induction ls as [|l0 ls IH]; intros i j Hnd Hi Hj Hx Hx'; [done|].
  cbn [mjoin list_join] in Hnd. apply NoDup_app in Hnd as (_ & Hdisj & Hnd).
  destruct i as [|i], j as [|j]; cbn in Hi, Hj.
  - done.
  - injection Hi as ->. exfalso. apply (Hdisj x Hx).
    apply list_elem_of_join. exists l'. split; [done|]. by eapply list_elem_of_lookup_2.
  - injection Hj as ->. exfalso. apply (Hdisj x Hx').
    apply list_elem_of_join. exists l. split; [done|]. by eapply list_elem_of_lookup_2.
  - f_equal. by apply IH.
Qed.

(** In a symmetric graph the components are the connected classes: no
    node is in two of them, every key is in one, and a component holds
    exactly the nodes that can be reached from its first member. *)
Lemma components_classes (g : graph) components :
  symmetric g ->
  find_connected_components set_order g = Some components ->
  NoDup (mjoin components)
  /\ (forall k, k ∈ g.*1 -> exists c, c ∈ components /\ k ∈ c)
  /\ forall c, c ∈ components ->
       exists p rest, c = p :: rest /\ p ∈ g.*1
         /\ forall x, x ∈ c <-> rtc (edge g) p x.
Proof.
  intros Hsym Hcc.
  pose proof (find_connected_components_spec set_order g components Hcc) as [Hnd _].
  destruct (find_connected_components_traversed g components Hcc)
    as (_ & Hkeys & _ & Hcomps). cbn [fst snd] in *.
  assert (forall i c a b, components !! i = Some c -> a ∈ c -> edge g a b -> b ∈ c)
    as Hstay.
  { intros i c a b Hi Ha Hedge.
    destruct (Hcomps i c Hi) as [_ Hedges].
    destruct (Hedges a b Ha Hedge) as (j & c' & Hj & Hc' & Hb).
    destruct (Hcomps j c' Hc') as [_ Hedges'].
    destruct (Hedges' b a Hb (Hsym a b Hedge)) as (j' & c'' & Hj' & Hc'' & Ha').
    assert (i = j') as <- by by eapply (NoDup_join_lookup components).
    assert (i = j) as <- by lia. rewrite Hi in Hc'. by injection Hc' as <-. }
  split_and!; [done| |].
  - intros k Hk.
    assert (k ∈ mjoin components) as (c & Hkc & Hc)%list_elem_of_join.
    { apply (elem_of_list_to_set (C := gset nat)), Hkeys. by apply elem_of_list_to_set. }
    by exists c.
  - intros c (i & Hi)%list_elem_of_lookup_1.
    destruct (Hcomps i c Hi) as [(p & rest & -> & Hp & Hreach) _].
    exists p, rest. split_and!; [done|done|]. intros x. split; [apply Hreach|].
    revert x. apply rtc_ind_r; [by left|].
    intros y z _ Hedge Hy. by eapply (Hstay i).
Qed.

End Graph.
(** *** What the tagging loop records *)

Section Tagging.
Context {Shape : Type} `{E : OverlayEngine Shape}.

Local Abbreviation G := (geometry Shape).
Local Abbreviation Row := (Feature (geometry Shape)).

Variable sindex_intersection : list Row -> G -> list nat.

Lemma dict_get_setdefault_add (g : graph) k x a :
  dict_get (setdefault_add g k x) a
  = if decide (a = k) then Some ({[x]} ∪ default ∅ (dict_get g k)) else dict_get g a.
Proof.
  induction g as [|[k' s'] g IH]; cbn [setdefault_add dict_get].
  - destruct (decide (a = k)) as [->|Hne].
    + rewrite decide_True by done. f_equal. cbn. set_solver.
    + rewrite decide_False; [done|]. by intros ->.
  - destruct (decide (k' = k)) as [->|Hk']; cbn [dict_get].
    + destruct (decide (a = k)) as [->|Hne].
      * by rewrite decide_True.
      * rewrite !decide_False; [done|by intros ->|by intros ->].
    + rewrite IH. destruct (decide (a = k)) as [->|Hne]; [|done].
      by rewrite !decide_False.
Qed.

Lemma edge_setdefault_add (g : graph) k x a b :
  edge (setdefault_add g k x) a b <-> edge g a b \/ (a = k /\ b = x).
Proof.
  unfold edge. rewrite dict_get_setdefault_add.
  destruct (decide (a = k)) as [->|Hne].
  - split.
    + intros (s & [= <-] & [Hb|Hb]%elem_of_union).
      * right. split; [done|]. by apply elem_of_singleton in Hb.
      * left. destruct (dict_get g k) as [s|]; [by exists s | by apply elem_of_empty in Hb].
    + intros [(s & Hs & Hb)|[_ ->]]; eexists; (split; [done|]).
      * rewrite Hs. cbn. set_solver.
      * set_solver.
  - split; [by left|]. by intros [?|[? _]].
Qed.

Lemma keys_setdefault_add (g : graph) k x a :
  a ∈ (setdefault_add g k x).*1 <-> a ∈ g.*1 \/ a = k.
Proof.
  induction g as [|[k' s'] g IH]; cbn [setdefault_add].
  - cbn. rewrite list_elem_of_singleton, elem_of_nil. tauto.
  - destruct (decide (k' = k)) as [->|Hne]; cbn [fmap list_fmap fst].
    + rewrite !elem_of_cons. naive_solver.
    + rewrite !elem_of_cons, IH. tauto.
Qed.

Lemma keys_connect_touched (l : list nat) (g : graph) a :
  a ∈ (connect_touched l g).*1 -> a ∈ g.*1 \/ a ∈ l.
Proof.
  unfold connect_touched.
  apply (foldl_inv _ (fun g' : graph => a ∈ g'.*1 -> a ∈ g.*1 \/ a ∈ l)); [by left|].
  intros g1 idx1 Hidx1 Hg1.
  apply (foldl_inv _ (fun g' : graph => a ∈ g'.*1 -> a ∈ g.*1 \/ a ∈ l)); [done|].
  intros g2 idx2 Hidx2 Hg2. destruct (decide (idx1 ≠ idx2)); [|done].
  rewrite !keys_setdefault_add. intros [[?| ->]| ->]; [by apply Hg2|by right|by right].
Qed.

Lemma edge_connect_inner (l2 : list nat) (g : graph) idx1 a b :
  edge (foldl (fun g2 idx2 =>
                 if decide (idx1 ≠ idx2)
                 then setdefault_add (setdefault_add g2 idx1 idx2) idx2 idx1
                 else g2) g l2) a b
  <-> edge g a b
      \/ exists y, y ∈ l2 /\ idx1 ≠ y /\ ((a = idx1 /\ b = y) \/ (a = y /\ b = idx1)).
Proof.
  revert g. induction l2 as [|y l2 IH]; intros g; cbn [foldl].
  - split; [by left|]. by intros [?|(y & ?%elem_of_nil & _)].
  - rewrite IH. destruct (decide (idx1 ≠ y)) as [Hne|Heq].
    + rewrite !edge_setdefault_add. split.
      * intros [[[?|?]|?]|(y' & Hy' & Hrest)]; [by left| | |].
        -- right. exists y. split; [by left|]. split; [done|]. by left.
        -- right. exists y. split; [by left|]. split; [done|]. by right.
        -- right. exists y'. split; [by right | done].
      * intros [?|(y' & [->|Hy']%elem_of_cons & Hne' & Hab)]; [by left; left; left| |].
        -- destruct Hab as [?|?]; [by left; left; right | by left; right].
        -- right. by exists y'.
    + split.
      * intros [?|(y' & Hy' & Hrest)]; [by left|]. right. exists y'. split; [by right|done].
      * intros [?|(y' & [->|Hy']%elem_of_cons & Hne' & Hab)]; [by left|done|].
        right. by exists y'.
Qed.

Lemma edge_connect_outer (l1 l : list nat) (g : graph) a b :
  edge (foldl (fun g1 idx1 =>
                 foldl (fun g2 idx2 =>
                          if decide (idx1 ≠ idx2)
                          then setdefault_add (setdefault_add g2 idx1 idx2) idx2 idx1
                          else g2) g1 l) g l1) a b
  <-> edge g a b
      \/ exists x y, x ∈ l1 /\ y ∈ l /\ x ≠ y /\ ((a = x /\ b = y) \/ (a = y /\ b = x)).
Proof.
  revert g. induction l1 as [|x l1 IH]; intros g; cbn [foldl].
  - split; [by left|]. by intros [?|(x & y & ?%elem_of_nil & _)].
  - rewrite IH, edge_connect_inner. split.
    + intros [[?|(y & Hy & Hne & Hab)]|(x' & y & Hx' & Hrest)]; [by left| |].
      * right. exists x, y. split; [by left|done].
      * right. exists x', y. split; [by right|done].
    + intros [?|(x' & y & [->|Hx']%elem_of_cons & Hy & Hne & Hab)]; [by left; left| |].
      * left; right. by exists y.
      * right. by exists x', y.
Qed.

(** [connect_touched] joins every two different members of the list, both
    ways, and leaves the other edges as they are. *)
Lemma edge_connect_touched (l : list nat) (g : graph) a b :
  edge (connect_touched l g) a b <-> edge g a b \/ (a ≠ b /\ a ∈ l /\ b ∈ l).
Proof.
  unfold connect_touched. rewrite edge_connect_outer. split.
  - intros [?|(x & y & Hx & Hy & Hne & [[-> ->]|[-> ->]])]; [by left|by right|].
    right. by split_and!.
  - intros [?|(Hne & Ha & Hb)]; [by left|]. right. exists a, b. split_and!; try done.
    by left.
Qed.

(** Whether the geometry [g] of an AIMS polygon touches or intersects the
    NW rocky reef at position [p]. *)
Definition is_touch (rock : list Row) (g : G) (p : nat) : bool :=
  match rock !! p with
  | Some nw_row => touches g (geom nw_row) || intersects g (geom nw_row)
  | None => false
  end.

(** The AIMS polygon [g] is merged with the NW rocky reef at position [p]:
    the index proposes [p], and the two touch or intersect. *)
Definition merges_with (rock : list Row) (g : G) (p : nat) : Prop :=
  p ∈ sindex_intersection rock g /\ is_touch rock g p = true.

(** The state of the loop over the candidates of one AIMS polygon, after
    the candidates [pre]. *)
Definition tagged_row (rock : list Row) (i : nat) (g : G) (tg0 : @tagging Shape)
    (pre : list nat) (st : @tagging Shape * list nat) : Prop :=
  st.2 = filter (fun p => is_touch rock g p = true) pre
  /\ (forall a b, edge (nw_connections st.1) a b
        <-> edge (nw_connections tg0) a b \/ (a ≠ b /\ a ∈ st.2 /\ b ∈ st.2))
  /\ (forall p x, x ∈ default [] (nw_groups st.1 !! p)
        <-> x ∈ default [] (nw_groups tg0 !! p) \/ (x = g /\ p ∈ st.2))
  /\ (forall p, is_Some (nw_groups st.1 !! p)
        <-> is_Some (nw_groups tg0 !! p) \/ p ∈ st.2)
  /\ (forall j, j ∈ touch_idxs st.1 <-> j ∈ touch_idxs tg0 \/ (j = i /\ st.2 ≠ []))
  /\ (forall k, k ∈ (nw_connections st.1).*1 -> k ∈ (nw_connections tg0).*1 \/ k ∈ st.2).

Lemma tag_candidates_spec (rock : list Row) i (g : G) (tg0 : @tagging Shape) cands st :
  foldl (tag_candidate rock i g) (Some (tg0, [])) cands = Some st ->
  tagged_row rock i g tg0 cands st.
Proof.
  apply (foldl_option_ind _ (tagged_row rock i g tg0)); [done| |].
  - unfold tagged_row. cbn [fst snd]. split_and!; [done|..].
    + intros a b. split; [by left|]. by intros [?|(_ & ?%elem_of_nil & _)].
    + intros p x. split; [by left|]. by intros [?|[_ ?%elem_of_nil]].
    + intros p. split; [by left|]. by intros [?|?%elem_of_nil].
    + intros j. split; [by left|]. by intros [?|[_ ?]].
    + intros k. by left.
  - intros pre p post [tg T] st1 _ (HT & Hedge & Hgroups & Hdom & Htouch & Hkeys).
    cbn [fst snd] in *. unfold tag_candidate. cbn [mbind option_bind fst snd].
    destruct (rock !! p) as [nw_row|] eqn:Hrow; [|done]. cbn [mbind option_bind].
    assert (is_touch rock g p = touches g (geom nw_row) || intersects g (geom nw_row))
      as Hit by (unfold is_touch; by rewrite Hrow).
    destruct (touches g (geom nw_row) || intersects g (geom nw_row)) eqn:Hcond.
    + intros [= <-]. unfold tagged_row. cbn [fst snd nw_connections nw_groups touch_idxs].
      assert (filter (fun p => is_touch rock g p = true) (pre ++ [p]) = T ++ [p]) as HT'.
      { rewrite filter_app, <- HT. f_equal. rewrite filter_cons_True by done. done. }
      split_and!.
      * done.
      * intros a b. case_bool_decide as Hlen.
        -- rewrite edge_connect_touched, Hedge, !elem_of_app. split.
           ++ intros [[?|(Hne & Ha & Hb)]|?]; [by left| |by right].
              right. split_and!; [done|by left|by left].
           ++ intros [?|?]; [by left; left | by right].
        -- assert (T = []) as ->.
           { destruct T; [done|]. rewrite length_app in Hlen. cbn in Hlen. lia. }
           rewrite Hedge. cbn. split.
           ++ intros [?|(_ & ?%elem_of_nil & _)]; by left.
           ++ intros [?|(Hne & ->%list_elem_of_singleton & ->%list_elem_of_singleton)];
                [by left | done].
      * intros q x. destruct (decide (q = p)) as [->|Hne].
        -- rewrite lookup_insert_eq. cbn [from_option id]. rewrite !elem_of_app, Hgroups.
           rewrite list_elem_of_singleton. split.
           ++ intros [[?|[-> ?]]| ->]; [by left| |].
              ** right. split; [done|]. by left.
              ** right. split; [done|]. right. by apply list_elem_of_singleton.
           ++ intros [?|[-> [?|?]]]; [by left; left| |by right].
              left; right. by split.
        -- rewrite lookup_insert_ne by done. rewrite Hgroups, elem_of_app.
           rewrite list_elem_of_singleton. naive_solver.
      * intros q. destruct (decide (q = p)) as [->|Hne].
        -- rewrite lookup_insert_eq. split; [intros _; right|by eexists].
           apply elem_of_app. right. by left.
        -- rewrite lookup_insert_ne by done. rewrite Hdom, elem_of_app.
           rewrite list_elem_of_singleton. naive_solver.
      * intros j. rewrite elem_of_union, elem_of_singleton, Htouch. split.
        -- intros [->|[?|[-> _]]]; [|by left|].
           ++ right. split; [done|]. by destruct T.
           ++ right. split; [done|]. by destruct T.
        -- intros [?|[-> _]]; [right; by left | by left].
      * intros k. case_bool_decide.
        -- intros [Hk|Hk]%keys_connect_touched; [|by right].
           destruct (Hkeys k Hk) as [?|?]; [by left|]. right. apply elem_of_app. by left.
        -- intros Hk. destruct (Hkeys k Hk) as [?|?]; [by left|].
           right. apply elem_of_app. by left.
    + intros [= <-]. unfold tagged_row. cbn [fst snd].
      rewrite filter_app, filter_cons_False, filter_nil, app_nil_r by (by rewrite Hit).
      done.
Qed.

(** What the tagging holds after the AIMS rows [pre]. *)
Definition tagged_all (rock : list Row) (pre : list (nat * Row)) (tg : @tagging Shape) : Prop :=
  (forall a b, edge (nw_connections tg) a b
     <-> exists ir, ir ∈ pre /\ a ≠ b /\ merges_with rock (geom ir.2) a
                    /\ merges_with rock (geom ir.2) b)
  /\ (forall p x, x ∈ default [] (nw_groups tg !! p)
        <-> exists ir, ir ∈ pre /\ x = geom ir.2 /\ merges_with rock (geom ir.2) p)
  /\ (forall p, is_Some (nw_groups tg !! p)
        <-> exists ir, ir ∈ pre /\ merges_with rock (geom ir.2) p)
  /\ (forall j, j ∈ touch_idxs tg
        <-> exists ir, ir ∈ pre /\ ir.1 = j /\ exists p, merges_with rock (geom ir.2) p)
  /\ (forall k, k ∈ (nw_connections tg).*1 ->
        exists ir, ir ∈ pre /\ merges_with rock (geom ir.2) k).

Lemma elem_of_touched (rock : list Row) (g : G) p :
  p ∈ filter (fun p => is_touch rock g p = true) (sindex_intersection rock g)
  <-> merges_with rock g p.
Proof. rewrite list_elem_of_filter. unfold merges_with. tauto. Qed.

Lemma tag_all_spec (rock gdf_aims : list Row) (tg : @tagging Shape) :
  tag_all sindex_intersection rock gdf_aims = Some tg ->
  tagged_all rock (labelled gdf_aims) tg.
Proof.
  unfold tag_all.
  apply (foldl_option_ind _ (tagged_all rock)); [done| |].
  - unfold tagged_all. cbn [nw_connections nw_groups touch_idxs]. split_and!.
    + intros a b. split; [by intros (s & ? & _)|]. by intros (ir & ?%elem_of_nil & _).
    + intros p x. rewrite lookup_empty. cbn.
      split; [by intros ?%elem_of_nil|]. by intros (ir & ?%elem_of_nil & _).
    + intros p. rewrite lookup_empty.
      split; [by intros [? ?]|]. by intros (ir & ?%elem_of_nil & _).
    + intros j. split; [by intros ?%elem_of_empty|]. by intros (ir & ?%elem_of_nil & _).
    + by intros k ?%elem_of_nil.
  - intros pre [i r] post tg0 tg1 _ (Hedge & Hgroups & Hdom & Htouch & Hkeys).
    unfold tag_row. cbn [mbind option_bind fst snd].
    destruct (foldl _ _ _) as [[tg' T]|] eqn:Hfold; [|done].
    cbn [fmap option_fmap option_map fst]. intros [= <-].
    apply tag_candidates_spec in Hfold
      as (HT & Hedge' & Hgroups' & Hdom' & Htouch' & Hkeys').
    cbn [fst snd] in *.
    assert (forall p, p ∈ T <-> merges_with rock (geom r) p) as HTin.
    { intros p. rewrite HT. apply elem_of_touched. }
    unfold tagged_all. split_and!.
    + intros a b. rewrite Hedge', Hedge. setoid_rewrite elem_of_app.
      setoid_rewrite list_elem_of_singleton. rewrite !HTin. split.
      * intros [(ir & Hir & Hrest)|(Hne & Ha & Hb)].
        -- exists ir. split; [by left|done].
        -- exists (i, r). split; [by right|done].
      * intros (ir & [Hir| ->] & Hne & Ha & Hb); [left; by exists ir | by right].
    + intros p x. rewrite Hgroups', Hgroups. setoid_rewrite elem_of_app.
      setoid_rewrite list_elem_of_singleton. rewrite HTin. split.
      * intros [(ir & Hir & Hrest)|[-> Hp]].
        -- exists ir. split; [by left|done].
        -- exists (i, r). split; [by right|done].
      * intros (ir & [Hir| ->] & Hx & Hp); [left; by exists ir | by right].
    + intros p. rewrite Hdom', Hdom. setoid_rewrite elem_of_app.
      setoid_rewrite list_elem_of_singleton. rewrite HTin. split.
      * intros [(ir & Hir & Hrest)|Hp].
        -- exists ir. split; [by left|done].
        -- exists (i, r). split; [by right|done].
      * intros (ir & [Hir| ->] & Hp); [left; by exists ir | by right].
    + intros j. rewrite Htouch', Htouch. setoid_rewrite elem_of_app.
      setoid_rewrite list_elem_of_singleton. split.
      * intros [(ir & Hir & Hrest)|[-> HTne]].
        -- exists ir. split; [by left|done].
        -- exists (i, r). split; [by right|]. split; [done|].
           destruct T as [|p T']; [done|]. exists p. apply HTin. by left.
      * intros (ir & [Hir| ->] & Hj & p & Hp).
        -- left. exists ir. split; [done|]. split; [done|]. by exists p.
        -- right. split; [done|]. apply HTin in Hp. intros ->. by apply elem_of_nil in Hp.
    + intros k Hk. destruct (Hkeys' k Hk) as [Hk0|Hk0].
      * destruct (Hkeys k Hk0) as (ir & Hir & Hm). exists ir. split; [|done].
        apply elem_of_app. by left.
      * exists (i, r). split; [apply elem_of_app; right; by left | by apply HTin].
Qed.

End Tagging.

(** *** The run *)

Section Run.
Context {Shape : Type} `{E : OverlayEngine Shape}.

Local Abbreviation G := (geometry Shape).
Local Abbreviation Row := (Feature (geometry Shape)).

Variable sindex_intersection : list Row -> G -> list nat.
Variable set_order : gset nat -> list nat.
Hypothesis set_order_elem : forall (s : gset nat) x, x ∈ set_order s <-> x ∈ s.

(** The frames that the loops of a run work on. *)
Definition nw_of (gdf_nw_in : Layer Shape) : list Row := rows (tracked gdf_nw_in).

Definition rock_of (gdf_nw_in : Layer Shape) : list Row := gdf_nw_rock (nw_of gdf_nw_in).

Definition aims_of (gdf_nw_in gdf_aims_in : Layer Shape) : list Row :=
  rows (prepare_aims (columns (tracked gdf_nw_in)) gdf_aims_in).

(** Two NW rocky reefs that one AIMS polygon is merged with. *)
Definition linked (rock gdf_aims : list Row) (a b : nat) : Prop :=
  exists r, r ∈ gdf_aims /\ a ≠ b
    /\ merges_with sindex_intersection rock (geom r) a
    /\ merges_with sindex_intersection rock (geom r) b.

(** The steps of a run that returns. *)
Lemma merge_steps (gdf_nw_in gdf_aims_in : Layer Shape) (m : Merged) :
  merge_rocky_reefs sindex_intersection set_order gdf_nw_in gdf_aims_in = Some m ->
  exists gdf1 gdf2 : list Row,
    tag_all sindex_intersection (rock_of gdf_nw_in) (aims_of gdf_nw_in gdf_aims_in)
    = Some (tagged m)
    /\ find_connected_components set_order (nw_connections (tagged m))
       = Some (connected_components m)
    /\ foldl (dissolve_isolated (rock_of gdf_nw_in) (original_indices (nw_of gdf_nw_in))
                                (nw_groups (tagged m)))
             (Some (nw_of gdf_nw_in))
             (set_order (isolated_nw_indices (nw_groups (tagged m))
                                             (connected_components m)))
       = Some gdf1
    /\ foldl (dissolve_component (rock_of gdf_nw_in) (original_indices (nw_of gdf_nw_in))
                                 (nw_groups (tagged m)))
             (Some (gdf1, ∅)) (connected_components m)
       = Some (gdf2, nw_features_to_remove m)
    /\ nw_kept m
       = (if bool_decide (nw_groups (tagged m) ≠ ∅)
             && bool_decide (nw_features_to_remove m ≠ ∅)
          then filter (fun jf : nat * Row => jf.1 ∉ nw_features_to_remove m) (labelled gdf2)
          else labelled gdf2)
    /\ aims_new m = aims_new_of (touch_idxs (tagged m)) (aims_of gdf_nw_in gdf_aims_in).
Proof.
  unfold merge_rocky_reefs, rock_of, aims_of, nw_of.
  set (gdf_nw := rows (tracked gdf_nw_in)).
  set (gdf_aims := rows (prepare_aims _ gdf_aims_in)).
  destruct (tag_all _ _ gdf_aims) as [tg|] eqn:Htag; [|done].
  cbn [mbind option_bind].
  destruct (find_connected_components set_order (nw_connections tg))
    as [components|] eqn:Hcc; [|done].
  cbn [mbind option_bind].
  destruct (foldl (dissolve_isolated _ _ _) _ _) as [gdf1|] eqn:Hiso; [|done].
  cbn [mbind option_bind].
  destruct (foldl (dissolve_component _ _ _) _ _) as [[gdf2 rm]|] eqn:Hdis; [|done].
  cbn [mbind option_bind fst snd].
  intros [= <-].
  cbn [connected_components tagged nw_kept nw_features_to_remove aims_new].
  by exists gdf1, gdf2.
Qed.

Lemma row_has_label (gdf : list Row) (r : Row) :
  r ∈ gdf <-> exists i, (i, r) ∈ labelled gdf.
Proof.
  split.
  - intros (i & Hi)%list_elem_of_lookup_1. exists i. by apply elem_of_labelled.
  - intros (i & Hi%elem_of_labelled). by eapply list_elem_of_lookup_2.
Qed.

(** The edges of the connection graph are the links. *)
Lemma edge_linked (rock gdf_aims : list Row) (tg : @tagging Shape) a b :
  tag_all sindex_intersection rock gdf_aims = Some tg ->
  edge (nw_connections tg) a b <-> linked rock gdf_aims a b.
Proof.
  intros (Hedge & _)%tag_all_spec. rewrite Hedge. unfold linked. split.
  - intros ([i r] & Hir & Hrest). exists r. split; [|done].
    apply row_has_label. by exists i.
  - intros (r & (i & Hi)%row_has_label & Hrest). by exists (i, r).
Qed.

Lemma linked_sym (rock gdf_aims : list Row) a b :
  linked rock gdf_aims a b -> linked rock gdf_aims b a.
Proof. intros (r & Hr & Hne & Ha & Hb). exists r. by split_and!. Qed.

Lemma rtc_iff {A} (R1 R2 : relation A) x y :
  (forall a b, R1 a b <-> R2 a b) -> rtc R1 x y <-> rtc R2 x y.
Proof.
  intros Hiff. split; apply rtc_subrel; intros a b; by apply Hiff.
Qed.

(** Every member of a component is merged with an AIMS polygon. *)
Lemma component_members_merged (rock gdf_aims : list Row) (tg : @tagging Shape) components :
  tag_all sindex_intersection rock gdf_aims = Some tg ->
  find_connected_components set_order (nw_connections tg) = Some components ->
  forall c x, c ∈ components -> x ∈ c ->
    exists r, r ∈ gdf_aims /\ merges_with sindex_intersection rock (geom r) x.
Proof.
  intros Htag Hcc c x Hc Hx.
  assert (symmetric (nw_connections tg)) as Hsym.
  { intros a b. rewrite !(edge_linked _ _ _ _ _ Htag). apply linked_sym. }
  destruct (components_classes set_order set_order_elem _ _ Hsym Hcc) as (_ & _ & Hclass).
  destruct (Hclass c Hc) as (p & rest & -> & Hp & Hreach).
  pose proof (tag_all_spec _ _ _ _ Htag) as (_ & _ & _ & _ & Hkeys).
  apply Hreach, rtc_inv_r in Hx as [<-|(y & _ & Hedge)].
  - destruct (Hkeys p Hp) as ([i r] & Hir & Hm). exists r. split; [|done].
    apply row_has_label. by exists i.
  - apply (edge_linked _ _ _ _ _ Htag) in Hedge as (r & Hr & _ & _ & Hm). by exists r.
Qed.

(** X13. Which reefs are dissolved together: the components of a run are
    the classes of NW rocky reefs linked through AIMS polygons.  No reef is
    in two components; two reefs merged with one and the same AIMS polygon
    are in one component; and a component holds exactly the reefs that a
    chain of such links joins to its first member. *)
Theorem linked_reefs_share_component (gdf_nw_in gdf_aims_in : Layer Shape) (m : Merged) :
  merge_rocky_reefs sindex_intersection set_order gdf_nw_in gdf_aims_in = Some m ->
  NoDup (mjoin (connected_components m))
  /\ (forall a b, linked (rock_of gdf_nw_in) (aims_of gdf_nw_in gdf_aims_in) a b ->
        exists c, c ∈ connected_components m /\ a ∈ c /\ b ∈ c)
  /\ (forall c, c ∈ connected_components m ->
        exists p rest, c = p :: rest
          /\ forall x, x ∈ c
               <-> rtc (linked (rock_of gdf_nw_in) (aims_of gdf_nw_in gdf_aims_in)) p x).
Proof.
  intros (gdf1 & gdf2 & Htag & Hcc & _)%merge_steps.
  assert (symmetric (nw_connections (tagged m))) as Hsym.
  { intros a b. rewrite !(edge_linked _ _ _ _ _ Htag). apply linked_sym. }
  destruct (components_classes set_order set_order_elem _ _ Hsym Hcc)
    as (Hnd & Hkeys & Hclass).
  split_and!; [done| |].
  - intros a b Hlink. apply (edge_linked _ _ _ _ _ Htag) in Hlink.
    assert (a ∈ (nw_connections (tagged m)).*1) as Ha.
    { destruct Hlink as (s & Hs & _). by eapply dict_get_key. }
    destruct (Hkeys a Ha) as (c & Hc & Hac). exists c. split_and!; [done|done|].
    destruct (Hclass c Hc) as (p & rest & -> & _ & Hreach).
    apply Hreach. eapply rtc_r; [|exact Hlink]. by apply Hreach.
  - intros c Hc. destruct (Hclass c Hc) as (p & rest & -> & _ & Hreach).
    exists p, rest. split; [done|]. intros x. rewrite Hreach.
    apply rtc_iff. intros a b. by apply edge_linked.
Qed.

(** **** Rows that the dissolve loops leave alone *)

Lemma dissolve_isolated_untouched (rock : list Row) (idx_mapping : list nat)
    (groups : gmap nat (list G)) (gdf gdf' : list Row) (l : list nat) k :
  foldl (dissolve_isolated rock idx_mapping groups) (Some gdf) l = Some gdf' ->
  (forall p, p ∈ l -> idx_mapping !! p ≠ Some k) ->
  gdf' !! k = gdf !! k.
Proof.
  intros Hfold Hk. revert Hfold.
  apply (foldl_option_inv _ (fun g : list Row => g !! k = gdf !! k)); [done|done|].
  intros p g0 g1 Hp Hg0. unfold dissolve_isolated. cbn [mbind option_bind].
  destruct (idx_mapping !! p) as [kp|] eqn:Hkp; [|done]. cbn [mbind option_bind].
  destruct (rock !! p); [|done]. cbn [mbind option_bind].
  destruct (groups !! p); [|done]. cbn [mbind option_bind].
  intros (Hne & _)%at_update_spec. rewrite Hne; [done|].
  intros ->. by apply (Hk p Hp).
Qed.

Lemma dissolve_component_untouched (rock : list Row) (idx_mapping : list nat)
    (groups : gmap nat (list G)) (gdf gdf' : list Row) rm rm'
    (components : list (list nat)) k :
  foldl (dissolve_component rock idx_mapping groups) (Some (gdf, rm)) components
  = Some (gdf', rm') ->
  (forall c p, c ∈ components -> head c = Some p -> idx_mapping !! p ≠ Some k) ->
  gdf' !! k = gdf !! k.
Proof.
  intros Hfold Hk.
  change (gdf' !! k = gdf !! k) with ((gdf', rm').1 !! k = gdf !! k).
  revert Hfold.
  apply (foldl_option_inv _ (fun st : list Row * gset nat => st.1 !! k = gdf !! k));
    [done|done|].
  intros c [g0 r0] [g1 r1] Hc Hg0. cbn [fst] in *. unfold dissolve_component.
  cbn [mbind option_bind fst snd]. destruct c as [|p others]; [by intros [= <- <-]|].
  destruct (idx_mapping !! p) as [kp|] eqn:Hkp; [|done]. cbn [mbind option_bind].
  destruct (member_geoms rock groups p); [|done]. cbn [mbind option_bind].
  destruct (foldl _ _ others) as [gr|]; [|done]. cbn [mbind option_bind].
  destruct (at_update g0 kp _ _) as [g'|] eqn:Hup; [|done]. cbn [mbind option_bind].
  intros [= <- <-]. apply at_update_spec in Hup as (Hne & _). rewrite Hne; [done|].
  intros ->. by apply (Hk (p :: others) p Hc).
Qed.

(** X14. The rows of the NW layer that the merge has no business with
    come out as they went in: a row that is not a rocky reef, or a rocky
    reef that no AIMS polygon is merged with, is in the output at its label
    with the geometry and every attribute it had (its [debug_status] still
    "original"), and is not marked for removal. *)
Theorem untouched_rows_unchanged (gdf_nw_in gdf_aims_in : Layer Shape) (m : Merged)
    (k : nat) (row : Row) :
  merge_rocky_reefs sindex_intersection set_order gdf_nw_in gdf_aims_in = Some m ->
  nw_of gdf_nw_in !! k = Some row ->
  (~ is_rock row
   \/ forall p r, original_indices (nw_of gdf_nw_in) !! p = Some k ->
        r ∈ aims_of gdf_nw_in gdf_aims_in ->
        ~ merges_with sindex_intersection (rock_of gdf_nw_in) (geom r) p) ->
  (k, row) ∈ nw_kept m /\ row ∈ gdf_result m /\ k ∉ nw_features_to_remove m.
Proof.
  intros (gdf1 & gdf2 & Htag & Hcc & Hiso & Hdis & Hkept & _)%merge_steps Hrow Hwhy.
  assert (forall p r, original_indices (nw_of gdf_nw_in) !! p = Some k ->
            r ∈ aims_of gdf_nw_in gdf_aims_in ->
            ~ merges_with sindex_intersection (rock_of gdf_nw_in) (geom r) p) as Hfree.
  { destruct Hwhy as [Hnot|Hfree]; [|done]. intros p r Hp _ _.
    apply idx_mapping_row in Hp as (f & Hf & _ & Hrock).
    rewrite Hrow in Hf. injection Hf as <-. done. }
  pose proof (tag_all_spec _ _ _ _ Htag) as (_ & _ & Hdom & _).
  assert (gdf1 !! k = Some row) as Hrow1.
  { rewrite (dissolve_isolated_untouched _ _ _ _ _ _ k Hiso); [done|].
    intros p Hp Hk. apply set_order_elem in Hp. unfold isolated_nw_indices in Hp.
    apply elem_of_difference in Hp as [Hp _]. apply elem_of_dom, Hdom in Hp
      as ([i r] & Hir & Hm).
    apply (Hfree p r Hk); [|done]. apply row_has_label. by exists i. }
  assert (gdf2 !! k = Some row) as Hrow2.
  { rewrite (dissolve_component_untouched _ _ _ _ _ _ _ _ k Hdis); [done|].
    intros c p Hc Hhead Hk.
    destruct (component_members_merged _ _ _ _ Htag Hcc c p Hc) as (r & Hr & Hm).
    { destruct c; [done|]. injection Hhead as ->. by left. }
    by apply (Hfree p r Hk). }
  assert (k ∉ nw_features_to_remove m) as Hstay.
  { pose proof (find_connected_components_spec set_order _ _ Hcc) as [Hnd _].
    apply dissolve_components_spec in Hdis as (_ & Hrm & _);
      [|done|apply original_indices_NoDup].
    intros (c & o & Hc & Ho & Hk)%Hrm.
    destruct (component_members_merged _ _ _ _ Htag Hcc c o Hc) as (r & Hr & Hm).
    { destruct c; [by apply elem_of_nil in Ho | by right]. }
    by apply (Hfree o r Hk). }
  assert ((k, row) ∈ nw_kept m) as Hin.
  { rewrite Hkept. destruct (_ && _).
    - apply list_elem_of_filter. split; [done|]. by apply elem_of_labelled.
    - by apply elem_of_labelled. }
  split_and!; [done| |done].
  unfold gdf_result. apply elem_of_app. left. apply list_elem_of_fmap. by exists (k, row).
Qed.

(** **** The AIMS polygons and the isolated reefs *)

(** Whether the AIMS polygon [g] is merged with some NW rocky reef. *)
Definition touches_any (rock : list Row) (g : G) : bool :=
  existsb (is_touch rock g) (sindex_intersection rock g).

Lemma touches_any_true (rock : list Row) (g : G) :
  touches_any rock g = true <-> exists p, merges_with sindex_intersection rock g p.
Proof.
  unfold touches_any, merges_with. rewrite existsb_exists.
  split; intros (p & Hp & Ht); exists p; (split; [by apply list_elem_of_In | done]).
Qed.

Lemma filter_ext_elem {A} (P Q : A -> Prop) `{!forall x, Decision (P x)}
    `{!forall x, Decision (Q x)} (l : list A) :
  (forall x, x ∈ l -> P x <-> Q x) -> filter P l = filter Q l.
Proof.
  induction l as [|x l IH]; intros Hl; [done|].
  rewrite !filter_cons.
  assert (filter P l = filter Q l) as -> by (apply IH; intros y Hy; apply Hl; by right).
  destruct (decide (P x)) as [HP|HP].
  - rewrite decide_True; [done|]. apply Hl; [by left|done].
  - rewrite decide_False; [done|]. intros HQ. apply HP, Hl; [by left|done].
Qed.

(** X15. Every AIMS polygon is accounted for.  The rows appended as new
    features are, in frame order, the AIMS rows merged with no NW rocky
    reef, with the status "new_feature"; and the geometry of an AIMS row
    that is merged with a reef is in the group of that reef, to be
    dissolved with it. *)
Theorem aims_rows_accounted (gdf_nw_in gdf_aims_in : Layer Shape) (m : Merged) :
  merge_rocky_reefs sindex_intersection set_order gdf_nw_in gdf_aims_in = Some m ->
  aims_new m
  = (fun ir : nat * Row => set_attr "debug_status" (VStr "new_feature") ir.2)
      <$> filter (fun ir : nat * Row => touches_any (rock_of gdf_nw_in) (geom ir.2) = false)
                 (labelled (aims_of gdf_nw_in gdf_aims_in))
  /\ forall r p, r ∈ aims_of gdf_nw_in gdf_aims_in ->
       merges_with sindex_intersection (rock_of gdf_nw_in) (geom r) p ->
       exists gs, nw_groups (tagged m) !! p = Some gs /\ geom r ∈ gs.
Proof.
  intros (gdf1 & gdf2 & Htag & _ & _ & _ & _ & Hnew)%merge_steps.
  pose proof (tag_all_spec _ _ _ _ Htag) as (_ & Hgroups & _ & Htouch & _).
  split.
  - rewrite Hnew. unfold aims_new_of. f_equal. apply filter_ext_elem.
    intros [i r] Hir. cbn [fst snd]. rewrite Htouch. split.
    + intros Hnone. apply not_true_is_false. intros (p & Hp)%touches_any_true.
      apply Hnone. exists (i, r). split_and!; [done|done|]. by exists p.
    + intros Hfalse ([i' r'] & Hir' & Hi & Hp). cbn [fst snd] in *. subst i'.
      apply elem_of_labelled in Hir, Hir'. rewrite Hir in Hir'. injection Hir' as <-.
      apply touches_any_true in Hp. by rewrite Hfalse in Hp.
  - intros r p (i & Hi)%row_has_label Hm.
    assert (geom r ∈ default [] (nw_groups (tagged m) !! p)) as Hin.
    { apply Hgroups. by exists (i, r). }
    destruct (nw_groups (tagged m) !! p) as [gs|]; [by exists gs|].
    by apply elem_of_nil in Hin.
Qed.

Lemma dissolve_isolated_updated (rock : list Row) (idx_mapping : list nat)
    (groups : gmap nat (list G)) (gdf gdf' : list Row) (l : list nat)
    p k (row0 nw_row : Row) gs :
  NoDup idx_mapping ->
  foldl (dissolve_isolated rock idx_mapping groups) (Some gdf) l = Some gdf' ->
  p ∈ l -> idx_mapping !! p = Some k -> gdf !! k = Some row0 ->
  rock !! p = Some nw_row -> groups !! p = Some gs ->
  gdf' !! k = Some (set_attr "debug_status" (VStr "modified_isolated")
                      (set_geometry row0 (unary_union (geom nw_row :: gs)))).
Proof.
  intros Hinj Hfold Hp Hk Hrow0 Hnw Hgs.
  set (upd := set_attr "debug_status" (VStr "modified_isolated")
                (set_geometry row0 (unary_union (geom nw_row :: gs)))).
  set (P := fun (pre : list nat) (g : list Row) =>
              (p ∈ pre -> g !! k = Some upd) /\ (p ∉ pre -> g !! k = Some row0)).
  assert (P l gdf') as [Hdone _]; [|by apply Hdone].
  revert Hfold. apply (foldl_option_ind _ P); unfold P; [done| |].
  - split; [by intros ?%elem_of_nil | done].
  - intros pre q post g0 g1 _ [Hin Hout]. unfold dissolve_isolated.
    cbn [mbind option_bind].
    destruct (idx_mapping !! q) as [kq|] eqn:Hkq; [|done]. cbn [mbind option_bind].
    destruct (rock !! q) as [qrow|] eqn:Hqrow; [|done]. cbn [mbind option_bind].
    destruct (groups !! q) as [qgs|] eqn:Hqgs; [|done]. cbn [mbind option_bind].
    intros (Hne & cur & Hcur & Hnew)%at_update_spec.
    destruct (decide (q = p)) as [->|Hqp].
    + rewrite Hk in Hkq. injection Hkq as <-. rewrite Hnw in Hqrow. injection Hqrow as <-.
      rewrite Hgs in Hqgs. injection Hqgs as <-.
      split; [|intros Hn; exfalso; apply Hn; apply elem_of_app; right; by left].
      intros _. rewrite Hnew. f_equal.
      destruct (decide (p ∈ pre)) as [Hpre|Hpre].
      * rewrite (Hin Hpre) in Hcur. injection Hcur as <-. unfold upd, set_attr.
        cbn [attrs geom set_geometry]. by rewrite insert_insert_eq.
      * rewrite (Hout Hpre) in Hcur. by injection Hcur as <-.
    + assert (kq ≠ k) as Hkne.
      { intros ->. apply Hqp. by apply (NoDup_lookup idx_mapping q p k). }
      rewrite (Hne k) by done. split.
      * intros [Hpre|Hpre]%elem_of_app; [by apply Hin|].
        by apply list_elem_of_singleton in Hpre.
      * intros Hn. apply Hout. intros Hpre. apply Hn. apply elem_of_app. by left.
Qed.

(** X16. A reef that AIMS polygons are merged with, but that is linked to
    no other reef, stays in the output at its label: its geometry is the
    union of its own with those of its AIMS polygons, its status is
    "modified_isolated", and every other attribute is as it was. *)
Theorem isolated_reef_dissolved (gdf_nw_in gdf_aims_in : Layer Shape) (m : Merged)
    (p : nat) (gs : list G) :
  merge_rocky_reefs sindex_intersection set_order gdf_nw_in gdf_aims_in = Some m ->
  nw_groups (tagged m) !! p = Some gs ->
  (forall c, c ∈ connected_components m -> p ∉ c) ->
  exists k row0,
    original_indices (nw_of gdf_nw_in) !! p = Some k
    /\ nw_of gdf_nw_in !! k = Some row0
    /\ (k, set_attr "debug_status" (VStr "modified_isolated")
             (set_geometry row0 (unary_union (geom row0 :: gs)))) ∈ nw_kept m
    /\ k ∉ nw_features_to_remove m.
Proof.
  intros (gdf1 & gdf2 & Htag & Hcc & Hiso & Hdis & Hkept & _)%merge_steps Hgs Halone.
  pose proof (original_indices_NoDup (nw_of gdf_nw_in)) as Hinj.
  assert (p ∈ set_order (isolated_nw_indices (nw_groups (tagged m))
                                             (connected_components m))) as Hp.
  { apply set_order_elem. unfold isolated_nw_indices. apply elem_of_difference. split.
    - apply elem_of_dom. by eexists.
    - intros (c & Hpc & Hc)%elem_of_list_to_set%list_elem_of_join. by apply (Halone c). }
  assert (exists k, original_indices (nw_of gdf_nw_in) !! p = Some k) as [k Hk].
  { revert Hiso Hp. generalize (set_order (isolated_nw_indices (nw_groups (tagged m))
                                             (connected_components m))).
    intros l Hiso Hp.
    destruct (original_indices (nw_of gdf_nw_in) !! p) as [k|] eqn:Hk; [by exists k|].
    exfalso. apply list_elem_of_split in Hp as (l1 & l2 & ->).
    rewrite foldl_app in Hiso. cbn [foldl] in Hiso.
    destruct (foldl _ _ l1) as [g|].
    - unfold dissolve_isolated at 2 in Hiso. cbn [mbind option_bind] in Hiso.
      rewrite Hk in Hiso. cbn [mbind option_bind] in Hiso.
      clear -Hiso. induction l2 as [|x l2 IH]; [done|]. by apply IH.
    - cbn in Hiso. clear -Hiso. induction l2 as [|x l2 IH]; [done|]. by apply IH. }
  destruct (idx_mapping_row _ _ _ Hk) as (row0 & Hrow0 & Hrock & _).
  exists k, row0. split_and!; [done|done| |].
  - pose proof (dissolve_isolated_updated _ _ _ _ _ _ p k row0 row0 gs Hinj Hiso Hp Hk
                  Hrow0 Hrock Hgs) as Hrow1.
    assert (gdf2 !! k = gdf1 !! k) as Hsame.
    { apply (dissolve_component_untouched _ _ _ _ _ _ _ _ k Hdis).
      intros c p' Hc Hhead Hk'.
      assert (p' = p) as -> by by apply (NoDup_lookup (original_indices (nw_of gdf_nw_in)) p' p k).
      apply (Halone c Hc). destruct c; [done|]. injection Hhead as ->. by left. }
    rewrite Hrow1 in Hsame.
    assert (k ∉ nw_features_to_remove m) as Hstay.
    { pose proof (find_connected_components_spec set_order _ _ Hcc) as [Hnd _].
      apply dissolve_components_spec in Hdis as (_ & Hrm & _); [|done|done].
      intros (c & o & Hc & Ho & Hk')%Hrm.
      assert (o = p) as -> by by apply (NoDup_lookup (original_indices (nw_of gdf_nw_in)) o p k).
      apply (Halone c Hc). destruct c; [by apply elem_of_nil in Ho | by right]. }
    rewrite Hkept. destruct (_ && _).
    + apply list_elem_of_filter. split; [done|]. by apply elem_of_labelled.
    + by apply elem_of_labelled.
  - pose proof (find_connected_components_spec set_order _ _ Hcc) as [Hnd _].
    apply dissolve_components_spec in Hdis as (_ & Hrm & _); [|done|done].
    intros (c & o & Hc & Ho & Hk')%Hrm.
    assert (o = p) as -> by by apply (NoDup_lookup (original_indices (nw_of gdf_nw_in)) o p k).
    apply (Halone c Hc). destruct c; [by apply elem_of_nil in Ho | by right].
Qed.

(** **** The number of rows *)

Lemma frame_length (gdf gdf' : list Row) : frame gdf gdf' -> length gdf' = length gdf.
Proof.
  intros Hfr. apply Nat.le_antisymm.
  - destruct (decide (length gdf' <= length gdf)%nat) as [|Hgt]; [done|]. exfalso.
    specialize (Hfr (length gdf)).
    destruct (lookup_lt_is_Some_2 gdf' (length gdf)) as [r' Hr']; [lia|].
    rewrite Hr' in Hfr. destruct Hfr as (r & Hr & _).
    apply lookup_lt_Some in Hr. lia.
  - destruct (decide (length gdf <= length gdf')%nat) as [|Hgt]; [done|]. exfalso.
    specialize (Hfr (length gdf')).
    rewrite (lookup_ge_None_2 gdf' (length gdf')) in Hfr by lia.
    apply lookup_ge_None in Hfr. lia.
Qed.

Lemma length_filter_not_in (l : list nat) (R : gset nat) :
  NoDup l -> (forall x, x ∈ R -> x ∈ l) ->
  (length (filter (fun x => x ∉ R) l) + size R = length l)%nat.
Proof.
  revert R. induction l as [|x l IH]; intros R Hnd Hsub.
  - assert (R = ∅) as ->.
    { apply set_eq. intros y. split; [intros Hy%Hsub; by apply elem_of_nil in Hy|].
      intros Hy. by apply elem_of_empty in Hy. }
    by rewrite size_empty.
  - apply NoDup_cons in Hnd as [Hx Hnd]. rewrite filter_cons.
    destruct (decide (x ∈ R)) as [HxR|HxR].
    + rewrite decide_False by tauto.
      assert (size R = S (size (R ∖ {[x]}))) as ->.
      { assert (R = {[x]} ∪ R ∖ {[x]}) as Heq.
        { apply set_eq. intros y. rewrite elem_of_union, elem_of_difference,
            elem_of_singleton. destruct (decide (y = x)) as [->|]; tauto. }
        rewrite Heq at 1. rewrite size_union, size_singleton; [done|].
        intros y. rewrite elem_of_difference, elem_of_singleton. tauto. }
      specialize (IH (R ∖ {[x]}) Hnd).
      assert (filter (fun y => y ∉ R) l = filter (fun y => y ∉ R ∖ {[x]}) l) as ->.
      { apply filter_ext_elem. intros y Hy. rewrite elem_of_difference, elem_of_singleton.
        split; [tauto|]. intros Hn HyR. apply Hn. split; [done|]. by intros ->. }
      cbn [length]. rewrite <- IH; [lia|].
      intros y [HyR Hyx]%elem_of_difference. apply Hsub in HyR.
      apply elem_of_cons in HyR as [->|?]; [|done].
      exfalso. apply Hyx. by apply elem_of_singleton.
    + rewrite decide_True by done. cbn [length]. rewrite <- (IH R Hnd); [lia|].
      intros y HyR. pose proof (Hsub y HyR) as [->|?]%elem_of_cons; done.
Qed.

(** X17. The row count of the output: the rows of the NW layer, less the
    reefs dissolved into another reef, plus the AIMS polygons added as new
    features. *)
Theorem output_row_count (gdf_nw_in gdf_aims_in : Layer Shape) (m : Merged) :
  merge_rocky_reefs sindex_intersection set_order gdf_nw_in gdf_aims_in = Some m ->
  (length (gdf_result m) + size (nw_features_to_remove m)
   = length (rows gdf_nw_in) + length (aims_new m))%nat.
Proof.
  intros (gdf1 & gdf2 & Htag & Hcc & Hiso & Hdis & Hkept & _)%merge_steps.
  pose proof (find_connected_components_spec set_order _ _ Hcc) as [Hnd _].
  pose proof (dissolve_isolated_frame _ _ _ _ _ _ Hiso) as Hfr1.
  apply dissolve_components_spec in Hdis as (Hfr2 & Hrm & _);
    [|done|apply original_indices_NoDup].
  assert (length gdf2 = length (rows gdf_nw_in)) as Hlen.
  { rewrite (frame_length _ _ Hfr2), (frame_length _ _ Hfr1). unfold nw_of, tracked.
    cbn [rows set_column]. rewrite ?length_fmap. unfold with_debug_id.
    destruct (bool_decide ("DebugID" ∈ columns gdf_nw_in)); [done|].
    cbn [rows]. by rewrite length_imap. }
  assert (nw_kept m
          = filter (fun jf : nat * Row => jf.1 ∉ nw_features_to_remove m) (labelled gdf2))
    as Hkept'.
  { rewrite Hkept. destruct (bool_decide (nw_features_to_remove m ≠ ∅)) eqn:Hne.
    - rewrite andb_true_r. destruct (bool_decide (nw_groups (tagged m) ≠ ∅)) eqn:Hg; [done|].
      apply bool_decide_eq_false in Hg.
      symmetry. apply filter_all. intros jf _. intros (c & o & Hc & _)%Hrm.
      assert (connected_components m = []) as Hnil.
      { destruct (nw_connections (tagged m)) as [|kv g] eqn:Hconn.
        - by apply find_connected_components_nil in Hcc.
        - exfalso. apply Hg. intros Hempty.
          by apply (tag_all_groups _ _ _ _ Htag); [rewrite Hconn|]. }
      rewrite Hnil in Hc. by apply elem_of_nil in Hc.
    - rewrite andb_false_r. apply bool_decide_eq_false in Hne.
      symmetry. apply filter_all. intros jf _.
      assert (nw_features_to_remove m = ∅) as -> by (by destruct (decide (nw_features_to_remove m = ∅))).
      set_solver. }
  unfold gdf_result. rewrite length_app, length_fmap, Hkept'.
  assert (length (filter (fun jf : nat * Row => jf.1 ∉ nw_features_to_remove m)
                         (labelled gdf2))
          = length (filter (fun x => x ∉ nw_features_to_remove m) (labelled gdf2).*1))
    as -> by (by rewrite length_filter_fmap).
  rewrite labelled_labels.
  pose proof (length_filter_not_in (seq 0 (length gdf2)) (nw_features_to_remove m)
                (NoDup_seq 0 _)) as Hcount.
  rewrite length_seq in Hcount. rewrite <- Hlen.
  enough (forall x, x ∈ nw_features_to_remove m -> x ∈ seq 0 (length gdf2)) as Hsub
    by (specialize (Hcount Hsub); lia).
  intros x (c & o & _ & _ & Hx)%Hrm.
  apply idx_mapping_row in Hx as (f & Hf & _).
  apply elem_of_seq. split; [lia|]. cbn.
  apply lookup_lt_Some in Hf. rewrite (frame_length _ _ Hfr2), (frame_length _ _ Hfr1). done.
Qed.

End Run.

End MergeRun.
(** ** Stages 05, 07 and 08 read as regions *)

Module Regions.
Import Geo Disk.

(** What the proofs below assume of the engine for collections and unions:
    the interior of a collection holds that of each member, that of a
    MultiPolygon is made of those of its parts, and that of a union holds
    that of each geometry united. *)
Class PartLaws (Shape : Type) `{OverlayEngine Shape} : Prop := {
  covers_member : forall members g p,
    g ∈ members -> covers g p = true -> covers (GeometryCollection members) p = true;
  covers_part : forall parts s p,
    s ∈ parts -> covers (Polygon s) p = true -> covers (MultiPolygon parts) p = true;
  covers_parts : forall parts p,
    covers (MultiPolygon parts) p = true ->
    exists s, s ∈ parts /\ covers (Polygon s) p = true;
  covers_union : forall l g p,
    g ∈ l -> covers g p = true -> covers (unary_union l) p = true;
}.

Lemma raster_cells_member (members : list (geometry Raster.Cells)) g p :
  g ∈ members -> p ∈ Raster.cells_of g -> p ∈ Raster.cells_of (GeometryCollection members).
Proof.
  intros Hg Hp. cbn [Raster.cells_of].
  induction members as [|m members IH]; [by apply elem_of_nil in Hg|].
  apply elem_of_app. apply elem_of_cons in Hg as [<-|Hg]; [by left|].
  right. by apply IH.
Qed.

#[export] Instance raster_parts : @PartLaws Raster.Cells Raster.raster_engine.
Proof.
  split; cbn [covers Raster.raster_engine unary_union]; unfold Raster.raster_covers.
  - intros members g p Hg Hp%bool_decide_eq_true. apply bool_decide_eq_true.
    by apply (raster_cells_member members g).
  - intros parts s p Hs Hp%bool_decide_eq_true. apply bool_decide_eq_true.
    cbn [Raster.cells_of] in *. apply list_elem_of_In, in_concat. exists s.
    by rewrite <- !list_elem_of_In.
  - intros parts p Hp%bool_decide_eq_true. cbn [Raster.cells_of] in Hp.
    apply list_elem_of_In, in_concat in Hp as (s & Hs & Hp).
    apply list_elem_of_In in Hs. apply list_elem_of_In in Hp. exists s. split; [done|].
    by apply bool_decide_eq_true.
  - intros l g p Hg Hp%bool_decide_eq_true. apply bool_decide_eq_true.
    unfold Raster.raster_union. cbn [Raster.cells_of].
    apply elem_of_remove_dups, list_elem_of_bind. by exists g.
Qed.

(** *** 05-clip-rocks-from-reefs.py *)

Section Rows.
Context {Shape : Type} `{E : OverlayEngine Shape}.

Local Abbreviation G := (geometry Shape).
Local Abbreviation Row := (Feature (geometry Shape)).

Lemma no_polygons_among {A} (f : A -> G) (l : list A) :
  (forall x, polygonal (f x) = false) ->
  filter (fun g : G => polygonal g = true) (f <$> l) = [].
Proof.
  intros Hno. induction l as [|x l IH]; [done|].
  rewrite fmap_cons, filter_cons, decide_False; [done|]. by rewrite Hno.
Qed.

(** The only geometry on which [process_geometry] changes anything but
    emptiness is a collection. *)
Lemma process_geometry_cases (g g' : G) :
  ClipRocks.process_geometry g = Some (Some g') ->
  is_empty g = false
  /\ (g' = g /\ polygonal g = true
      \/ exists members, g = GeometryCollection members
           /\ ClipRocks.pick_polygons members = Some (Some g')).
Proof.
  unfold ClipRocks.process_geometry. destruct (is_empty g); [done|].
  destruct (polygonal g) eqn:Hp; [intros [= <-]; split; [done|by left]|].
  destruct g as [s|s|s|ps|ps|ps|members]; cbn [geoms]; try done.
  - unfold ClipRocks.pick_polygons. by rewrite no_polygons_among.
  - unfold ClipRocks.pick_polygons. by rewrite no_polygons_among.
  - intros Hpick. split; [done|]. right. by exists members.
Qed.

Lemma pick_polygons_is_polygonal (members : list G) g' :
  ClipRocks.pick_polygons members = Some (Some g') -> polygonal g' = true.
Proof.
  unfold ClipRocks.pick_polygons.
  destruct (filter _ members) as [|g [|g2 l]] eqn:Hf; [done| |].
  - intros [= <-].
    assert (g ∈ filter (fun g : G => polygonal g = true) members) as Hin
      by (rewrite Hf; by left).
    by apply list_elem_of_filter in Hin as [? _].
  - unfold MultiPolygon_of. destruct (mapM _ _); [|done]. by intros [= <-].
Qed.

Lemma process_geometry_is_polygonal (g g' : G) :
  ClipRocks.process_geometry g = Some (Some g') -> polygonal g' = true.
Proof.
  intros (_ & [[-> ?]|(members & _ & Hpick)])%process_geometry_cases; [done|].
  by apply pick_polygons_is_polygonal in Hpick.
Qed.

Lemma clip_step_raised (l : list Row) : foldl ClipRocks.clip_step None l = None.
Proof. by induction l. Qed.

Lemma clip_step_gone (l : list Row) : foldl ClipRocks.clip_step (Some None) l = Some None.
Proof. by induction l. Qed.

Lemma clip_row_raised rocky_reefs (l : list Row) :
  foldl (ClipRocks.clip_row rocky_reefs) None l = None.
Proof. by induction l. Qed.

Lemma set_geometry_same (r : Row) : set_geometry r (geom r) = r.
Proof. by destruct r. Qed.

(** What the inner loop leaves of a geometry that it changed. *)
Lemma clip_steps_changed (rocks : list Row) (g0 g : G) :
  foldl ClipRocks.clip_step (Some (Some g0)) rocks = Some (Some g) ->
  g = g0 \/ polygonal g = true.
Proof.
  revert g0. induction rocks as [|rock rocks IH]; intros g0.
  - intros [= <-]. by left.
  - cbn [foldl]. unfold ClipRocks.clip_step at 2. cbn [mbind option_bind].
    destruct (intersects g0 (geom rock)); [|apply IH].
    destruct (ClipRocks.process_geometry _) as [[g1|]|] eqn:Hpg.
    + intros Hrest. right. destruct (IH g1 Hrest) as [->|?]; [|done].
      by apply process_geometry_is_polygonal in Hpg.
    + by rewrite clip_step_gone.
    + by rewrite clip_step_raised.
Qed.

(** X21. Stage 05 returns no more rows than it was given; a feature that
    meets no rocky reef is in the output as it was; and every row of the
    output is a row of the input or has a Polygon or MultiPolygon that is
    not empty. *)
Theorem clip_rocks_rows (gdf result_gdf : list Row) :
  ClipRocks.clip_rocks gdf = Some result_gdf ->
  (length result_gdf <= length gdf)%nat
  /\ (forall r, r ∈ gdf -> ~ ClipRocks.is_rocky r ->
        (forall rock, rock ∈ gdf -> ClipRocks.is_rocky rock ->
           intersects (geom rock) (geom r) = false) ->
        r ∈ result_gdf)
  /\ (forall r', r' ∈ result_gdf ->
        r' ∈ gdf \/ polygonal (geom r') = true /\ is_empty (geom r') = false).
Proof.
  unfold ClipRocks.clip_rocks. cbv zeta.
  set (rocky_reefs := filter ClipRocks.is_rocky gdf).
  set (non_rocky_reefs := filter (fun f => ~ ClipRocks.is_rocky f) gdf).
  destruct (foldl _ _ _) as [clipped|] eqn:Hfold; [|done].
  cbn [mbind option_bind]. intros Hsome.
  assert (result_gdf = rocky_reefs ++ clipped) as ->
    by (destruct clipped; [done | by injection Hsome]).
  clear Hsome.
  set (P := fun (pre : list Row) (cl : list Row) =>
    (length cl <= length pre)%nat
    /\ (forall r, r ∈ pre ->
          (forall rock, rock ∈ rocky_reefs -> intersects (geom rock) (geom r) = false) ->
          r ∈ cl)
    /\ (forall r', r' ∈ cl ->
          r' ∈ non_rocky_reefs \/ polygonal (geom r') = true /\ is_empty (geom r') = false)).
  assert (P non_rocky_reefs clipped) as (Hlen & Hkeep & Hshape).
  { revert Hfold. apply (foldl_option_ind _ P); unfold P.
    - done.
    - split; [done|]. split; intros ? Hin; by apply elem_of_nil in Hin.
    - intros pre row post cl0 cl1 Hsplit (Hlen0 & Hkeep0 & Hshape0).
      assert (row ∈ non_rocky_reefs) as Hrow.
      { rewrite Hsplit. apply elem_of_app. right. by left. }
      unfold ClipRocks.clip_row. cbn [mbind option_bind].
      fold rocky_reefs.
      set (hit := filter (fun r => intersects (geom r) (geom row) = true) rocky_reefs).
      destruct (bool_decide (0 < length hit)%nat) eqn:Hhit.
      + apply bool_decide_eq_true in Hhit.
        assert (forall cl, (length cl <= S (length cl0))%nat ->
                  (forall r', r' ∈ cl -> r' ∈ cl0
                     \/ r' ∈ non_rocky_reefs
                     \/ polygonal (geom r') = true /\ is_empty (geom r') = false) ->
                  (forall r, r ∈ cl0 -> r ∈ cl) ->
                  (length cl <= length (pre ++ [row]))%nat
                  /\ (forall r, r ∈ pre ++ [row] ->
                        (forall rock, rock ∈ rocky_reefs ->
                           intersects (geom rock) (geom r) = false) -> r ∈ cl)
                  /\ (forall r', r' ∈ cl -> r' ∈ non_rocky_reefs
                        \/ polygonal (geom r') = true /\ is_empty (geom r') = false))
          as Hclose.
        { intros cl Hl Hs Hk. split_and!.
          - rewrite length_app. cbn [length]. lia.
          - intros r [Hr|Hr]%elem_of_app Hfree; [by apply Hk, Hkeep0|].
            apply list_elem_of_singleton in Hr as ->. exfalso.
            destruct hit as [|h hit'] eqn:Hh; [cbn in Hhit; lia|].
            assert (h ∈ hit) as Hin by (rewrite Hh; by left).
            apply list_elem_of_filter in Hin as [Hint Hin].
            by rewrite (Hfree h Hin) in Hint.
          - intros r' Hr'. destruct (Hs r' Hr') as [?|?]; [by apply Hshape0|done]. }
        destruct (foldl ClipRocks.clip_step _ hit) as [[g|]|] eqn:Hsteps;
          cbn [mbind option_bind]; [| |done].
        * destruct (is_empty g) eqn:Hem; intros [= <-].
          -- apply Hclose; [lia| |done]. intros r' ?. by left.
          -- apply Hclose.
             ++ rewrite length_app. cbn [length]. lia.
             ++ intros r' [?|Hr']%elem_of_app; [by left|]. right.
                apply list_elem_of_singleton in Hr' as ->.
                destruct (clip_steps_changed _ _ _ Hsteps) as [->|Hpoly].
                ** left. by rewrite set_geometry_same.
                ** right. by cbn [geom set_geometry].
             ++ intros r ?. apply elem_of_app. by left.
        * intros [= <-]. apply Hclose; [lia| |done]. intros r' ?. by left.
      + intros [= <-]. split_and!.
        * rewrite !length_app. cbn [length]. lia.
        * intros r [Hr|Hr]%elem_of_app Hfree; apply elem_of_app.
          -- left. by apply Hkeep0.
          -- by right.
        * intros r' [?|Hr']%elem_of_app; [by apply Hshape0|].
          apply list_elem_of_singleton in Hr' as ->. by left. }
  split_and!.
  - rewrite length_app.
    rewrite <- (ClipLand.length_filter_split ClipRocks.is_rocky gdf).
    fold rocky_reefs non_rocky_reefs. lia.
  - intros r Hr Hnot Hfree. apply elem_of_app. right. apply Hkeep.
    + by apply list_elem_of_filter.
    + intros rock [? ?]%list_elem_of_filter. by apply Hfree.
  - intros r' [Hr'|Hr']%elem_of_app.
    + left. by apply list_elem_of_filter in Hr' as [_ ?].
    + destruct (Hshape r' Hr') as [Hin|?]; [|by right].
      left. by apply list_elem_of_filter in Hin as [_ ?].
Qed.

(** *** Running to the end *)

Lemma process_geometry_returns (g : G) :
  is_empty g = true \/ polygonal g = true ->
  exists r, ClipRocks.process_geometry g = Some r.
Proof.
  unfold ClipRocks.process_geometry. intros [->| ->]; [by eexists|].
  destruct (is_empty g); by eexists.
Qed.

(** X22. On an engine whose [difference] gives only Polygons,
    MultiPolygons and empty geometries, the clipping loops of stages 05 and
    07 raise nowhere: [process_geometry] never reaches a constructor call
    that fails, and each loop runs to its end. *)
Theorem polygonal_differences_never_raise :
  (forall g a : G, is_empty (difference g a) = true \/ polygonal (difference g a) = true) ->
  (forall gdf : list Row, exists clipped,
     foldl (ClipRocks.clip_row (filter ClipRocks.is_rocky gdf)) (Some [])
           (filter (fun f => ~ ClipRocks.is_rocky f) gdf) = Some clipped)
  /\ (forall (dissolved_nw : G) (shallow_rows : list Row), exists features skipped_count,
        foldl (ShallowSed.clip_shallow_row dissolved_nw) (Some (@nil Row, 0%nat)) shallow_rows
        = Some (features, skipped_count)).
Proof.
  intros Hdiff. split.
  - intros gdf.
    destruct (foldl_option_total
                (ClipRocks.clip_row (filter ClipRocks.is_rocky gdf)) (fun _ => True)
                (filter (fun f => ~ ClipRocks.is_rocky f) gdf) []) as (clipped & -> & _);
      [done| |by eexists].
    intros row cl0 _ _. unfold ClipRocks.clip_row. cbn [mbind option_bind].
    destruct (bool_decide _); [|by eexists].
    destruct (foldl_option_total ClipRocks.clip_step (fun _ => True)
                (filter (fun r => intersects (geom r) (geom row) = true)
                        (filter ClipRocks.is_rocky gdf))
                (Some (geom row))) as ([g|] & -> & _); [done| | |].
    + intros rock [g|] _ _; cbn [ClipRocks.clip_step mbind option_bind]; [|by eexists].
      destruct (intersects g (geom rock)); [|by eexists].
      destruct (process_geometry_returns _ (Hdiff g (geom rock))) as [r ->]. by eexists.
    + cbn [mbind option_bind]. destruct (is_empty g); by eexists.
    + by eexists.
  - intros dissolved_nw shallow_rows.
    destruct (foldl_option_total (ShallowSed.clip_shallow_row dissolved_nw)
                (fun _ => True) shallow_rows (@nil Row, 0%nat))
      as ([fs n] & -> & _); [done| |by exists fs, n].
    intros row st _ _. unfold ShallowSed.clip_shallow_row. cbn [mbind option_bind].
    destruct (_ || _); [by eexists|].
    unfold ShallowSed.process_geometry.
    destruct (process_geometry_returns _ (Hdiff (geom row) dissolved_nw)) as [[pg|] ->];
      cbn [mbind option_bind]; [|by eexists].
    destruct (is_empty pg); by eexists.
Qed.

End Rows.

(** *** Stage 05 with the laws of the engine *)

Section Rocks.
Context {Shape : Type} `{L : OverlayLaws Shape} `{!PartLaws Shape}.

Local Abbreviation G := (geometry Shape).
Local Abbreviation Row := (Feature (geometry Shape)).

Lemma disjoint_interiors_swap (g h : G) : disjoint_interiors g h -> disjoint_interiors h g.
Proof. intros Hd p. rewrite andb_comm. apply Hd. Qed.

Lemma mapM_polygons (polygons : list G) (ss : list Shape) :
  mapM (fun g : G => match g with Polygon s => Some s | _ => None end) polygons = Some ss ->
  polygons = Polygon <$> ss.
Proof.
  intros Hm%mapM_Some_1. induction Hm as [|g s polygons ss Hg _ IH]; [done|].
  rewrite fmap_cons, <- IH. by destruct g; simplify_eq.
Qed.

Lemma pick_polygons_within (members : list G) (g' : G) :
  ClipRocks.pick_polygons members = Some (Some g') ->
  within g' (GeometryCollection members).
Proof.
  unfold ClipRocks.pick_polygons.
  destruct (filter _ members) as [|g [|g2 l]] eqn:Hf; [done| |].
  - intros [= <-] p Hp. apply (covers_member members g); [|done].
    assert (g ∈ filter (fun g : G => polygonal g = true) members) as Hin
      by (rewrite Hf; by left).
    by apply list_elem_of_filter in Hin as [_ ?].
  - unfold MultiPolygon_of. destruct (mapM _ _) as [ss|] eqn:Hm; [|done].
    cbn [fmap option_fmap option_map]. intros [= <-] p Hp.
    apply covers_parts in Hp as (s & Hs & Hp).
    apply (covers_member members (Polygon s)); [|done].
    apply mapM_polygons in Hm.
    assert (Polygon s ∈ filter (fun g : G => polygonal g = true) members) as Hin.
    { rewrite Hf, Hm. apply list_elem_of_fmap. by exists s. }
    by apply list_elem_of_filter in Hin as [_ ?].
Qed.

Lemma process_geometry_within (g g' : G) :
  ClipRocks.process_geometry g = Some (Some g') -> within g' g.
Proof.
  intros (_ & [[-> ?]|(members & -> & Hpick)])%process_geometry_cases.
  - apply within_refl.
  - by apply pick_polygons_within.
Qed.

(** What the inner loop leaves of a geometry: part of it, clear of every
    rocky reef gone through. *)
Lemma clip_steps_spec (rocks : list Row) (g0 g : G) :
  foldl ClipRocks.clip_step (Some (Some g0)) rocks = Some (Some g) ->
  within g g0 /\ forall rock, rock ∈ rocks -> disjoint_interiors g (geom rock).
Proof.
  revert g0. induction rocks as [|rock rocks IH]; intros g0.
  - intros [= <-]. split; [apply within_refl|]. intros ? Hin. by apply elem_of_nil in Hin.
  - cbn [foldl]. unfold ClipRocks.clip_step at 2. cbn [mbind option_bind].
    destruct (intersects g0 (geom rock)) eqn:Hint.
    + destruct (ClipRocks.process_geometry _) as [[g1|]|] eqn:Hpg.
      * intros [Hw Hd]%IH. apply process_geometry_within in Hpg.
        split; [eapply within_trans; [done|]; eapply within_trans;
                  [done | apply difference_within]|].
        intros rock' [->|Hin]%elem_of_cons; [|by apply Hd].
        eapply within_disjoint; [eapply within_trans; done|]. apply difference_disjoint.
      * by rewrite clip_step_gone.
      * by rewrite clip_step_raised.
    + intros [Hw Hd]%IH. split; [done|].
      intros rock' [->|Hin]%elem_of_cons; [|by apply Hd].
      eapply within_disjoint; [done|]. by apply not_intersects_disjoint.
Qed.

(** X19. After stage 05 no other feature has an interior point in a rocky
    reef: every row of the output that is not a rocky reef has the
    attributes of a row of the input, lies within it, and shares no
    interior point with any rocky reef of the input. *)
Theorem clipped_rows_clear_of_rocks (gdf result_gdf : list Row) (r' : Row) :
  ClipRocks.clip_rocks gdf = Some result_gdf ->
  r' ∈ result_gdf -> ~ ClipRocks.is_rocky r' ->
  (forall rock, rock ∈ gdf -> ClipRocks.is_rocky rock ->
     disjoint_interiors (geom r') (geom rock))
  /\ exists r, r ∈ gdf /\ ~ ClipRocks.is_rocky r /\ attrs r' = attrs r
       /\ within (geom r') (geom r).
Proof.
  unfold ClipRocks.clip_rocks. cbv zeta.
  set (rocky_reefs := filter ClipRocks.is_rocky gdf).
  set (non_rocky_reefs := filter (fun f => ~ ClipRocks.is_rocky f) gdf).
  destruct (foldl _ _ _) as [clipped|] eqn:Hfold; [|done].
  cbn [mbind option_bind]. intros Hsome.
  assert (result_gdf = rocky_reefs ++ clipped) as ->
    by (destruct clipped; [done | by injection Hsome]).
  clear Hsome. intros Hr' Hnot.
  apply elem_of_app in Hr' as [Hr'|Hr'];
    [by apply list_elem_of_filter in Hr' as [? _]|].
  set (P := fun cl : list Row => forall r', r' ∈ cl ->
    (forall rock, rock ∈ rocky_reefs -> disjoint_interiors (geom r') (geom rock))
    /\ exists r, r ∈ non_rocky_reefs /\ attrs r' = attrs r /\ within (geom r') (geom r)).
  assert (P clipped) as Hall.
  { revert Hfold. apply (foldl_option_inv _ P); unfold P.
    - done.
    - intros ? Hin. by apply elem_of_nil in Hin.
    - intros row cl0 cl1 Hrow Hcl0. unfold ClipRocks.clip_row. cbn [mbind option_bind].
      fold rocky_reefs.
      set (hit := filter (fun r => intersects (geom r) (geom row) = true) rocky_reefs).
      assert (forall rock, rock ∈ rocky_reefs ->
                rock ∈ hit \/ disjoint_interiors (geom row) (geom rock)) as Hmiss.
      { intros rock Hrock. destruct (intersects (geom rock) (geom row)) eqn:Hint.
        - left. by apply list_elem_of_filter.
        - right. by apply disjoint_interiors_swap, not_intersects_disjoint. }
      destruct (bool_decide (0 < length hit)%nat) eqn:Hhit.
      + destruct (foldl ClipRocks.clip_step _ hit) as [[g|]|] eqn:Hsteps;
          cbn [mbind option_bind]; [| |done].
        * destruct (is_empty g); intros [= <-]; [done|].
          intros r1 [Hr1|Hr1]%elem_of_app; [by apply Hcl0|].
          apply list_elem_of_singleton in Hr1 as ->. cbn [geom attrs set_geometry].
          apply clip_steps_spec in Hsteps as [Hw Hd]. split; [|by exists row].
          intros rock Hrock. destruct (Hmiss rock Hrock) as [Hin|Hdis]; [by apply Hd|].
          by eapply within_disjoint.
        * by intros [= <-].
      + apply bool_decide_eq_false in Hhit.
        intros [= <-]. intros r1 [Hr1|Hr1]%elem_of_app; [by apply Hcl0|].
        apply list_elem_of_singleton in Hr1 as ->. split.
        * intros rock Hrock. destruct (Hmiss rock Hrock) as [Hin|Hdis]; [|done].
          exfalso. apply Hhit. destruct hit; [by apply elem_of_nil in Hin|].
          cbn [length]. lia.
        * exists row. split_and!; [done|done|apply within_refl]. }
  destruct (Hall r' Hr') as (Hclear & r & Hr & Hattrs & Hw).
  apply list_elem_of_filter in Hr as [Hrn Hr]. split.
  - intros rock Hrock Hrocky. apply Hclear. by apply list_elem_of_filter.
  - by exists r.
Qed.

(** X20. A feature that lies within the first rocky reef it meets leaves
    no trace: stage 05 ends as it does on the frame without the feature,
    with the same output or on the same exception. *)
Theorem covered_row_leaves_no_trace (l1 l2 pre post : list Row) (r a : Row) :
  ~ ClipRocks.is_rocky r ->
  polygonal (geom r) = true -> is_valid (geom r) = true ->
  filter ClipRocks.is_rocky (l1 ++ r :: l2) = pre ++ a :: post ->
  (forall rock, rock ∈ pre -> intersects (geom rock) (geom r) = false) ->
  intersects (geom a) (geom r) = true -> intersects (geom r) (geom a) = true ->
  within (geom r) (geom a) ->
  ClipRocks.clip_rocks (l1 ++ r :: l2) = ClipRocks.clip_rocks (l1 ++ l2).
Proof.
  intros Hnot Hpoly Hvalid Hrocks Hpre Hint1 Hint2 Hwithin.
  unfold ClipRocks.clip_rocks. cbv zeta.
  assert (filter ClipRocks.is_rocky (l1 ++ l2) = pre ++ a :: post) as Hrocks'.
  { rewrite <- Hrocks, !filter_app, filter_cons. by rewrite decide_False. }
  rewrite Hrocks, Hrocks'.
  rewrite !filter_app, filter_cons, decide_True by done.
  rewrite !foldl_app. cbn [foldl].
  set (acc := foldl (ClipRocks.clip_row (pre ++ a :: post)) (Some [])
                    (filter (fun f => ~ ClipRocks.is_rocky f) l1)).
  assert (ClipRocks.clip_row (pre ++ a :: post) acc r = acc) as ->; [|done].
  destruct acc as [clipped|]; [|done].
  unfold ClipRocks.clip_row. cbn [mbind option_bind].
  rewrite filter_app, filter_cons.
  rewrite (filter_none _ pre) by (intros rock Hrock; by rewrite (Hpre rock Hrock)).
  rewrite decide_True by done. cbn [app length].
  rewrite bool_decide_eq_true_2 by lia.
  cbn [foldl]. unfold ClipRocks.clip_step at 2. cbn [mbind option_bind].
  rewrite Hint2. unfold ClipRocks.process_geometry.
  rewrite (difference_empty _ _ Hpoly Hvalid Hwithin).
  by rewrite clip_step_gone.
Qed.

End Rocks.

(** *** 07-v0-3-clip-merge-shallow-sed.py *)

Section Sediment.
Context {Shape : Type} `{L : OverlayLaws Shape} `{!PartLaws Shape}.

Local Abbreviation G := (geometry Shape).
Local Abbreviation Row := (Feature (geometry Shape)).

Lemma single_part_within (pg part : G) :
  part ∈ ShallowSed.single_parts pg -> polygonal pg = true -> within part pg.
Proof.
  intros Hpart Hpoly. destruct pg as [s|s|s|ps|ps|ps|members]; try done.
  - apply list_elem_of_singleton in Hpart as ->. apply within_refl.
  - cbn [ShallowSed.single_parts] in Hpart.
    apply list_elem_of_fmap in Hpart as (s & -> & Hs).
    intros p Hp. by apply (covers_part ps s).
Qed.

(** X23. No shallow-sediment feature of stage 07 has an interior point in
    a feature of the NW layer, and each lies within a shallow-mask polygon
    that is valid and not empty. *)
Theorem sediment_clear_of_features (nw_features shallow_mask : Layer Shape)
    (sediment : list Row) (f : Row) :
  ShallowSed.shallow_sediment nw_features shallow_mask = Some sediment ->
  f ∈ sediment ->
  (forall r, r ∈ rows nw_features -> disjoint_interiors (geom f) (geom r))
  /\ exists shallow_row, shallow_row ∈ rows shallow_mask
       /\ is_valid (geom shallow_row) = true /\ is_empty (geom shallow_row) = false
       /\ within (geom f) (geom shallow_row).
Proof.
  unfold ShallowSed.shallow_sediment. cbv zeta.
  set (dissolved_nw := unary_union (geom <$> rows nw_features)).
  destruct (foldl _ _ _) as [[features skipped]|] eqn:Hfold; [|done].
  intros Hsome.
  assert (sediment = ShallowSed.with_nw_columns (columns nw_features) <$> features) as ->
    by (destruct features; [done | by injection Hsome]).
  clear Hsome. intros (f0 & -> & Hf0)%list_elem_of_fmap.
  change (geom (ShallowSed.with_nw_columns (columns nw_features) f0)) with (geom f0).
  set (P := fun st : list Row * nat => forall f0, f0 ∈ st.1 ->
    exists shallow_row, shallow_row ∈ rows shallow_mask
      /\ is_valid (geom shallow_row) = true /\ is_empty (geom shallow_row) = false
      /\ within (geom f0) (difference (geom shallow_row) dissolved_nw)).
  assert (P (features, skipped)) as Hall.
  { revert Hfold. apply (foldl_option_inv _ P); unfold P.
    - done.
    - intros ? Hin. by apply elem_of_nil in Hin.
    - intros row [fs n] st1 Hrow Hfs. unfold ShallowSed.clip_shallow_row.
      cbn [mbind option_bind fst snd].
      destruct (is_valid (geom row)) eqn:Hvalid; cbn [negb orb]; [|by intros [= <-]].
      destruct (is_empty (geom row)) eqn:Hempty; [by intros [= <-]|].
      unfold ShallowSed.process_geometry.
      destruct (ClipRocks.process_geometry _) as [[pg|]|] eqn:Hpg; cbn [mbind option_bind];
        [| by intros [= <-] | done].
      destruct (is_empty pg) eqn:Hne; intros [= <-]; [done|].
      cbn [fst]. intros f1 [Hf1|Hf1]%elem_of_app; [by apply Hfs|].
      pose proof (process_geometry_is_polygonal _ _ Hpg) as Hpoly.
      destruct (ShallowSed.emit_spec pg f1 Hpoly Hne Hf1) as (_ & _ & _ & Hpart).
      exists row. split_and!; try done.
      eapply within_trans; [by apply single_part_within|].
      by apply process_geometry_within. }
  destruct (Hall f0 Hf0) as (row & Hrow & Hvalid & Hempty & Hw). split.
  - intros r Hr p. destruct (covers (geom f0) p) eqn:Hp; [|done]. cbn [andb].
    apply Hw in Hp. rewrite covers_difference in Hp.
    apply andb_true_iff in Hp as [_ Hout%negb_true_iff].
    destruct (covers (geom r) p) eqn:Hin; [|done].
    rewrite <- Hout. symmetry. apply (covers_union _ (geom r)); [|done].
    apply list_elem_of_fmap. by exists r.
  - exists row. split_and!; try done.
    eapply within_trans; [done|apply difference_within].
Qed.

Lemma clip_shallow_row_raised (dissolved_nw : G) (l : list Row) :
  foldl (ShallowSed.clip_shallow_row dissolved_nw) None l = None.
Proof. by induction l. Qed.

(** The features appended do not depend on the count of skipped polygons. *)
Lemma clip_shallow_features_count (dissolved_nw : G) (l fs : list Row) (n n' : nat) :
  fst <$> foldl (ShallowSed.clip_shallow_row dissolved_nw) (Some (fs, n)) l
  = fst <$> foldl (ShallowSed.clip_shallow_row dissolved_nw) (Some (fs, n')) l.
Proof.
  revert fs n n'. induction l as [|row l IH]; intros fs n n'; [done|].
  cbn [foldl]. unfold ShallowSed.clip_shallow_row at 2 4. cbn [mbind option_bind fst snd].
  destruct (negb (is_valid (geom row)) || is_empty (geom row)); [apply IH|].
  destruct (ShallowSed.process_geometry _) as [[pg|]|]; cbn [mbind option_bind].
  - destruct (is_empty pg); apply IH.
  - apply IH.
  - by rewrite clip_shallow_row_raised.
Qed.

(** X24. A shallow-mask polygon that is invalid or empty, or a Polygon or
    MultiPolygon that lies within the union of the NW features, adds
    nothing: the sediment features of stage 07 are those of the mask
    without it. *)
Theorem covered_mask_polygon_adds_nothing (nw_features : Layer Shape)
    (mask_columns : list string) (l1 l2 : list Row) (r : Row) :
  is_valid (geom r) = false \/ is_empty (geom r) = true
  \/ polygonal (geom r) = true
     /\ within (geom r) (unary_union (geom <$> rows nw_features)) ->
  ShallowSed.shallow_sediment nw_features (mkLayer mask_columns (l1 ++ r :: l2))
  = ShallowSed.shallow_sediment nw_features (mkLayer mask_columns (l1 ++ l2)).
Proof.
  intros Hwhy. unfold ShallowSed.shallow_sediment. cbv zeta. cbn [rows].
  set (dissolved_nw := unary_union (geom <$> rows nw_features)).
  rewrite !foldl_app. cbn [foldl].
  destruct (foldl (ShallowSed.clip_shallow_row dissolved_nw) (Some ([], 0%nat)) l1)
    as [[fs n]|]; [|done].
  assert (exists n', ShallowSed.clip_shallow_row dissolved_nw (Some (fs, n)) r
                     = Some (fs, n')) as [n' ->].
  { unfold ShallowSed.clip_shallow_row. cbn [mbind option_bind fst snd].
    destruct (is_valid (geom r)) eqn:Hvalid; cbn [negb orb]; [|by eexists].
    destruct (is_empty (geom r)) eqn:Hempty; [by eexists|].
    destruct Hwhy as [?|[?|[Hpoly Hwithin]]]; [done|done|].
    unfold ShallowSed.process_geometry, ClipRocks.process_geometry, dissolved_nw.
    rewrite (difference_empty _ _ Hpoly Hvalid Hwithin). cbn [mbind option_bind].
    by eexists. }
  pose proof (clip_shallow_features_count dissolved_nw l2 fs n' n) as Heq.
  destruct (foldl _ (Some (fs, n')) l2) as [[fs1 n1]|],
           (foldl _ (Some (fs, n)) l2) as [[fs2 n2]|]; simplify_eq/=; done.
Qed.

End Sediment.

(** *** 08-v0-3-clip-land.py *)

Section Land.
Context {Shape : Type} `{L : OverlayLaws Shape} `{!PartLaws Shape}.

Local Abbreviation G := (geometry Shape).
Local Abbreviation Row := (Feature (option (geometry Shape))).

Variable difference_raises : G -> G -> bool.

(** A feature whose clip takes the direct path: its geometry is valid,
    GEOS does not raise on the difference, and the difference is valid
    unless it is empty. *)
Definition clips_cleanly (coastline_union : G) (f : Row) : Prop :=
  forall g, geom f = Some g ->
    is_valid g = true
    /\ difference_raises g coastline_union = false
    /\ (is_empty (difference g coastline_union) = false ->
        is_valid (difference g coastline_union) = true).

Lemma clip_geometry_clean (coastline_union g : G) :
  is_valid g = true -> difference_raises g coastline_union = false ->
  (is_empty (difference g coastline_union) = false ->
   is_valid (difference g coastline_union) = true) ->
  ClipLand.clip_geometry difference_raises coastline_union (Some g)
  = if is_empty (difference g coastline_union) then None
    else Some (difference g coastline_union).
Proof.
  intros Hvalid Hraise Hclipped. unfold ClipLand.clip_geometry.
  rewrite Hvalid, Hraise. cbv zeta.
  destruct (is_empty (difference g coastline_union)) eqn:Hem.
  - cbn [negb andb]. by rewrite Hem.
  - rewrite Hclipped by done. cbn [negb andb]. by rewrite Hem.
Qed.

(** X25. When every feature clips cleanly, every row of the output of
    stage 08 lies within the feature it came from and has no interior
    point on land: none in the coastline union, and none in any valid
    coastline polygon.  A feature that does not meet the coastline union
    keeps its region. *)
Theorem clipped_features_off_land (gdf : list Row) (coastline : list G) (f' : Row) :
  Forall (clips_cleanly (ClipLand.coastline_union_of coastline)) gdf ->
  f' ∈ ClipLand.apply_coastline_clipping difference_raises gdf coastline ->
  exists f g g',
    f ∈ gdf /\ attrs f' = attrs f /\ geom f = Some g /\ geom f' = Some g'
    /\ within g' g
    /\ disjoint_interiors g' (ClipLand.coastline_union_of coastline)
    /\ (forall c, c ∈ coastline -> is_valid c = true -> disjoint_interiors g' c)
    /\ (intersects g (ClipLand.coastline_union_of coastline) = false -> same_region g' g).
Proof.
  intros Hclean [Hhas Hin]%list_elem_of_filter.
  apply list_elem_of_fmap in Hin as (f & -> & Hf).
  rewrite Forall_forall in Hclean. specialize (Hclean f Hf).
  unfold ClipLand.has_geometry in Hhas. cbn [geom set_geometry attrs] in *.
  destruct (geom f) as [g|] eqn:Hg; [|done].
  destruct (Hclean g Hg) as (Hvalid & Hraise & Hclipped).
  rewrite (clip_geometry_clean _ _ Hvalid Hraise Hclipped) in Hhas |- *.
  set (cu := ClipLand.coastline_union_of coastline) in *.
  destruct (is_empty (difference g cu)); [done|].
  exists f, g, (difference g cu). split_and!; try done.
  - apply difference_within.
  - apply difference_disjoint.
  - intros c Hc Hcv p. destruct (covers (difference g cu) p) eqn:Hp; [|done].
    cbn [andb]. rewrite covers_difference in Hp.
    apply andb_true_iff in Hp as [_ Hout%negb_true_iff].
    destruct (covers c p) eqn:Hcp; [|done].
    rewrite <- Hout. symmetry. unfold cu, ClipLand.coastline_union_of.
    apply (covers_union _ c); [|done].
    apply list_elem_of_fmap. exists c. by rewrite Hcv.
  - intros Hmiss%not_intersects_disjoint p. rewrite covers_difference.
    specialize (Hmiss p). destruct (covers g p); [|done]. cbn [andb] in *.
    by rewrite Hmiss.
Qed.

End Land.

End Regions.
(** ** Worked scenarios on the grid engine *)

Module Scenarios.
Import Geo Disk Raster.

(** A row of cells [x0 .. x1] on the line [y = 0]. *)
Definition strip (x0 x1 : Z) : geometry Cells :=
  Polygon ((fun x => (x, 0%Z)) <$> seqZ x0 (x1 - x0 + 1)).

Definition reef (rb_type : string) (g : geometry Cells) : Feature (geometry Cells) :=
  mkFeature {[ "RB_Type_L3" := VStr rb_type ]} g.

(** A platform reef of ten cells and two intertidal overlays that overlap
    it and each other. *)
Definition platform : Feature (geometry Cells) := reef "Platform Coral Reef" (strip 0 9).
Definition intertidal_west : Feature (geometry Cells) :=
  reef "High Intertidal Coral Reef" (strip 0 6).
Definition intertidal_east : Feature (geometry Cells) :=
  reef "High Intertidal Coral Reef" (strip 4 9).
Definition intertidal_far : Feature (geometry Cells) :=
  reef "High Intertidal Coral Reef" (strip 20 26).

Import CleanOverlaps.

Lemma platform_resolved :
  (cut_out_overlaps [platform] [intertidal_west; intertidal_east]).1
  = [set_geometry platform (strip 7 9)].
Proof. vm_compute. reflexivity. Qed.

(** C1, counterexample. The platform overlaps the eastern overlay by six
    cells (0.0006, above the cut threshold); the western overlay is cut
    first and leaves three cells, all inside the eastern overlay, which is
    then below the threshold and is not cut: the resolved platform still
    overlaps it by 0.0003, more than the verification threshold. *)
Lemma residual_overlap_counterexample :
  gtb (area (intersection (geom platform) (geom intertidal_east))) cut_threshold = true
  /\ (cut_out_overlaps [platform] [intertidal_west; intertidal_east]).1
     = [set_geometry platform (strip 7 9)]
  /\ area (intersection (strip 7 9) (geom intertidal_east)) = Q2Qc (3 # 10000)
  /\ gtb (area (intersection (strip 7 9) (geom intertidal_east))) verify_threshold = true.
Proof.
  split_and!.
  - vm_compute. reflexivity.
  - apply platform_resolved.
  - apply Qc_is_canon. vm_compute. reflexivity.
  - vm_compute. reflexivity.
Qed.

Lemma cut_out_overlaps_residual_witness :
  exists b,
    b ∈ [platform] /\ attrs (set_geometry platform (strip 7 9)) = attrs b
    /\ geom (set_geometry platform (strip 7 9))
       = resolved_geometry [intertidal_west; intertidal_east] (geom b)
    /\ (forall a, a ∈ [intertidal_west; intertidal_east] ->
          area (intersection (geom (set_geometry platform (strip 7 9))) (geom a))
          <= cut_threshold)
    /\ (forall pre a post, [intertidal_west; intertidal_east] = pre ++ a :: post ->
          cut_threshold < area (intersection (resolved_geometry pre (geom b)) (geom a)) ->
          area (intersection (geom (set_geometry platform (strip 7 9))) (geom a)) = 0).
Proof.
  apply (cut_out_overlaps_residual [platform] [intertidal_west; intertidal_east]).
  rewrite platform_resolved. by left.
Defined.

Lemma cut_out_overlaps_idempotent_witness :
  cut_out_overlaps (cut_out_overlaps [platform] [intertidal_west; intertidal_east]).1
                   [intertidal_west; intertidal_east]
  = ((cut_out_overlaps [platform] [intertidal_west; intertidal_east]).1, 0%nat).
Proof. apply cut_out_overlaps_idempotent. Defined.

(** C3, counterexample. The same target and the same two overlays, taken
    in the two possible orders, leave different regions. *)
Lemma order_dependence_counterexample :
  [intertidal_east; intertidal_west] ≡ₚ [intertidal_west; intertidal_east]
  /\ resolved_geometry [intertidal_west; intertidal_east] (strip 0 9) = strip 7 9
  /\ resolved_geometry [intertidal_east; intertidal_west] (strip 0 9) = strip 0 3
  /\ covers (strip 7 9) (7%Z, 0%Z) = true
  /\ covers (strip 0 3) (7%Z, 0%Z) = false.
Proof.
  split_and!; [apply Permutation_swap | by vm_compute..].
Qed.

Lemma resolved_geometry_order_independent_witness :
  non_overlapping [intertidal_west; intertidal_far]
  /\ covers (resolved_geometry [intertidal_west; intertidal_far] (strip 0 29)) (8%Z, 0%Z)
     = covers (resolved_geometry [intertidal_far; intertidal_west] (strip 0 29)) (8%Z, 0%Z).
Proof.
  assert (non_overlapping [intertidal_west; intertidal_far]) as Hno.
  { simpl. split_and!; [|done|done].
    apply Forall_singleton, not_intersects_disjoint. vm_compute. reflexivity. }
  split; [exact Hno|].
  apply (resolved_geometry_order_independent
           [intertidal_west; intertidal_far] [intertidal_far; intertidal_west]
           (strip 0 29) (Permutation_swap _ _ _) Hno).
Defined.

(** *** Stage 02 on a small disk *)

Definition all_positions (gdf : list (Feature (geometry Cells))) (g : geometry Cells)
  : list nat := seq 0 (length gdf).

Definition first_cell (g : geometry Cells) : geometry Cells := Point (take 1 (cells_of g)).

Definition stage02 (fs : gmap string (Layer Cells)) : outcome (gmap string (Layer Cells)) :=
  CleanOverlaps.main (fun _ => true) all_positions (fun _ _ => false) first_cell fs.

Definition review_layer : Layer Cells :=
  mkLayer ["RB_Type_L3"] [platform; intertidal_west; intertidal_east].

(** The combined frame of the stage for [review_layer]. *)
Definition combined_frame : list (Feature (geometry Cells)) :=
  [set_geometry platform (strip 7 9); intertidal_west; intertidal_east].


Definition remaining_overlaps : list (@Overlap Cells) :=
  default [] (identify_overlaps (fun _ => true) all_positions (fun _ _ => false)
                                combined_frame).

Lemma identify_overlaps_genuine_witness :
  Forall (genuine_overlap combined_frame) remaining_overlaps
  /\ length remaining_overlaps = 2%nat
  /\ verify_threshold < cut_threshold.
Proof.
  destruct (identify_overlaps_genuine (fun _ => true) all_positions (fun _ _ => false)
              combined_frame remaining_overlaps) as [Hall Hlt].
  - vm_compute. reflexivity.
  - split_and!; [exact Hall | vm_compute; reflexivity | exact Hlt].
Defined.

(** A disk on which the output of stage 02 is already there, empty. *)
Definition disk_with_output : gmap string (Layer Cells) :=
  <[output_shapefile := mkLayer ["RB_Type_L3"] []]>
    (<[input_shapefile := review_layer]> ∅).

(** C7, counterexample. Stage 02 starts with its output file on disk, does
    not stop, and ends with the file replaced by the frame it built. *)
Lemma overwrite_counterexample :
  (rows <$> disk_with_output !! output_shapefile) = Some []
  /\ (fs' ← files_after (stage02 disk_with_output); rows <$> fs' !! output_shapefile)
     = Some combined_frame.
Proof. split; by vm_compute. Qed.

(** A disk on which the output of stage 03 is already there. *)
Definition disk_with_cross_walk : gmap string (Layer Cells) :=
  <[CrossWalk.OUT_PATH := mkLayer ["RB_Type_L3"] []]>
    (<[CrossWalk.IN_PATH := review_layer]> ∅).

Lemma output_guard_witness :
  CrossWalk.main (fun gdf => gdf) disk_with_cross_walk
  = Exit CrossWalk.output_exists_message.
Proof.
  apply (CrossWalk.output_guard (fun gdf => gdf) (fun _ => true) all_positions
           (fun _ _ => false) first_cell disk_with_cross_walk).
  vm_compute. by eexists.
Defined.

(** *** Stage 04: three rocky reefs joined by two AIMS polygons *)

Import MergeRockyReefs.

Definition rocky (id : string) (g : geometry Cells) : Feature (geometry Cells) :=
  mkFeature {[ "Feat_L3" := VStr "Rocky Reef"; "DebugID" := VStr id ]} g.

(** Reefs at cells 0, 4 and 8; the first AIMS polygon reaches from the
    second reef to the third, the second from the first to the second. *)
Definition nw_layer : Layer Cells :=
  mkLayer ["Feat_L3"; "DebugID"]
          [rocky "NW_0" (strip 0 0); rocky "NW_1" (strip 4 4); rocky "NW_2" (strip 8 8)].

Definition aims_layer : Layer Cells :=
  mkLayer [] [mkFeature ∅ (strip 5 7); mkFeature ∅ (strip 1 3)].

Local Abbreviation merge_run :=
  (merge_rocky_reefs all_positions elements nw_layer aims_layer).

Definition merged : Merged :=
  default (mkMerged (mkTagging ∅ ∅ []) [] ∅ [] [] ∅ ∅ ∅ []) merge_run.

Lemma merge_run_merged : merge_run = Some merged.
Proof. vm_compute. reflexivity. Qed.

(** C2, counterexample. The three reefs form one component, found from the
    reef at position 1, the first key of the connection graph.  The output
    keeps the row and identifier of that reef; the reef at position 0,
    first in the NW frame, is removed and reported missing. *)
Lemma first_by_order_counterexample :
  debug_id <$> rows (tracked nw_layer) = [VStr "NW_0"; VStr "NW_1"; VStr "NW_2"]
  /\ connected_components merged = [[1; 2; 0]]%nat
  /\ original_indices (rows (tracked nw_layer)) = [0; 1; 2]%nat
  /\ debug_id <$> gdf_result merged = [VStr "NW_1"]
  /\ (nw_kept merged).*1 = [1%nat]
  /\ bool_decide (VStr "NW_0" ∈ missing_nw_ids merged) = true.
Proof. split_and!; by vm_compute. Qed.

Lemma component_survivor_witness :
  exists p others po row',
    [1; 2; 0]%nat = p :: others
    /\ (po, row') ∈ nw_kept merged
    /\ row' ∈ gdf_result merged
    /\ forall o, o ∈ others ->
         exists oo, original_indices (rows (tracked nw_layer)) !! o = Some oo
                    /\ oo ∈ nw_features_to_remove merged
                    /\ oo ∉ (nw_kept merged).*1.
Proof.
  assert ([1; 2; 0]%nat ∈ connected_components merged) as Hin
    by (vm_compute; by left).
  destruct (component_survivor all_positions elements nw_layer aims_layer merged
              [1; 2; 0]%nat merge_run_merged Hin)
    as (p & others & po & row0 & row' & Hc & _ & _ & _ & _ & Hkept & Hres & _ & _ & Hothers).
  by exists p, others, po, row'.
Defined.

Lemma identifiers_accounted_witness :
  (length (filter (fun f => debug_id f = VStr "NW_0") (gdf_result merged))
   + length (filter (fun f => debug_id f = VStr "NW_0") (missing_features merged)) = 1)%nat
  /\ (length (filter (fun f => debug_id f = VStr "NW_1") (gdf_result merged))
      + length (filter (fun f => debug_id f = VStr "NW_1") (missing_features merged)) = 1)%nat.
Proof.
  destruct (identifiers_accounted all_positions elements nw_layer aims_layer merged
              merge_run_merged) as (_ & _ & _ & _ & Honce).
  assert (NoDup (debug_id <$> rows (tracked nw_layer))) as Hnd
    by (apply (bool_decide_unpack _); by vm_compute).
  assert (VNull ∉ debug_id <$> rows (tracked nw_layer)) as Hnull
    by (apply (bool_decide_unpack _); by vm_compute).
  assert (forall a, a ∈ rows aims_layer ->
            debug_id a ∉ debug_id <$> rows (tracked nw_layer)) as Haims.
  { apply Forall_forall. repeat (apply Forall_cons; split;
      [apply (bool_decide_unpack _); by vm_compute|]). apply Forall_nil_2. }
  split; apply (Honce Hnd Hnull Haims); apply (bool_decide_unpack _); by vm_compute.
Defined.

(** *** Stage 08: a coast of four cells *)

Import ClipLand.

Definition no_raise (g other : geometry Cells) : bool := false.

Definition inland : Feature (option (geometry Cells)) :=
  mkFeature {[ "Feat_L3" := VStr "Rocky Reef" ]} (Some (strip 0 1)).
Definition coastal : Feature (option (geometry Cells)) :=
  mkFeature {[ "Feat_L3" := VStr "Coral Reef Shallow" ]} (Some (strip 2 5)).
Definition offshore : Feature (option (geometry Cells)) :=
  mkFeature {[ "Feat_L3" := VStr "Coral Reef Shallow" ]} (Some (strip 8 9)).

Definition coastline : list (geometry Cells) := [strip 0 3].

(** A bowtie away from the coast, on the engine with crossed rings: two
    lobes that meet at a corner. *)
Definition bowtie : geometry Twisted.Ring := Polygon (true, [(20%Z, 0%Z); (21%Z, 1%Z)]).

Definition two_lobes : geometry Twisted.Ring := Polygon (false, [(20%Z, 0%Z); (21%Z, 1%Z)]).

Definition ring_coastline : list (geometry Twisted.Ring) :=
  [Polygon (false, [(0%Z, 0%Z); (1%Z, 0%Z); (2%Z, 0%Z); (3%Z, 0%Z)])].

Definition ring_no_raise (g other : geometry Twisted.Ring) : bool := false.

Definition bowtie_row : Feature (option (geometry Twisted.Ring)) :=
  mkFeature {[ "Feat_L3" := VStr "Coral Reef Shallow" ]} (Some bowtie).

(** C6, counterexample. The bowtie is invalid and its area is 0.  The clip
    repairs it into its two lobes, takes the coastline off them, which
    they do not meet, and returns a valid geometry of area 0.0002: more
    than the feature had. *)
Lemma repaired_bowtie_counterexample :
  @is_valid _ Twisted.twisted_engine bowtie = false
  /\ @is_empty _ Twisted.twisted_engine bowtie = false
  /\ @area _ Twisted.twisted_engine bowtie = 0
  /\ @make_valid _ Twisted.twisted_engine bowtie
     = MultiPolygon [(false, [(20%Z, 0%Z)]); (false, [(21%Z, 1%Z)])]
  /\ @clip_geometry _ Twisted.twisted_engine ring_no_raise
       (@coastline_union_of _ Twisted.twisted_engine ring_coastline) (Some bowtie)
     = Some two_lobes
  /\ @area _ Twisted.twisted_engine two_lobes = Q2Qc (2 # 10000)
  /\ gtb (@area _ Twisted.twisted_engine two_lobes) (@area _ Twisted.twisted_engine bowtie)
     = true
  /\ @apply_coastline_clipping _ Twisted.twisted_engine ring_no_raise [bowtie_row]
       ring_coastline
     = [set_geometry bowtie_row (Some two_lobes)].
Proof.
  split_and!; try (vm_compute; reflexivity); apply Qc_is_canon; vm_compute; reflexivity.
Qed.

Lemma clip_never_grows_witness :
  (area (strip 4 5) <= area (strip 2 5))
  /\ (@area _ Twisted.twisted_engine two_lobes
      <= @area _ Twisted.twisted_engine (@make_valid _ Twisted.twisted_engine bowtie))
  /\ clip_geometry no_raise (coastline_union_of coastline) (geom inland) = None
  /\ (length (apply_coastline_clipping no_raise [inland; coastal; offshore] coastline)
      + length (filter (removed_by_clip no_raise (coastline_union_of coastline))
                       [inland; coastal; offshore])
      = 3)%nat
  /\ length (apply_coastline_clipping no_raise [inland; coastal; offshore] coastline) = 2%nat.
Proof.
  destruct (clip_never_grows no_raise [inland; coastal; offshore] coastline)
    as (Harea & _ & Hinside & Hcount & _).
  destruct (@clip_never_grows _ Twisted.twisted_engine Twisted.twisted_laws ring_no_raise
              [bowtie_row] ring_coastline) as (_ & Hrepaired & _).
  split_and!.
  - apply (Harea (strip 2 5) (strip 4 5)).
    + reflexivity.
    + reflexivity.
    + vm_compute. reflexivity.
  - apply (Hrepaired bowtie two_lobes).
    + reflexivity.
    + reflexivity.
    + reflexivity.
    + vm_compute. reflexivity.
  - apply (Hinside inland (strip 0 1)).
    + by left.
    + reflexivity.
    + reflexivity.
    + reflexivity.
    + apply raster_within_check. vm_compute. reflexivity.
    + reflexivity.
  - exact Hcount.
  - vm_compute. reflexivity.
Defined.

(** *** Stage 07: a shallow mask split by a reef *)

Import ShallowSed.

Definition reef_layer : Layer Cells :=
  mkLayer ["Feat_L3"; "DebugID"] [rocky "NW_0" (strip 2 2)].

Definition shallow_layer : Layer Cells := mkLayer [] [mkFeature ∅ (strip 0 4)].

(** With [parts_engine] the rest of the mask comes back as a MultiPolygon
    of four parts. *)
Definition sediment : list (Feature (geometry Cells)) :=
  default [] (@shallow_sediment Cells parts_engine reef_layer shallow_layer).

Lemma sediment_features_well_formed_witness :
  Forall (fun f =>
            @well_formed_sediment Cells parts_engine f
            /\ @emitted_from Cells parts_engine
                 (raster_union (geom <$> rows reef_layer)) (rows shallow_layer) f)
         sediment
  /\ geom <$> sediment = [strip 0 0; strip 1 1; strip 3 3; strip 4 4].
Proof.
  split.
  - apply (@sediment_features_well_formed Cells parts_engine reef_layer shallow_layer).
    vm_compute. reflexivity.
  - vm_compute. reflexivity.
Defined.

(** *** Stages 02 and 05: what is not cut *)

Definition typed (feat : string) (g : geometry Cells) : Feature (geometry Cells) :=
  mkFeature {[ "Feat_L3" := VStr feat ]} g.

Definition rocks_frame : list (Feature (geometry Cells)) :=
  [typed "Coral Reef Shallow" (strip 0 5); typed "Rocky Reef" (strip 4 7);
   typed "Coral Reef Shallow" (strip 20 22)].


End Scenarios.

(** ** Runs of the stages on the grid engine *)

Module Runs.
Import Geo Disk Raster Scenarios.

(** *** Stage 02 *)

Import CleanOverlaps.

Lemma cut_out_overlaps_shrinks_witness :
  (length (cut_out_overlaps [platform] [intertidal_west; intertidal_east]).1
   <= length [platform])%nat
  /\ ((cut_out_overlaps [platform] [intertidal_west; intertidal_east]).2
      <= length [platform] * length [intertidal_west; intertidal_east])%nat
  /\ forall b', b' ∈ (cut_out_overlaps [platform] [intertidal_west; intertidal_east]).1 ->
       exists b, b ∈ [platform] /\ attrs b' = attrs b
         /\ within (geom b') (geom b)
         /\ area (geom b') <= area (geom b)
         /\ ([intertidal_west; intertidal_east] ≠ [] -> is_empty (geom b') = false).
Proof.
  apply (CleanOverlapsRun.cut_out_overlaps_shrinks [platform]
           [intertidal_west; intertidal_east]).
Defined.

Lemma no_overlap_counted_no_change_witness :
  (cut_out_overlaps [platform] [intertidal_far]).1
  = filter (fun t => is_empty (geom t) = false) [platform].
Proof.
  apply (CleanOverlapsRun.no_overlap_counted_no_change [platform] [intertidal_far]).
  - discriminate.
  - discriminate.
  - vm_compute. reflexivity.
Defined.

(** A platform reef of seven cells that lies within an intertidal overlay. *)
Definition small_platform : Feature (geometry Cells) := reef "Platform Coral Reef" (strip 1 7).
Definition wide_intertidal : Feature (geometry Cells) :=
  reef "High Intertidal Coral Reef" (strip 0 9).

Lemma swallowed_target_dropped_witness :
  is_empty (resolved_geometry ([] ++ wide_intertidal :: []) (geom small_platform)) = true
  /\ resolve_row ([] ++ wide_intertidal :: []) small_platform = None
  /\ (length (cut_out_overlaps [small_platform] ([] ++ wide_intertidal :: [])).1
      < length [small_platform])%nat.
Proof.
  apply (CleanOverlapsRun.swallowed_target_dropped [small_platform] [] []
           wide_intertidal small_platform).
  - by left.
  - reflexivity.
  - reflexivity.
  - apply raster_within_check. vm_compute. reflexivity.
  - vm_compute. reflexivity.
  - intros a' Ha'. by apply elem_of_nil in Ha'.
Defined.

Lemma scan_reports_overlapping_pairs_witness :
  exists overlaps,
    identify_overlaps (fun _ => true) all_positions (fun _ _ => false) combined_frame
    = Some overlaps
    /\ (forall o, o ∈ overlaps
          <-> CleanOverlapsRun.reported (fun _ => true) all_positions (fun _ _ => false)
                combined_frame o)
    /\ ((fun _ : list (Feature (geometry Cells)) => true) combined_frame = false ->
        NoDup ((fun o => (feature_i_id o, feature_j_id o)) <$> overlaps)).
Proof.
  apply (CleanOverlapsRun.scan_reports_overlapping_pairs (fun _ => true) all_positions
           (fun _ _ => false) combined_frame).
  intros g j _ Hj. unfold all_positions in Hj. apply elem_of_seq in Hj. lia.
Defined.

(** A run of stage 02 from a disk that holds the input only. *)
Definition some_first_cell (g : geometry Cells) : option (geometry Cells) :=
  Some (first_cell g).

Definition disk_with_input : gmap string (Layer Cells) :=
  <[input_shapefile := review_layer]> ∅.

Definition disk_after_run : gmap string (Layer Cells) :=
  default ∅ (files_after (CleanOverlapsRun.main (fun _ => true) all_positions
                            (fun _ _ => false) some_first_cell false disk_with_input)).

Lemma run_writes_only_its_outputs_witness :
  exists layer result_gdf remaining records,
    disk_with_input !! input_shapefile = Some layer
    /\ combine (rows layer) = Some result_gdf
    /\ identify_overlaps (fun _ => true) all_positions (fun _ _ => false) result_gdf
       = Some remaining
    /\ CleanOverlapsRun.point_records some_first_cell false remaining = Some records
    /\ disk_after_run !! output_shapefile = Some (mkLayer (columns layer) result_gdf)
    /\ disk_after_run !! overlap_points_shapefile
       = (if bool_decide (records = []) then disk_with_input !! overlap_points_shapefile
          else Some (mkLayer point_columns records))
    /\ disk_after_run !! input_shapefile = Some layer
    /\ forall path, path ≠ output_shapefile -> path ≠ overlap_points_shapefile ->
         disk_after_run !! path = disk_with_input !! path.
Proof.
  apply (CleanOverlapsRun.run_writes_only_its_outputs (fun _ => true) all_positions
           (fun _ _ => false) some_first_cell false disk_with_input disk_after_run).
  vm_compute. reflexivity.
Defined.

(** A frame in which a row without a type overlaps a typed one. *)
Definition untyped_layer : Layer Cells :=
  mkLayer ["RB_Type_L3"] [intertidal_west; mkFeature ∅ (strip 4 9)].

Definition disk_with_untyped : gmap string (Layer Cells) :=
  <[input_shapefile := untyped_layer]> ∅.

Lemma unsortable_types_crash_witness :
  CleanOverlapsRun.main (fun _ => true) all_positions (fun _ _ => false) some_first_cell
                        false disk_with_untyped
  = Crash.
Proof.
  apply (CleanOverlapsRun.unsortable_types_crash (fun _ => true) all_positions
           (fun _ _ => false) some_first_cell false disk_with_untyped untyped_layer
           (rows untyped_layer)
           (mkOverlap 0 1 (VStr "High Intertidal Coral Reef") VNull
                      (intersection (strip 0 6) (strip 4 9)))).
  - vm_compute. reflexivity.
  - by left.
  - vm_compute. reflexivity.
  - exists intertidal_west, (mkFeature ∅ (strip 4 9)).
    split_and!; try reflexivity.
    + cbn. lia.
    + intros _. cbn. right. by left.
  - exists "High Intertidal Coral Reef". by left.
Defined.

(** *** Stage 03 *)

Definition same_crs (g : geometry Cells) : geometry Cells := g.
Definition unchanged (s : string) : string := s.

(** [int] on the two numerals of the run. *)
Definition read_int (s : string) : option Z :=
  if decide (s = "40") then Some 40%Z
  else if decide (s = "250") then Some 250%Z
  else None.

Definition review_row (rb_type edge_acc : string) (g : geometry Cells)
  : Feature (geometry Cells) :=
  mkFeature {[ "RB_Type_L3" := VStr rb_type; "ImgSrc" := VStr "Sentinel 2";
               "Edg_acc" := VStr edge_acc; "FeatConf" := VStr "High" ]} g.

Definition clean_layer : Layer Cells :=
  mkLayer ["ImgSrc"; "Edg_acc"; "Notes"; "FeatConf"; "TypeConf"; "RB_Type_L3";
           "DepthCat"; "DepthCatSr"]
          [review_row "Fringing Rocky Reef" "40" (strip 0 2);
           review_row "Seagrass" "NA" (strip 5 6)].

Local Abbreviation cross_walk_run :=
  (ClassCrossWalk.crosswalk same_crs unchanged unchanged read_int clean_layer).

Definition cross_walked : Layer Cells := default (mkLayer [] []) cross_walk_run.

Lemma cross_walk_run_result : cross_walk_run = Some cross_walked.
Proof. vm_compute. reflexivity. Qed.

Lemma clean_layer_no_clash : ClassCrossWalk.no_rename_clash clean_layer.
Proof.
  split; intros _; apply (bool_decide_unpack _); vm_compute; reflexivity.
Qed.

Lemma crosswalk_rows_witness :
  columns cross_walked = ClassCrossWalk.keep ++ ["DebugID"]
  /\ length (rows cross_walked)
     = length (filter (fun f => is_empty (geom f) = false) (rows clean_layer))
  /\ (forall k f,
        filter (fun f0 => is_empty (geom f0) = false) (rows clean_layer) !! k = Some f ->
        exists f', rows cross_walked !! k = Some f'
          /\ ClassCrossWalk.written_from same_crs unchanged unchanged read_int
               clean_layer k f f')
  /\ forall f', f' ∈ rows cross_walked -> forall s, cell f' "EdgeAcc_m" ≠ VStr s.
Proof.
  apply (ClassCrossWalk.crosswalk_rows same_crs unchanged unchanged read_int clean_layer
           cross_walked clean_layer_no_clash cross_walk_run_result).
Defined.


Lemma crosswalk_identifiers_witness :
  MergeRockyReefs.with_debug_id cross_walked = cross_walked
  /\ (forall k row,
        rows (MergeRockyReefs.tracked cross_walked) !! k = Some row ->
        MergeRockyReefs.debug_id row = VStr ("NW_" +:+ pretty k))
  /\ NoDup (MergeRockyReefs.debug_id <$> rows (MergeRockyReefs.tracked cross_walked))
  /\ VNull ∉ MergeRockyReefs.debug_id <$> rows (MergeRockyReefs.tracked cross_walked).
Proof.
  apply (ClassCrossWalk.crosswalk_identifiers same_crs unchanged unchanged read_int
           clean_layer cross_walked clean_layer_no_clash cross_walk_run_result).
Defined.

Definition first_cross_walked : Feature (geometry Cells) :=
  default (mkFeature ∅ (strip 0 0)) (head (rows cross_walked)).

Lemma crosswalk_classes_witness :
  (MergeRockyReefs.is_rock first_cross_walked
   <-> cell first_cross_walked "RB_Type_L3" ∈ VStr <$> ClassCrossWalk.rocky_types)
  /\ (cell first_cross_walked "Feat_L3" = VStr "Unknown"
      <-> ClassCrossWalk.MAP_get (cell first_cross_walked "RB_Type_L3") = None).
Proof.
  apply (ClassCrossWalk.crosswalk_classes same_crs unchanged unchanged read_int
           clean_layer cross_walked first_cross_walked clean_layer_no_clash
           cross_walk_run_result).
  apply (list_elem_of_lookup_2 _ 0%nat). vm_compute. reflexivity.
Defined.

(** *** Stage 04 *)

Import MergeRockyReefs.

Lemma elements_members (s : gset nat) (x : nat) : x ∈ elements s <-> x ∈ s.
Proof. apply elem_of_elements. Qed.

Lemma linked_reefs_share_component_witness :
  NoDup (mjoin (connected_components merged))
  /\ (forall a b,
        MergeRun.linked all_positions (MergeRun.rock_of nw_layer)
                        (MergeRun.aims_of nw_layer aims_layer) a b ->
        exists c, c ∈ connected_components merged /\ a ∈ c /\ b ∈ c)
  /\ forall c, c ∈ connected_components merged ->
       exists p rest, c = p :: rest
         /\ forall x, x ∈ c
              <-> rtc (MergeRun.linked all_positions (MergeRun.rock_of nw_layer)
                                       (MergeRun.aims_of nw_layer aims_layer)) p x.
Proof.
  apply (MergeRun.linked_reefs_share_component all_positions elements elements_members
           nw_layer aims_layer merged merge_run_merged).
Defined.

Lemma output_row_count_witness :
  (length (gdf_result merged) + size (nw_features_to_remove merged)
   = length (rows nw_layer) + length (aims_new merged))%nat.
Proof.
  apply (MergeRun.output_row_count all_positions elements elements_members
           nw_layer aims_layer merged merge_run_merged).
Defined.

(** A rocky reef with one AIMS polygon beside it, a coral reef away from
    both, and an AIMS polygon that meets no reef. *)
Definition coral (id : string) (g : geometry Cells) : Feature (geometry Cells) :=
  mkFeature {[ "Feat_L3" := VStr "Coral Reef Shallow"; "DebugID" := VStr id ]} g.

Definition lone_layer : Layer Cells :=
  mkLayer ["Feat_L3"; "DebugID"] [rocky "NW_0" (strip 0 0); coral "NW_1" (strip 20 22)].

Definition lone_aims : Layer Cells :=
  mkLayer [] [mkFeature ∅ (strip 1 3); mkFeature ∅ (strip 40 41)].

Local Abbreviation lone_run :=
  (merge_rocky_reefs all_positions elements lone_layer lone_aims).

Definition lone_merged : Merged :=
  default (mkMerged (mkTagging ∅ ∅ []) [] ∅ [] [] ∅ ∅ ∅ []) lone_run.

Lemma lone_run_merged : lone_run = Some lone_merged.
Proof. vm_compute. reflexivity. Qed.

Definition coral_row : Feature (geometry Cells) :=
  default (coral "" (strip 0 0)) (MergeRun.nw_of lone_layer !! 1%nat).

Lemma untouched_rows_unchanged_witness :
  (1%nat, coral_row) ∈ nw_kept lone_merged
  /\ coral_row ∈ gdf_result lone_merged
  /\ 1%nat ∉ nw_features_to_remove lone_merged.
Proof.
  apply (MergeRun.untouched_rows_unchanged all_positions elements elements_members
           lone_layer lone_aims lone_merged 1%nat coral_row lone_run_merged).
  - vm_compute. reflexivity.
  - left. intros Hrock. vm_compute in Hrock. discriminate.
Defined.

Lemma aims_rows_accounted_witness :
  aims_new lone_merged
  = (fun ir : nat * Feature (geometry Cells) =>
       set_attr "debug_status" (VStr "new_feature") ir.2)
    <$> filter (fun ir : nat * Feature (geometry Cells) =>
                  MergeRun.touches_any all_positions (MergeRun.rock_of lone_layer)
                                       (geom ir.2) = false)
               (labelled (MergeRun.aims_of lone_layer lone_aims))
  /\ forall r p,
       r ∈ MergeRun.aims_of lone_layer lone_aims ->
       MergeRun.merges_with all_positions (MergeRun.rock_of lone_layer) (geom r) p ->
       exists gs, nw_groups (tagged lone_merged) !! p = Some gs /\ geom r ∈ gs.
Proof.
  apply (MergeRun.aims_rows_accounted all_positions elements lone_layer lone_aims
           lone_merged lone_run_merged).
Defined.

Lemma isolated_reef_dissolved_witness :
  exists k row0,
    original_indices (MergeRun.nw_of lone_layer) !! 0%nat = Some k
    /\ MergeRun.nw_of lone_layer !! k = Some row0
    /\ (k, set_attr "debug_status" (VStr "modified_isolated")
             (set_geometry row0 (unary_union (geom row0 :: [strip 1 3]))))
       ∈ nw_kept lone_merged
    /\ k ∉ nw_features_to_remove lone_merged.
Proof.
  apply (MergeRun.isolated_reef_dissolved all_positions elements elements_members
           lone_layer lone_aims lone_merged 0%nat [strip 1 3] lone_run_merged).
  - vm_compute. reflexivity.
  - intros c Hc. vm_compute in Hc. by apply elem_of_nil in Hc.
Defined.

(** *** Stage 05 *)

Import Regions.

Definition clean_rocks_frame : list (Feature (geometry Cells)) :=
  [typed "Rocky Reef" (strip 4 7); typed "Coral Reef Shallow" (strip 0 3);
   typed "Coral Reef Shallow" (strip 20 22)].

Lemma rocks_frame_clipped : ClipRocks.clip_rocks rocks_frame = Some clean_rocks_frame.
Proof. vm_compute. reflexivity. Qed.

Lemma clip_rocks_rows_witness :
  (length clean_rocks_frame <= length rocks_frame)%nat
  /\ (forall r, r ∈ rocks_frame -> ~ ClipRocks.is_rocky r ->
        (forall rock, rock ∈ rocks_frame -> ClipRocks.is_rocky rock ->
           intersects (geom rock) (geom r) = false) ->
        r ∈ clean_rocks_frame)
  /\ (forall r', r' ∈ clean_rocks_frame ->
        r' ∈ rocks_frame \/ polygonal (geom r') = true /\ is_empty (geom r') = false).
Proof.
  apply (Regions.clip_rocks_rows rocks_frame clean_rocks_frame rocks_frame_clipped).
Defined.

Lemma polygonal_differences_never_raise_witness :
  (forall gdf : list (Feature (geometry Cells)), exists clipped,
     foldl (ClipRocks.clip_row (filter ClipRocks.is_rocky gdf)) (Some [])
           (filter (fun f => ~ ClipRocks.is_rocky f) gdf) = Some clipped)
  /\ (forall (dissolved_nw : geometry Cells) (shallow_rows : list (Feature (geometry Cells))),
        exists features skipped_count,
          foldl (ShallowSed.clip_shallow_row dissolved_nw) (Some ([], 0%nat)) shallow_rows
          = Some (features, skipped_count)).
Proof.
  apply (@Regions.polygonal_differences_never_raise Cells raster_engine).
  intros g a. right. reflexivity.
Defined.

Lemma clipped_rows_clear_of_rocks_witness :
  (forall rock, rock ∈ rocks_frame -> ClipRocks.is_rocky rock ->
     disjoint_interiors (strip 0 3) (geom rock))
  /\ exists r, r ∈ rocks_frame /\ ~ ClipRocks.is_rocky r
       /\ attrs (typed "Coral Reef Shallow" (strip 0 3)) = attrs r
       /\ within (strip 0 3) (geom r).
Proof.
  apply (Regions.clipped_rows_clear_of_rocks rocks_frame clean_rocks_frame
           (typed "Coral Reef Shallow" (strip 0 3)) rocks_frame_clipped).
  - right. by left.
  - intros Hrocky. vm_compute in Hrocky. discriminate.
Defined.

(** A coral patch inside a rocky reef, and a coral reef away from it that
    the stage keeps. *)
Definition covered_frame : list (Feature (geometry Cells)) :=
  [typed "Rocky Reef" (strip 4 7); typed "Coral Reef Shallow" (strip 20 22)].

Lemma covered_row_leaves_no_trace_witness :
  ClipRocks.clip_rocks ([] ++ typed "Coral Reef Shallow" (strip 5 6) :: covered_frame)
  = ClipRocks.clip_rocks ([] ++ covered_frame)
  /\ ClipRocks.clip_rocks ([] ++ covered_frame) = Some covered_frame.
Proof.
  split; [|vm_compute; reflexivity].
  apply (Regions.covered_row_leaves_no_trace [] covered_frame [] []
           (typed "Coral Reef Shallow" (strip 5 6)) (typed "Rocky Reef" (strip 4 7))).
  - intros Hrocky. vm_compute in Hrocky. discriminate.
  - reflexivity.
  - reflexivity.
  - vm_compute. reflexivity.
  - intros rock Hrock. by apply elem_of_nil in Hrock.
  - vm_compute. reflexivity.
  - vm_compute. reflexivity.
  - apply raster_within_check. vm_compute. reflexivity.
Defined.

(** *** Stage 07 *)

Definition sediment_rows : list (Feature (geometry Cells)) :=
  default [] (ShallowSed.shallow_sediment reef_layer shallow_layer).

Lemma sediment_run : ShallowSed.shallow_sediment reef_layer shallow_layer = Some sediment_rows.
Proof. vm_compute. reflexivity. Qed.

Definition first_sediment : Feature (geometry Cells) :=
  default (mkFeature ∅ (strip 0 0)) (head sediment_rows).

Lemma sediment_clear_of_features_witness :
  (forall r, r ∈ rows reef_layer -> disjoint_interiors (geom first_sediment) (geom r))
  /\ exists shallow_row, shallow_row ∈ rows shallow_layer
       /\ is_valid (geom shallow_row) = true /\ is_empty (geom shallow_row) = false
       /\ within (geom first_sediment) (geom shallow_row).
Proof.
  apply (Regions.sediment_clear_of_features reef_layer shallow_layer sediment_rows
           first_sediment sediment_run).
  apply (list_elem_of_lookup_2 _ 0%nat). vm_compute. reflexivity.
Defined.

Lemma covered_mask_polygon_adds_nothing_witness :
  ShallowSed.shallow_sediment reef_layer
    (mkLayer [] ([mkFeature ∅ (strip 0 4)] ++ mkFeature ∅ (strip 2 2) :: []))
  = ShallowSed.shallow_sediment reef_layer (mkLayer [] ([mkFeature ∅ (strip 0 4)] ++ [])).
Proof.
  apply (Regions.covered_mask_polygon_adds_nothing reef_layer []
           [mkFeature ∅ (strip 0 4)] [] (mkFeature ∅ (strip 2 2))).
  right. right. split; [reflexivity|].
  apply raster_within_check. vm_compute. reflexivity.
Defined.

(** *** Stage 08 *)

Import ClipLand.

Lemma coast_clips_cleanly :
  Forall (Regions.clips_cleanly no_raise (coastline_union_of coastline))
         [inland; coastal; offshore].
Proof.
  repeat (apply Forall_cons; split; [by intros g Hg|]). apply Forall_nil_2.
Qed.

Lemma clipped_features_off_land_witness :
  exists f g g',
    f ∈ [inland; coastal; offshore]
    /\ attrs (set_geometry coastal (Some (strip 4 5))) = attrs f
    /\ geom f = Some g
    /\ geom (set_geometry coastal (Some (strip 4 5))) = Some g'
    /\ within g' g
    /\ disjoint_interiors g' (coastline_union_of coastline)
    /\ (forall c, c ∈ coastline -> is_valid c = true -> disjoint_interiors g' c)
    /\ (intersects g (coastline_union_of coastline) = false -> same_region g' g).
Proof.
  apply (Regions.clipped_features_off_land no_raise [inland; coastal; offshore] coastline
           (set_geometry coastal (Some (strip 4 5))) coast_clips_cleanly).
  apply (list_elem_of_lookup_2 _ 0%nat). vm_compute. reflexivity.
Defined.

End Runs.
